(** * instantFSM: a shallow embedding of the execution engine

    The header [instantFSM.h] keeps every state of a machine in the flat
    index [mAllStates] (name to [StateImpl]) and links states by raw
    pointers.  Here a pointer to a [StateImpl] is the key of that state in
    [mAllStates] and [nullptr] is [None].  Loops that chase pointers or
    drain work lists take a fuel argument and answer [Timeout] when it
    runs out; C++ exceptions are the [Raise] outcome.

    Callbacks are host closures over the machine.  A callback is modelled
    as the list of things it does, in order: it appends a label to the
    host's log ([Say]) or calls [pushEvent] on the machine ([Push]).
    Guards read the host log and [isActive()], the one query a
    [const StateMachine&] offers. *)

From stdpp Require Import gmap strings list fin_maps.

Open Scope string_scope.
Open Scope list_scope.
Open Scope nat_scope.

(** ** Exceptions and outcomes *)

Inductive StateMachineException :=
| AlreadyHasInitial (pState : string)
| DuplicateStateIdentifier (pState : string)
| NoInitialState (pState : string)
| NoSuchState (pState : string)
| TargetAlreadySpecified (pTarget : string)
| ActionAlreadySpecified
| ConditionAlreadySpecified
| EventAlreadySpecified.

Inductive result (A : Type) :=
| Done (a : A)
| Raise (e : StateMachineException)
| Timeout.
Arguments Done {A} a.
Arguments Raise {A} e.
Arguments Timeout {A}.

#[global] Instance result_ret : MRet result := fun A a => Done a.
#[global] Instance result_bind : MBind result := fun A B f c =>
  match c with
  | Done a => f a
  | Raise e => Raise e
  | Timeout => Timeout
  end.

(** Left-to-right iteration of a fallible loop body over a vector. *)
Fixpoint forEach {A S : Type} (body : A → S → result S) (l : list A) (s : S)
  : result S :=
  match l with
  | [] => Done s
  | a :: l' => s' ← body a s; forEach body l' s'
  end.

(** ** Descriptors and run-time objects *)

Inductive Cmd :=
| Say (label : string)
| Push (event : string).

Definition Callback := list Cmd.

(** A guard sees the host log and the machine's [isActive()]. *)
Definition Guard := list string → bool → bool.

Record TransitionDef := mkTransitionDef {
  tdTarget : string;
  tdEvent : string;
  tdAction : option Callback;
  tdCondition : option Guard
}.

#[local] Unset Elimination Schemes.
Inductive StateDef := mkStateDef {
  sdName : string;
  sdIsInitial : bool;
  sdIsParallel : bool;
  sdChildren : list StateDef;
  sdTransitions : list TransitionDef;
  sdOnEntryActions : list Callback;
  sdOnExitActions : list Callback
}.
#[local] Set Elimination Schemes.

(** [mAddr] stands for the address of the transition object: its position
    in the declaration order of its source state.  Two transition pointers
    are equal when source and address agree.  [mSource] is set by
    [StateImpl::build] for every transition and is never null afterwards. *)
Record TransitionImpl := mkTransitionImpl {
  mAddr : nat;
  mSource : string;
  mTarget : option string;
  mEvent : string;
  mAction : option Callback;
  mCondition : option Guard
}.

Record StateImpl := mkStateImpl {
  mName : string;
  mParent : option string;
  mIsInitial : bool;
  mIsParallel : bool;
  mInitial : option string;
  mActive : option string;
  mChildren : list string;
  mTransitions : list TransitionImpl;
  mOnEntryActions : list Callback;
  mOnExitActions : list Callback
}.

(** [hostLog] is not a member of the class: it is the host's record of the
    labels its callbacks have said so far. *)
Record StateMachine := mkStateMachine {
  mAllStates : gmap string StateImpl;
  mEvents : list string;
  mIsActive : bool;
  mInToplevelProcess : bool;
  mImpl : string;
  hostLog : list string
}.

(** [StateImpl::StateImpl()] *)
Definition StateImpl_new : StateImpl :=
  mkStateImpl "" None false false None None [] [] [] [].

(** Dereference of a state pointer.  Pointers come out of [mAllStates]
    and are never dangling in the source. *)
Definition deref (m : StateMachine) (p : string) : StateImpl :=
  default StateImpl_new (mAllStates m !! p).

Definition setActive (v : option string) (s : StateImpl) : StateImpl :=
  mkStateImpl (mName s) (mParent s) (mIsInitial s) (mIsParallel s)
    (mInitial s) v (mChildren s) (mTransitions s)
    (mOnEntryActions s) (mOnExitActions s).

(** [p->mActive = v] *)
Definition writeActive (p : string) (v : option string) (m : StateMachine)
  : StateMachine :=
  mkStateMachine (<[p := setActive v (deref m p)]> (mAllStates m))
    (mEvents m) (mIsActive m) (mInToplevelProcess m) (mImpl m) (hostLog m).

Definition setEvents (q : list string) (m : StateMachine) : StateMachine :=
  mkStateMachine (mAllStates m) q (mIsActive m) (mInToplevelProcess m)
    (mImpl m) (hostLog m).

Definition setIsActive (b : bool) (m : StateMachine) : StateMachine :=
  mkStateMachine (mAllStates m) (mEvents m) b (mInToplevelProcess m)
    (mImpl m) (hostLog m).

Definition setInToplevelProcess (b : bool) (m : StateMachine) : StateMachine :=
  mkStateMachine (mAllStates m) (mEvents m) (mIsActive m) b
    (mImpl m) (hostLog m).

Definition say (l : string) (m : StateMachine) : StateMachine :=
  mkStateMachine (mAllStates m) (mEvents m) (mIsActive m)
    (mInToplevelProcess m) (mImpl m) (hostLog m ++ [l]).

(** ** Queries on the state tree *)

(** [StateImpl::isAtomic] *)
Definition isAtomic (s : StateImpl) : bool :=
  match mChildren s with [] => true | _ => false end.

(** [StateImpl::isActive]:
    [mParent == nullptr ? mRoot->isActive()
       : mParent->mActive == this || (mParent->mIsParallel && mParent->isActive())] *)
Fixpoint isActive (n : nat) (m : StateMachine) (p : string) : result bool :=
  match n with
  | 0 => Timeout
  | S n' =>
    match mParent (deref m p) with
    | None => Done (mIsActive m)
    | Some q =>
      if bool_decide (mActive (deref m q) = Some p) then Done true
      else if mIsParallel (deref m q) then isActive n' m q
      else Done false
    end
  end.

(** [StateMachine::isDescendant]: walk up from [pCheck] until [pAgainst]
    or [nullptr] is met. *)
Fixpoint isDescendant (n : nat) (m : StateMachine)
    (lStart pAgainst : option string) : result bool :=
  match lStart with
  | None => Done false
  | Some p =>
    if bool_decide (lStart = pAgainst) then Done true
    else match n with
         | 0 => Timeout
         | S n' => isDescendant n' m (mParent (deref m p)) pAgainst
         end
  end.

(** The vector [lLhsParents] of [findLeastCommonAncestor]: the parent of
    [p], its parent, and so on, closed by the final [nullptr]. *)
Fixpoint parentChain (n : nat) (m : StateMachine) (lCurrentParent : option string)
  : result (list (option string)) :=
  match lCurrentParent with
  | None => Done [None]
  | Some q =>
    match n with
    | 0 => Timeout
    | S n' => l ← parentChain n' m (mParent (deref m q)); Done (Some q :: l)
    end
  end.

Fixpoint firstAncestorOf (n : nat) (m : StateMachine) (pRhs : option string)
    (l : list (option string)) : result (option string) :=
  match l with
  | [] => Done (Some (mImpl m))
  | lState :: l' =>
    b ← isDescendant n m pRhs lState;
    if b : bool then Done lState else firstAncestorOf n m pRhs l'
  end.

(** [StateMachine::findLeastCommonAncestor] *)
Definition findLeastCommonAncestor (n : nat) (m : StateMachine)
    (pLhs : string) (pRhs : option string) : result (option string) :=
  lLhsParents ← parentChain n m (mParent (deref m pLhs));
  firstAncestorOf n m pRhs lLhsParents.

(** ** Exit and entry lists *)

(** The [for (auto lChild : lCurrent->mChildren)] of [listExitStates]:
    an active child goes to the back of [lFifo] and to the front of
    [lToExitList]. *)
Fixpoint exitChildren (n : nat) (m : StateMachine) (children : list string)
    (lFifo lToExitList : list string) : result (list string * list string) :=
  match children with
  | [] => Done (lFifo, lToExitList)
  | lChild :: cs =>
    b ← isActive n m lChild;
    if b : bool
    then exitChildren n m cs (lFifo ++ [lChild]) (lChild :: lToExitList)
    else exitChildren n m cs lFifo lToExitList
  end.

Fixpoint exitLoop (k n : nat) (m : StateMachine)
    (lFifo lToExitList : list string) : result (list string) :=
  match lFifo with
  | [] => Done lToExitList
  | lCurrent :: rest =>
    match k with
    | 0 => Timeout
    | S k' =>
      '(f, l) ← exitChildren n m (mChildren (deref m lCurrent)) rest lToExitList;
      exitLoop k' n m f l
    end
  end.

(** [StateMachine::listExitStates].  [findLeastCommonAncestor] never
    answers [nullptr], so the [None] branch below is not reached. *)
Definition listExitStates (n : nat) (m : StateMachine) (pTransition : TransitionImpl)
  : result (list string) :=
  lCommonAncestor ← findLeastCommonAncestor n m (mSource pTransition) (mTarget pTransition);
  lFifo ← match lCommonAncestor with
          | Some a => b ← isActive n m a; Done (if b : bool then [a] else [])
          | None => Done []
          end;
  exitLoop n n m lFifo [].

(** First loop of [listEntryStates]: the completion below the target, in
    the order the FIFO yields it. *)
Fixpoint completionLoop (k : nat) (m : StateMachine)
    (lFifo lToEnterList : list string) : result (list string) :=
  match lFifo with
  | [] => Done lToEnterList
  | lCurrent :: rest =>
    match k with
    | 0 => Timeout
    | S k' =>
      let s := deref m lCurrent in
      if mIsParallel s
      then completionLoop k' m (rest ++ mChildren s) (lToEnterList ++ mChildren s)
      else match mInitial s with
           | Some i => completionLoop k' m (rest ++ [i]) (lToEnterList ++ [i])
           | None => completionLoop k' m rest lToEnterList
           end
    end
  end.

(** Second loop: inactive ancestors are pushed to the front, up to the
    first active one. *)
Fixpoint ancestorsLoop (k n : nat) (m : StateMachine) (lActive : option string)
    (lToEnterList : list string) : result (list string) :=
  match lActive with
  | None => Done lToEnterList
  | Some a =>
    b ← isActive n m a;
    if b : bool then Done lToEnterList
    else match k with
         | 0 => Timeout
         | S k' => ancestorsLoop k' n m (mParent (deref m a)) (a :: lToEnterList)
         end
  end.

(** Third loop, over a list iterator.  The list is kept as the elements
    before the iterator (reversed) and the elements from the iterator on;
    [++it] moves one element across.  Every round of the loop moves the
    iterator at least one element on, so the length of the list bounds the
    number of rounds. *)
Definition advance (z : list string * list string) : list string * list string :=
  match z.2 with
  | [] => z
  | x :: after => (x :: z.1, after)
  end.

(** The loop over the children of the parallel state under the iterator: a child equal to
    the element that followed the parallel state advances the iterator;
    any other child is inserted behind the iterator, which moves onto it. *)
Fixpoint insertChildren (children : list string) (lAlreadyInserted : option string)
    (z : list string * list string) : list string * list string :=
  match children with
  | [] => z
  | lChild :: cs =>
    if bool_decide (Some lChild = lAlreadyInserted)
    then insertChildren cs lAlreadyInserted (advance z)
    else match z.2 with
         | [] => insertChildren cs lAlreadyInserted (z.1, [lChild])
         | x :: after => insertChildren cs lAlreadyInserted (x :: z.1, lChild :: after)
         end
  end.

Fixpoint parallelPass (k : nat) (m : StateMachine) (z : list string * list string)
  : result (list string) :=
  match z.2 with
  | [] => Done (rev z.1)
  | x :: after =>
    match k with
    | 0 => Timeout
    | S k' =>
      if mIsParallel (deref m x)
      then parallelPass k' m
             (advance (insertChildren (mChildren (deref m x)) (head after) z))
      else parallelPass k' m (advance z)
    end
  end.

(** [StateMachine::listEntryStates] *)
Definition listEntryStates (n : nat) (m : StateMachine) (pState : option string)
  : result (list string) :=
  match pState with
  | None => Done []
  | Some p =>
    l1 ← completionLoop n m [p] [p];
    l2 ← ancestorsLoop n n m (mParent (deref m p)) l1;
    parallelPass (length l2) m ([], l2)
  end.

(** ** Transition selection *)

(** [TransitionImpl::test] *)
Definition test (m : StateMachine) (t : TransitionImpl) : bool :=
  match mCondition t with
  | None => true
  | Some c => c (hostLog m) (mIsActive m)
  end.

(** [mTransitions.equal_range(pEvent)]: the transitions stored under the
    key, in insertion order. *)
Definition equal_range (pEvent : string) (ts : list TransitionImpl)
  : list TransitionImpl :=
  filter (λ t, mEvent t = pEvent) ts.

(** The [while (lState != nullptr && !lMatched)] of [selectTransitions]
    for one atomic state. *)
Fixpoint walkUp (k : nat) (m : StateMachine) (pEvent : string)
    (lState : option string) (lTransitions : list TransitionImpl)
  : result (list TransitionImpl) :=
  match lState with
  | None => Done lTransitions
  | Some p =>
    match k with
    | 0 => Timeout
    | S k' =>
      let hits := filter (λ t, test m t = true)
                    (equal_range pEvent (mTransitions (deref m p))) in
      let lMatched := negb (bool_decide (hits = [])) in
      if lMatched then Done (lTransitions ++ hits)
      else walkUp k' m pEvent (mParent (deref m p)) (lTransitions ++ hits)
    end
  end.

(** [DepthFirstSearch::fetchNext] on the stack [mLifo] *)
Definition fetchNext (m : StateMachine) (mLifo : list string) : list string :=
  match mLifo with
  | [] => []
  | lCurrent :: rest => mChildren (deref m lCurrent) ++ rest
  end.

(** The test installed by [selectTransitions] *)
Definition atomicAndActive (n : nat) (m : StateMachine) (p : string) : result bool :=
  if isAtomic (deref m p) then isActive n m p else Done false.

(** [StateIterator::lookupNextValidState] *)
Fixpoint lookupNextValidState (k n : nat) (m : StateMachine) (mLifo : list string)
  : result (list string) :=
  match mLifo with
  | [] => Done []
  | lCurrent :: _ =>
    b ← atomicAndActive n m lCurrent;
    if b : bool then Done mLifo
    else match k with
         | 0 => Timeout
         | S k' => lookupNextValidState k' n m (fetchNext m mLifo)
         end
  end.

(** The loop that pushes every state the iterator yields onto [lAtomics] *)
Fixpoint collectAtomics (k n : nat) (m : StateMachine) (mLifo lAtomics : list string)
  : result (list string) :=
  match mLifo with
  | [] => Done lAtomics
  | lCurrent :: _ =>
    match k with
    | 0 => Timeout
    | S k' =>
      l ← lookupNextValidState n n m (fetchNext m mLifo);
      collectAtomics k' n m l (lAtomics ++ [lCurrent])
    end
  end.

(** [StateMachine::selectTransitions] *)
Definition selectTransitions (n : nat) (m : StateMachine) (pEvent : string)
  : result (list TransitionImpl) :=
  l0 ← lookupNextValidState n n m [mImpl m];
  lAtomics ← collectAtomics n n m l0 [];
  forEach (λ lState lTransitions, walkUp n m pEvent (Some lState) lTransitions)
    lAtomics [].

(** ** Conflict removal *)

(** Equality of two transition pointers *)
Definition sameTransition (t u : TransitionImpl) : bool :=
  bool_decide (mSource t = mSource u ∧ mAddr t = mAddr u).

(** [lFiltered.erase(std::remove(begin, end, u), end)] *)
Definition eraseTransition (l : list TransitionImpl) (u : TransitionImpl)
  : list TransitionImpl :=
  filter (λ t, sameTransition t u = false) l.

(** [std::set_intersection] writes the common elements of the two sorted
    ranges to the front of the output.  The ranges are sorted by address,
    which the model does not have; the common elements are listed in the
    order of the first range.  The source reads the output only through
    [lIntersect.empty()]. *)
Definition set_intersection (a b : list string) (out : list (option string))
  : list (option string) :=
  let common := Some <$> filter (λ x, x ∈ b) a in
  common ++ drop (length common) out.

(** Inner [for (auto lCheckAgainst : lFiltered)].  The first component of
    the answer is [lCheckPreempted]. *)
Fixpoint checkAgainst (n : nat) (m : StateMachine)
    (lToCheckTarget : option string) (lToCheckExits : list string)
    (lFiltered : list TransitionImpl)
    (lIntersect : list (option string)) (lToRemove : list TransitionImpl)
  : result (bool * list (option string) * list TransitionImpl) :=
  match lFiltered with
  | [] => Done (false, lIntersect, lToRemove)
  | lCheckAgainst :: rest =>
    match mTarget lCheckAgainst with
    | None => checkAgainst n m lToCheckTarget lToCheckExits rest lIntersect lToRemove
    | Some _ =>
      lCheckAgainstExits ← listExitStates n m lCheckAgainst;
      let grown := lIntersect ++
        replicate (length lToCheckExits + length lCheckAgainstExits) None in
      let lIntersect' := set_intersection lToCheckExits lCheckAgainstExits grown in
      if negb (bool_decide (lIntersect' = []))
      then
        b ← isDescendant n m lToCheckTarget (mTarget lCheckAgainst);
        if b : bool
        then checkAgainst n m lToCheckTarget lToCheckExits rest lIntersect'
               (lToRemove ++ [lCheckAgainst])
        else Done (true, lIntersect', lToRemove)
      else checkAgainst n m lToCheckTarget lToCheckExits rest lIntersect' lToRemove
    end
  end.

(** Outer [for (auto lTransitionToCheck : pTransitions)] *)
Fixpoint removeLoop (n : nat) (m : StateMachine) (pTransitions lFiltered : list TransitionImpl)
    (lIntersect : list (option string)) : result (list TransitionImpl) :=
  match pTransitions with
  | [] => Done lFiltered
  | lTransitionToCheck :: rest =>
    match lFiltered, mTarget lTransitionToCheck with
    | [], _ | _, None => removeLoop n m rest (lFiltered ++ [lTransitionToCheck]) lIntersect
    | _, Some _ =>
      lToCheckExits ← listExitStates n m lTransitionToCheck;
      '(lCheckPreempted, lIntersect', lToRemove) ←
        checkAgainst n m (mTarget lTransitionToCheck) lToCheckExits lFiltered lIntersect [];
      if lCheckPreempted : bool
      then removeLoop n m rest lFiltered lIntersect'
      else removeLoop n m rest
             (foldl eraseTransition lFiltered lToRemove ++ [lTransitionToCheck])
             lIntersect'
    end
  end.

(** [StateMachine::removeConflicts] *)
Definition removeConflicts (n : nat) (m : StateMachine) (pTransitions : list TransitionImpl)
  : result (list TransitionImpl) :=
  removeLoop n m pTransitions [] [].

(** ** Callbacks, microsteps and the event loop *)

Section Engine.

(** What [pRoot.pushEvent(e)] does when a callback calls it.  The knot
    is tied by [pushEvent] below. *)
Variable pushEvent' : string → StateMachine → result StateMachine.

Definition runCmd (c : Cmd) (m : StateMachine) : result StateMachine :=
  match c with
  | Say l => Done (say l m)
  | Push e => pushEvent' e m
  end.

Definition runCallback (cb : Callback) (m : StateMachine) : result StateMachine :=
  forEach runCmd cb m.

(** [StateImpl::enter] *)
Definition StateImpl_enter (p : string) (m : StateMachine) : result StateMachine :=
  let s := deref m p in
  m1 ← (if mIsParallel s then Done m
        else match mInitial s with
             | Some i => Done (writeActive p (Some i) m)
             | None =>
               if isAtomic s then Done m else Raise (NoInitialState (mName s))
             end);
  let m2 := match mParent s with
            | Some q =>
              if mIsParallel (deref m1 q) then m1 else writeActive q (Some p) m1
            | None => m1
            end in
  forEach runCallback (mOnEntryActions s) m2.

(** [StateImpl::leave] *)
Definition StateImpl_leave (p : string) (m : StateMachine) : result StateMachine :=
  let s := deref m p in
  let m1 := match mParent s with
            | Some q =>
              if mIsParallel (deref m q) then m else writeActive q None m
            | None => m
            end in
  forEach runCallback (mOnExitActions s) m1.

(** [TransitionImpl::doAction] *)
Definition doAction (t : TransitionImpl) (m : StateMachine) : result StateMachine :=
  match mAction t with
  | Some cb => runCallback cb m
  | None => Done m
  end.

(** First loop of [exitStates(pTransitions)]: the exit lists of the
    transitions that have a target, one behind the other. *)
Definition gatherExits (n : nat) (m : StateMachine) (pTransitions : list TransitionImpl)
  : result (list string) :=
  forEach (λ lTransition lToExit,
             match mTarget lTransition with
             | None => Done lToExit
             | Some _ =>
               lCurrentExit ← listExitStates n m lTransition;
               Done (lToExit ++ lCurrentExit)
             end) pTransitions [].

(** [StateMachine::exitStates(const std::vector<TransitionImpl*>&)] *)
Definition exitStates (n : nat) (pTransitions : list TransitionImpl) (m : StateMachine)
  : result StateMachine :=
  lToExit ← gatherExits n m pTransitions;
  forEach StateImpl_leave lToExit m.

Definition gatherEntries (n : nat) (m : StateMachine) (pTransitions : list TransitionImpl)
  : result (list string) :=
  forEach (λ lTransition lToEnter,
             match mTarget lTransition with
             | None => Done lToEnter
             | Some _ =>
               lCurrentEnter ← listEntryStates n m (mTarget lTransition);
               Done (lToEnter ++ lCurrentEnter)
             end) pTransitions [].

(** [StateMachine::enterStates(const std::vector<TransitionImpl*>&)] *)
Definition enterStates (n : nat) (pTransitions : list TransitionImpl) (m : StateMachine)
  : result StateMachine :=
  lToEnter ← gatherEntries n m pTransitions;
  forEach StateImpl_enter lToEnter m.

(** [StateMachine::processTransitions] *)
Definition processTransitions (n : nat) (pEvent : string) (m : StateMachine)
  : result StateMachine :=
  lTransitions ← selectTransitions n m pEvent;
  lFiltered ← removeConflicts n m lTransitions;
  m1 ← exitStates n lFiltered m;
  m2 ← forEach doAction lFiltered m1;
  enterStates n lFiltered m2.

(** The [while (!mEvents.empty())] of [processEvents] *)
Fixpoint processLoop (k n : nat) (m : StateMachine) : result StateMachine :=
  match mEvents m with
  | [] => Done m
  | lEvent :: _ =>
    match k with
    | 0 => Timeout
    | S k' =>
      m1 ← processTransitions n lEvent m;
      processLoop k' n (setEvents (tail (mEvents m1)) m1)
    end
  end.

(** [StateMachine::processEvents] *)
Definition processEvents (n : nat) (m : StateMachine) : result StateMachine :=
  if mInToplevelProcess m then Done m
  else
    m1 ← processLoop n n (setInToplevelProcess true m);
    Done (setInToplevelProcess false m1).

(** The [while (!lToEnter.empty())] of [StateMachine::enter] *)
Fixpoint enterLoop (k : nat) (lToEnter : list string) (m : StateMachine)
  : result StateMachine :=
  match lToEnter with
  | [] => Done m
  | lCurrent :: rest =>
    match k with
    | 0 => Timeout
    | S k' =>
      m1 ← StateImpl_enter lCurrent m;
      let s := deref m1 lCurrent in
      if negb (mIsParallel s)
      then match mInitial s with
           | Some i => enterLoop k' (i :: rest) m1
           | None => enterLoop k' rest m1
           end
      else enterLoop k' (mChildren s ++ rest) m1
    end
  end.

(** [StateMachine::enter] *)
Definition enter' (n : nat) (m : StateMachine) : result StateMachine :=
  if mIsActive m then Done m
  else enterLoop n [mImpl m] (setIsActive true m).

(** The [while (!lLifo.empty())] of [StateMachine::leave] *)
Fixpoint leaveLoop (k n : nat) (m : StateMachine) (lLifo lToLeave : list string)
  : result (list string) :=
  match lLifo with
  | [] => Done lToLeave
  | lCurrent :: rest =>
    match k with
    | 0 => Timeout
    | S k' =>
      b ← isActive n m lCurrent;
      if negb b then leaveLoop k' n m rest (lCurrent :: lToLeave)
      else
        let s := deref m lCurrent in
        if mIsParallel s
        then leaveLoop k' n m (mChildren s ++ rest) (lCurrent :: lToLeave)
        else match mActive s with
             | Some a => leaveLoop k' n m (a :: rest) (lCurrent :: lToLeave)
             | None => leaveLoop k' n m rest (lCurrent :: lToLeave)
             end
    end
  end.

(** [StateMachine::leave] *)
Definition leave' (n : nat) (m : StateMachine) : result StateMachine :=
  if negb (mIsActive m) then Done m
  else
    lToLeave ← leaveLoop n n m [mImpl m] [];
    m1 ← forEach StateImpl_leave lToLeave m;
    Done (setIsActive false m1).

End Engine.

(** [StateMachine::pushEvent]: enqueue, then [processEvents()].  A callback
    that pushes during the call runs this same function. *)
Fixpoint pushEvent (n : nat) (pEvent : string) (m : StateMachine)
  : result StateMachine :=
  match n with
  | 0 => Timeout
  | S n' => processEvents (pushEvent n') n' (setEvents (mEvents m ++ [pEvent]) m)
  end.

Definition enter (n : nat) (m : StateMachine) : result StateMachine :=
  enter' (pushEvent n) n m.

Definition leave (n : nat) (m : StateMachine) : result StateMachine :=
  leave' (pushEvent n) n m.

(** [StateMachine::inState] *)
Definition inState (n : nat) (m : StateMachine) (stateName : string) : result bool :=
  match mAllStates m !! stateName with
  | None => Done false
  | Some _ =>
    if bool_decide (stateName = mImpl m) then Done (mIsActive m)
    else isActive n m stateName
  end.

(** ** Parameter packs *)

(** What [Transition(...)] takes: [Target(name)], [Action(fun)],
    [Condition(fun)] and [OnEvent(name)].  [Action] and [Condition] wrap
    what they are given in a closure, so the function they carry is never
    empty. *)
Inductive TransitionParam :=
| ParamTarget (pTargetName : string)
| ParamAction (pFun : Callback)
| ParamCondition (pCond : Guard)
| ParamEvent (pEvent : string).

(** [TransitionDef::addParameter], the four overloads *)
Definition TransitionDef_addParameter (p : TransitionParam) (d : TransitionDef)
  : result TransitionDef :=
  match p with
  | ParamTarget pTargetName =>
    if negb (bool_decide (tdTarget d = ""))
    then Raise (TargetAlreadySpecified pTargetName)
    else Done (mkTransitionDef pTargetName (tdEvent d) (tdAction d) (tdCondition d))
  | ParamAction pFun =>
    match tdAction d with
    | Some _ => Raise ActionAlreadySpecified
    | None => Done (mkTransitionDef (tdTarget d) (tdEvent d) (Some pFun) (tdCondition d))
    end
  | ParamCondition pCond =>
    match tdCondition d with
    | Some _ => Raise ConditionAlreadySpecified
    | None => Done (mkTransitionDef (tdTarget d) (tdEvent d) (tdAction d) (Some pCond))
    end
  | ParamEvent pEvent =>
    if negb (bool_decide (tdEvent d = ""))
    then Raise EventAlreadySpecified
    else Done (mkTransitionDef (tdTarget d) pEvent (tdAction d) (tdCondition d))
  end.

(** [TransitionDef::addParameters]: the parameters from left to right *)
Definition TransitionDef_addParameters (ps : list TransitionParam) (d : TransitionDef)
  : result TransitionDef :=
  forEach TransitionDef_addParameter ps d.

(** [Transition(params...)]: the pack is added to a definition whose
    strings and functions are empty.  The source does not compile for an
    empty pack. *)
Definition Transition (ps : list TransitionParam) : result TransitionDef :=
  TransitionDef_addParameters ps (mkTransitionDef "" "" None None).

(** [OnEvent(pEvent, pFun)], the handler shorthand *)
Definition OnEvent (pEvent : string) (pFun : Callback) : result TransitionDef :=
  Transition [ParamEvent pEvent; ParamAction pFun].

(** What [State(name, ...)] takes: a child state, a transition, [OnEntry(fun)],
    [OnExit(fun)], [initialTag] and [parallelTag]. *)
Inductive StateParam :=
| ParamState (pState : StateDef)
| ParamTransition (pTransition : TransitionDef)
| ParamOnEntry (pAction : Callback)
| ParamOnExit (pAction : Callback)
| ParamInitialTag
| ParamParallelTag.

(** [StateDef::addParameter], the six overloads *)
Definition StateDef_addParameter (d : StateDef) (p : StateParam) : StateDef :=
  match p with
  | ParamState pState =>
    mkStateDef (sdName d) (sdIsInitial d) (sdIsParallel d) (sdChildren d ++ [pState])
      (sdTransitions d) (sdOnEntryActions d) (sdOnExitActions d)
  | ParamTransition pTransition =>
    mkStateDef (sdName d) (sdIsInitial d) (sdIsParallel d) (sdChildren d)
      (sdTransitions d ++ [pTransition]) (sdOnEntryActions d) (sdOnExitActions d)
  | ParamOnEntry pAction =>
    mkStateDef (sdName d) (sdIsInitial d) (sdIsParallel d) (sdChildren d)
      (sdTransitions d) (sdOnEntryActions d ++ [pAction]) (sdOnExitActions d)
  | ParamOnExit pAction =>
    mkStateDef (sdName d) (sdIsInitial d) (sdIsParallel d) (sdChildren d)
      (sdTransitions d) (sdOnEntryActions d) (sdOnExitActions d ++ [pAction])
  | ParamInitialTag =>
    mkStateDef (sdName d) true (sdIsParallel d) (sdChildren d)
      (sdTransitions d) (sdOnEntryActions d) (sdOnExitActions d)
  | ParamParallelTag =>
    mkStateDef (sdName d) (sdIsInitial d) true (sdChildren d)
      (sdTransitions d) (sdOnEntryActions d) (sdOnExitActions d)
  end.

(** [State(pName, params...)] and [StateDef::StateDef(pName, params...)] *)
Definition State (pName : string) (ps : list StateParam) : StateDef :=
  foldl StateDef_addParameter (mkStateDef pName false false [] [] [] []) ps.

(** ** Construction *)

(** First loop of the constructor: one fresh [StateImpl] per definition,
    breadth first; a name met twice is an error. *)
Fixpoint allocLoop (k : nat) (lWorkingQueue : list StateDef)
    (st : gmap string StateImpl) : result (gmap string StateImpl) :=
  match lWorkingQueue with
  | [] => Done st
  | lDef :: rest =>
    match k with
    | 0 => Timeout
    | S k' =>
      match st !! sdName lDef with
      | Some _ => Raise (DuplicateStateIdentifier (sdName lDef))
      | None => allocLoop k' (rest ++ sdChildren lDef) (<[sdName lDef := StateImpl_new]> st)
      end
    end
  end.

(** [StateImpl::build], children part *)
Fixpoint linkChildren (name : string) (defs : list StateDef)
    (children : list string) (initial : option string)
  : result (list string * option string) :=
  match defs with
  | [] => Done (children, initial)
  | lChildDef :: ds =>
    if sdIsInitial lChildDef
    then match initial with
         | Some _ => Raise (AlreadyHasInitial name)
         | None => linkChildren name ds (children ++ [sdName lChildDef])
                     (Some (sdName lChildDef))
         end
    else linkChildren name ds (children ++ [sdName lChildDef]) initial
  end.

(** [StateImpl::build], transitions part.  [i] is the address given to the
    next transition. *)
Fixpoint buildTransitions (st : gmap string StateImpl) (this : string) (i : nat)
    (defs : list TransitionDef) : result (list TransitionImpl) :=
  match defs with
  | [] => Done []
  | d :: ds =>
    target ← (if bool_decide (tdTarget d = "") then Done None
              else match st !! tdTarget d with
                   | None => Raise (NoSuchState (tdTarget d))
                   | Some _ => Done (Some (tdTarget d))
                   end);
    rest ← buildTransitions st this (S i) ds;
    Done (mkTransitionImpl i this target (tdEvent d) (tdAction d) (tdCondition d) :: rest)
  end.

(** [StateImpl::build] on the object allocated under [sdName pDef] *)
Definition StateImpl_build (pParent : option string) (pDef : StateDef)
    (st : gmap string StateImpl) : result (gmap string StateImpl) :=
  let this := default StateImpl_new (st !! sdName pDef) in
  '(children, initial) ←
    linkChildren (sdName pDef) (sdChildren pDef) (mChildren this) (mInitial this);
  if negb (sdIsParallel pDef) && negb (bool_decide (children = []))
     && bool_decide (initial = None)
  then Raise (NoInitialState (sdName pDef))
  else
    ts ← buildTransitions st (sdName pDef) (length (mTransitions this)) (sdTransitions pDef);
    Done (<[sdName pDef :=
             mkStateImpl (sdName pDef) pParent (sdIsInitial pDef) (sdIsParallel pDef)
               initial (mActive this) children (mTransitions this ++ ts)
               (sdOnEntryActions pDef) (sdOnExitActions pDef)]> st).

(** Second loop of the constructor, over pairs of parent and definition *)
Fixpoint buildLoop (k : nat) (lBuildQueue : list (option string * StateDef))
    (st : gmap string StateImpl) : result (gmap string StateImpl) :=
  match lBuildQueue with
  | [] => Done st
  | (lParent, lDef) :: rest =>
    match k with
    | 0 => Timeout
    | S k' =>
      st' ← StateImpl_build lParent lDef st;
      buildLoop k' (rest ++ ((λ c, (Some (sdName lDef), c)) <$> sdChildren lDef)) st'
    end
  end.

(** The constructor gathers its parameter pack as [StateDef("root", params...)]:
    whatever the pack holds, the definition is named "root". *)
Definition asRoot (params : StateDef) : StateDef :=
  mkStateDef "root" (sdIsInitial params) (sdIsParallel params) (sdChildren params)
    (sdTransitions params) (sdOnEntryActions params) (sdOnExitActions params).

(** [StateMachine::StateMachine] *)
Definition StateMachine_new (n : nat) (params : StateDef) : result StateMachine :=
  let lCurrentDefinition := asRoot params in
  st ← allocLoop n [lCurrentDefinition] ∅;
  st' ← buildLoop n [(None, lCurrentDefinition)] st;
  Done (mkStateMachine st' [] false false "root" []).

(** [StateImpl::getName] *)
Definition getName (s : StateImpl) : string := mName s.

(** ** Calls made by the host *)

Inductive Call :=
| CallEnter
| CallLeave
| CallPushEvent (pEvent : string).

Definition call (n : nat) (c : Call) (m : StateMachine) : result StateMachine :=
  match c with
  | CallEnter => enter n m
  | CallLeave => leave n m
  | CallPushEvent e => pushEvent n e m
  end.

Definition calls (n : nat) (cs : list Call) (m : StateMachine) : result StateMachine :=
  forEach (call n) cs m.

(** A machine built from [params] and driven through [cs] *)
Definition session (n : nat) (params : StateDef) (cs : list Call) : result StateMachine :=
  m ← StateMachine_new n params; calls n cs m.

(** The answers of [inState] for a list of names *)
Definition inStates (n : nat) (m : StateMachine) (names : list string)
  : result (list bool) :=
  forEach (λ name acc, b ← inState n m name; Done (acc ++ [b])) names [].

(** The exit list of each transition of a list, each computed as if the
    transition fired alone *)
Definition exitLists (n : nat) (m : StateMachine) (ts : list TransitionImpl)
  : result (list (list string)) :=
  forEach (λ t acc, l ← listExitStates n m t; Done (acc ++ [l])) ts [].

(** ** The machines of the test suite *)

Module Scenario.

(** [State(name, ...)] without children *)
Definition atom (name : string) (initial : bool) (ts : list TransitionDef)
    (onEntry onExit : list Callback) : StateDef :=
  mkStateDef name initial false [] ts onEntry onExit.

(** [Transition(OnEvent(e), Target(target), Action(...))] *)
Definition go (e target : string) (action : Callback) : TransitionDef :=
  mkTransitionDef target e (Some action) None.

(** [Transition(OnEvent(e), Target(target))] *)
Definition goto (e target : string) : TransitionDef :=
  mkTransitionDef target e None None.

(** [OnEvent(e, fun)] and [Transition(OnEvent(e), Action(fun))] *)
Definition onEvent (e : string) (action : Callback) : TransitionDef :=
  mkTransitionDef "" e (Some action) None.

(** The parameter pack of a machine *)
Definition machine (parallel : bool) (children : list StateDef)
    (ts : list TransitionDef) (onEntry onExit : list Callback) : StateDef :=
  mkStateDef "" false parallel children ts onEntry onExit.

Definition entry (name : string) : list Callback := [[Say name]].

(** TEST(instantFSM, CheckExitOrder) *)
Definition CheckExitOrder : StateDef :=
  machine false
    [ mkStateDef "S1" true false
        [ mkStateDef "S1A" true false
            [ atom "S1Ai" true [] [] (entry "S1Ai exit");
              atom "S1Aii" false [] [] (entry "S1Aii exit") ]
            [] [] (entry "S1A exit");
          mkStateDef "S1B" false false
            [ atom "S1Bi" true [] [] (entry "S1Bi exit");
              atom "S1Bii" false [] [] (entry "S1Bii exit") ]
            [] [] (entry "S1B exit") ]
        [] [] (entry "S1 exit");
      mkStateDef "S2" false false
        [ mkStateDef "S2A" true false
            [ atom "S2Ai" true [] [] (entry "S2Ai exit");
              atom "S2Aii" false [] [] (entry "S2Aii exit") ]
            [] [] (entry "S2A exit");
          mkStateDef "S2B" false false
            [ atom "S2Bi" true [] [] (entry "S2Bi exit");
              atom "S2Bii" false [] [] (entry "S2Bii exit") ]
            [] [] (entry "S2B exit") ]
        [] [] (entry "S2 exit") ]
    [] [] [].

(** TEST(instantFSM, ChildOnEntry) *)
Definition ChildOnEntry : StateDef :=
  machine false
    [ mkStateDef "S1" true false
        [ atom "S1A" false [] (entry "S1A") [];
          mkStateDef "S1B" true false
            [ atom "S1Bi" false [] (entry "S1Bi") [];
              atom "S1Bii" false [] (entry "S1Bii") [];
              atom "S1Biii" true [] (entry "S1Biii") [] ]
            [] (entry "S1B") [];
          atom "S1C" false [] (entry "S1C") [] ]
        [] (entry "S1") [];
      atom "S2" false [] (entry "S2") [];
      atom "S3" false [] (entry "S3") [] ]
    [] [] [].

(** TEST(instantFSM, TargetlessTransitions) *)
Definition TargetlessTransitions : StateDef :=
  machine true
    [ atom "S1" false
        [ onEvent "event" [Say "targetless in S1"];
          onEvent "event" [Say "OnEvent in S1"] ] [] [];
      mkStateDef "S2" false false
        [ atom "S2A" true
            [ onEvent "event" [Say "targetless in S2A"];
              onEvent "event" [Say "OnEvent in S2A"] ] [] [];
          atom "S2B" false
            [ onEvent "event" [Say "targetless in S2B"];
              onEvent "event" [Say "OnEvent in S2B"] ] [] [] ]
        [ onEvent "event" [Say "targetless in S2"];
          onEvent "event" [Say "OnEvent in S2"] ] [] [] ]
    [] [] [].

(** TEST(instantFSM, ParallelConflictingTransition); the two actions
    say different labels here so that the log tells them apart. *)
Definition ParallelConflictingTransition : StateDef :=
  machine false
    [ mkStateDef "S1" true true
        [ atom "SA" false [go "event" "S2" [Say "event from SA"]]
            (entry "SA entry") (entry "SA exit");
          atom "SB" false [go "event" "S3" [Say "event from SB"]]
            (entry "SB entry") (entry "SB exit") ]
        [] (entry "S1 entry") (entry "S1 exit");
      atom "S2" false [] (entry "S2 entry") (entry "S2 exit");
      atom "S3" false [] (entry "S3 entry") (entry "S3 exit") ]
    [] [] [].

(** Two orthogonal regions, each with a transition of its own on the
    same event that stays inside the region. *)
Definition IndependentRegions : StateDef :=
  machine true
    [ mkStateDef "A" false false
        [ atom "A1" true [go "e" "A2" [Say "A1 to A2"]] [] [];
          atom "A2" false [] [] [] ] [] [] [];
      mkStateDef "B" false false
        [ atom "B1" true [go "e" "B2" [Say "B1 to B2"]] [] [];
          atom "B2" false [] [] [] ] [] [] [] ]
    [] [] [].

(** Two orthogonal regions and a transition from one into the other *)
Definition CrossRegion : StateDef :=
  machine true
    [ mkStateDef "A" false false
        [ atom "A1" true [goto "e" "B2"] [] [];
          atom "A2" false [] [] [] ] [] [] [];
      mkStateDef "B" false false
        [ atom "B1" true [] [] [];
          atom "B2" false [] [] [] ] [] [] [] ]
    [] [] [].

(** A machine whose root pushes an event from its entry callback *)
Definition PushOnEntry : StateDef :=
  machine false
    [ atom "S1" true [goto "e" "S2"] (entry "S1 entry") (entry "S1 exit");
      mkStateDef "S2" false false
        [ atom "S2A" true [goto "e" "S2B"] (entry "S2A entry") (entry "S2A exit");
          atom "S2B" false [] (entry "S2B entry") (entry "S2B exit") ]
        [onEvent "f" [Say "f in S2"]] (entry "S2 entry") (entry "S2 exit") ]
    [] [[Say "root entry"; Push "e"]] (entry "root exit").

(** A machine whose exit callback, transition action and entry callback
    each push an event while the event loop runs *)
Definition PushInCallbacks : StateDef :=
  machine false
    [ atom "S1" true [go "e" "S2" [Say "S1 to S2"; Push "f"]]
        (entry "S1 entry") [[Say "S1 exit"; Push "g"]];
      atom "S2" false [onEvent "f" [Say "f in S2"]; onEvent "g" [Say "g in S2"]]
        [[Push "h"; Say "S2 entry"]] (entry "S2 exit") ]
    [] [] [].



End Scenario.

(** ** Vocabulary of the statements *)

(** Everything of a state but [mActive], the one member that changes
    after construction. *)
Definition shape (s : StateImpl) : StateImpl := setActive None s.

(** Two machines with the same state tree *)
Definition sameTopology (m m' : StateMachine) : Prop :=
  mImpl m = mImpl m' ∧ ∀ p, shape (deref m p) = shape (deref m' p).

(** What [StateImpl::build] checks before it accepts a state: a state that
    is not parallel and has children has an initial child. *)
Definition hasInitial (s : StateImpl) : Prop :=
  mIsParallel s = false → mChildren s ≠ [] → mInitial s ≠ None.

Definition initialsChecked (m : StateMachine) : Prop :=
  ∀ p, hasInitial (deref m p).

(** The states whose [mActive] the engine assigns: a state with an initial
    child, in its own [enter], and the parent of a state, in the [enter]
    and [leave] of that state. *)
Definition pointedAt (m : StateMachine) (p : string) : Prop :=
  mInitial (deref m p) ≠ None ∨ ∃ x, mParent (deref m x) = Some p.

(** Outside of any call the event queue is empty and no event loop runs. *)
Definition quiescent (m : StateMachine) : Prop :=
  mInToplevelProcess m = false ∧ mEvents m = [].

(** Partial-correctness triples for the engine: from a machine in [P] the
    call never raises, and a machine it returns is in [Q]. *)
Definition triple (P : StateMachine → Prop) (f : StateMachine → result StateMachine)
    (Q : StateMachine → Prop) : Prop :=
  ∀ m, P m → match f m with
              | Done m' => Q m'
              | Raise _ => False
              | Timeout => True
              end.

(** A computation that may run out of fuel but does not throw *)
Definition noRaise {A} (c : result A) : Prop :=
  match c with Raise _ => False | _ => True end.

(** A machine with the tree of [m0], seen from inside the event loop *)
Definition inFrame (m0 m : StateMachine) : Prop :=
  sameTopology m0 m ∧ mInToplevelProcess m = true.

(** A machine with the tree of [m0], seen between two calls of the host *)
Definition atRest (m0 m : StateMachine) : Prop :=
  sameTopology m0 m ∧ quiescent m.

(** The labels a run of commands says, and the events it pushes *)
Definition says (cmds : list Cmd) : list string :=
  flat_map (λ c, match c with Say l => [l] | Push _ => [] end) cmds.

Definition pushes (cmds : list Cmd) : list string :=
  flat_map (λ c, match c with Say _ => [] | Push e => [e] end) cmds.

(** The commands of the exit callbacks of the states of [l], in order;
    likewise for entry callbacks and for the actions of transitions. *)
Definition exitCmds (m : StateMachine) (l : list string) : list Cmd :=
  flat_map (λ p, concat (mOnExitActions (deref m p))) l.

Definition entryCmds (m : StateMachine) (l : list string) : list Cmd :=
  flat_map (λ p, concat (mOnEntryActions (deref m p))) l.

Definition actionCmds (ts : list TransitionImpl) : list Cmd :=
  flat_map (λ t, default [] (mAction t)) ts.

(** [m'] is [m] after callbacks made of [cmds] ran inside the event loop:
    their labels are at the end of the log and their events at the back
    of the queue, in the order of the commands. *)
Definition told (m : StateMachine) (cmds : list Cmd) (m' : StateMachine) : Prop :=
  hostLog m' = hostLog m ++ says cmds ∧
  mEvents m' = mEvents m ++ pushes cmds ∧
  sameTopology m m' ∧
  mInToplevelProcess m' = mInToplevelProcess m ∧
  mIsActive m' = mIsActive m.

(** The transitions of state [p] that [selectTransitions] accepts for
    [pEvent]: those stored under the event whose guard holds, in
    declaration order. *)
Definition enabled (m : StateMachine) (pEvent : string) (p : string)
  : list TransitionImpl :=
  filter (λ t, test m t = true) (equal_range pEvent (mTransitions (deref m p))).

(** [innermost m e p hits]: walking up from [p], the first state that has
    an enabled transition for [e] contributes [hits], all of its enabled
    transitions; [hits] is empty when no state up to the root has one. *)
Inductive innermost (m : StateMachine) (pEvent : string)
  : string → list TransitionImpl → Prop :=
| innermost_here p :
    enabled m pEvent p ≠ [] → innermost m pEvent p (enabled m pEvent p)
| innermost_up p q hits :
    enabled m pEvent p = [] → mParent (deref m p) = Some q →
    innermost m pEvent q hits → innermost m pEvent p hits
| innermost_none p :
    enabled m pEvent p = [] → mParent (deref m p) = None →
    innermost m pEvent p [].

(** The atomic states the iterator of [selectTransitions] yields *)
Definition activeAtomics (n : nat) (m : StateMachine) : result (list string) :=
  l0 ← lookupNextValidState n n m [mImpl m];
  collectAtomics n n m l0 [].

(** ** The tree of definitions *)

(** The names of a definition and of everything below it, parent first *)
Fixpoint allNames (d : StateDef) : list string :=
  match d with
  | mkStateDef name _ _ children _ _ _ => name :: flat_map allNames children
  end.

Definition countStates (d : StateDef) : nat := length (allNames d).

(** Every definition of a tree with its parent, parent first *)
Fixpoint links (parent : option string) (d : StateDef)
  : list (option string * StateDef) :=
  match d with
  | mkStateDef name _ _ children _ _ _ =>
    (parent, d) :: flat_map (links (Some name)) children
  end.

(** The same with the depth of each definition, [i] for [d] itself *)
Fixpoint nodes (i : nat) (parent : option string) (d : StateDef)
  : list (nat * option string * StateDef) :=
  match d with
  | mkStateDef name _ _ children _ _ _ =>
    (i, parent, d) :: flat_map (nodes (S i) (Some name)) children
  end.

(** The child tagged initial *)
Definition initialChild (children : list StateDef) : option StateDef :=
  find sdIsInitial children.

(** The transitions [StateImpl::build] makes of the definitions [defs] *)
Fixpoint transitionsOf (this : string) (i : nat) (defs : list TransitionDef)
  : list TransitionImpl :=
  match defs with
  | [] => []
  | d :: ds =>
    mkTransitionImpl i this
      (if bool_decide (tdTarget d = "") then None else Some (tdTarget d))
      (tdEvent d) (tdAction d) (tdCondition d)
    :: transitionsOf this (S i) ds
  end.

(** The state [StateImpl::build] makes of the definition [d] under [parent] *)
Definition implOf (parent : option string) (d : StateDef) : StateImpl :=
  mkStateImpl (sdName d) parent (sdIsInitial d) (sdIsParallel d)
    (sdName <$> initialChild (sdChildren d)) None (sdName <$> sdChildren d)
    (transitionsOf (sdName d) 0 (sdTransitions d))
    (sdOnEntryActions d) (sdOnExitActions d).

(** The machine [m] has the state tree of the definition [T]. *)
Definition hasTree (m : StateMachine) (T : StateDef) : Prop :=
  NoDup (allNames T) ∧
  mImpl m = sdName T ∧
  (∀ x, x ∉ allNames T → shape (deref m x) = StateImpl_new) ∧
  ∀ i p d, (i, p, d) ∈ nodes 0 None T → shape (deref m (sdName d)) = implOf p d.

(** No state has an active child. *)
Definition allClear (m : StateMachine) : Prop :=
  ∀ x, mActive (deref m x) = None.

(** The initial descent in the words of the specification: the state
    itself, then the descent of its initial child if it is not parallel,
    of every child in declaration order if it is. *)
Fixpoint descent (d : StateDef) : list string :=
  match d with
  | mkStateDef name _ parallel children _ _ _ =>
    name ::
    (if parallel then flat_map descent children
     else (fix first (l : list StateDef) : list string :=
             match l with
             | [] => []
             | c :: l' => if sdIsInitial c then descent c else first l'
             end) children)
  end.

(** No entry or exit callback of the tree pushes an event. *)
Definition quiet (T : StateDef) : Prop :=
  ∀ p d, (p, d) ∈ links None T →
    pushes (concat (sdOnEntryActions d)) = [] ∧
    pushes (concat (sdOnExitActions d)) = [].

(** The definitions the initial descent reaches, with depth and parent *)
Inductive onDescent (T : StateDef) : nat → option string → StateDef → Prop :=
| onDescent_root : onDescent T 0 None T
| onDescent_parallel i p d c :
    onDescent T i p d → sdIsParallel d = true → c ∈ sdChildren d →
    onDescent T (S i) (Some (sdName d)) c
| onDescent_initial i p d c :
    onDescent T i p d → sdIsParallel d = false →
    initialChild (sdChildren d) = Some c →
    onDescent T (S i) (Some (sdName d)) c.

(** The pointer updates of [StateImpl::enter], before the callbacks run *)
Definition enterLinks (p : string) (m : StateMachine) : result StateMachine :=
  let s := deref m p in
  m1 ← (if mIsParallel s then Done m
        else match mInitial s with
             | Some i => Done (writeActive p (Some i) m)
             | None =>
               if isAtomic s then Done m else Raise (NoInitialState (mName s))
             end);
  Done (match mParent s with
        | Some q =>
          if mIsParallel (deref m1 q) then m1 else writeActive q (Some p) m1
        | None => m1
        end).

(** The pointer update of [StateImpl::leave] *)
Definition leaveLinks (p : string) (m : StateMachine) : StateMachine :=
  match mParent (deref m p) with
  | Some q => if mIsParallel (deref m q) then m else writeActive q None m
  | None => m
  end.

(** The host log grown by the labels [l] *)
Definition addLog (l : list string) (m : StateMachine) : StateMachine :=
  mkStateMachine (mAllStates m) (mEvents m) (mIsActive m)
    (mInToplevelProcess m) (mImpl m) (hostLog m ++ l).

(** The index [mAllStates] holds exactly the names of the tree. *)
Definition indexed (m : StateMachine) (T : StateDef) : Prop :=
  ∀ x, is_Some (mAllStates m !! x) ↔ x ∈ allNames T.

(** The machine still has the tree and the index of [m0]. *)
Definition kept (T : StateDef) (m0 m : StateMachine) : Prop :=
  sameTopology m0 m ∧ indexed m T.

(** Every active-child pointer points from a state that is not parallel
    to one of its children, and that child is one of [l]. *)
Definition justified (m : StateMachine) (l : list string) : Prop :=
  ∀ x c, mActive (deref m x) = Some c →
    c ∈ l ∧ mParent (deref m c) = Some x ∧ mIsParallel (deref m x) = false.

(** The state of the pointers while the states of the descent are being
    entered: those in [done] have been. *)
Definition entering (T : StateDef) (done : list string) (m : StateMachine) : Prop :=
  hasTree m T ∧ indexed m T ∧ initialsChecked m ∧ justified m (descent T) ∧
  ∀ y, y ∈ done → mIsParallel (deref m y) = false →
       mInitial (deref m y) ≠ None → mActive (deref m y) ≠ None.

(** Two machines that differ at most in their pointers and their log *)
Definition sameFlags (m m' : StateMachine) : Prop :=
  mIsActive m' = mIsActive m ∧ mEvents m' = mEvents m ∧
  mInToplevelProcess m' = mInToplevelProcess m.

(** ** What the constructor accepts *)

(** The checks [StateImpl::build] makes on one definition, [names] being
    the keys of [mAllStates]: at most one child is tagged initial; a state
    that is not parallel and has children, has one; every transition that
    names a target names a state. *)
Definition stateOk (names : list string) (d : StateDef) : Prop :=
  length (filter (λ c, sdIsInitial c = true) (sdChildren d)) ≤ 1 ∧
  (sdIsParallel d = false → sdChildren d ≠ [] →
   ∃ c, c ∈ sdChildren d ∧ sdIsInitial c = true) ∧
  ∀ t, t ∈ sdTransitions d → tdTarget t ≠ "" → tdTarget t ∈ names.

Definition wellFormed (T : StateDef) : Prop :=
  NoDup (allNames T) ∧
  ∀ p d, (p, d) ∈ links None T → stateOk (allNames T) d.

(** What an exception of [StateImpl::build] says of the definition [d] *)
Definition reports (names : list string) (d : StateDef) (e : StateMachineException)
  : Prop :=
  match e with
  | AlreadyHasInitial x =>
    x = sdName d ∧ 2 ≤ length (filter (λ c, sdIsInitial c = true) (sdChildren d))
  | NoInitialState x =>
    x = sdName d ∧ sdIsParallel d = false ∧ sdChildren d ≠ [] ∧
    ∀ c, c ∈ sdChildren d → sdIsInitial c = false
  | NoSuchState t =>
    t ≠ "" ∧ (t ∉ names) ∧ ∃ tr, tr ∈ sdTransitions d ∧ tdTarget tr = t
  | _ => False
  end.

(** ** What the iterator, the ancestor tests and the packs are measured against *)

(** The test [selectTransitions] installs on its iterator, as a boolean:
    the state is atomic and [isActive()] answers true. *)
Definition yielded (n : nat) (m : StateMachine) (x : string) : bool :=
  match atomicAndActive n m x with
  | Done true => true
  | _ => false
  end.

(** [ancestorOrSelf m x y]: [y] is [x], or the parent of [x], or its
    parent, and so on. *)
Inductive ancestorOrSelf (m : StateMachine) : string → string → Prop :=
| ancestorOrSelf_here x : ancestorOrSelf m x x
| ancestorOrSelf_up x p y :
    mParent (deref m x) = Some p → ancestorOrSelf m p y → ancestorOrSelf m x y.

Definition properAncestor (m : StateMachine) (x a : string) : Prop :=
  ∃ p, mParent (deref m x) = Some p ∧ ancestorOrSelf m p a.

(** [isActive()] as a boolean: false also when the model runs out of fuel *)
Definition isActiveB (n : nat) (m : StateMachine) (x : string) : bool :=
  match isActive n m x with
  | Done true => true
  | _ => false
  end.

(** [activePath n m a x]: [x] is a child of [a], or a child of a child, and
    so on, and [x] and every state between [a] and [x] answers true to
    [isActive()]. *)
Inductive activePath (n : nat) (m : StateMachine) (a : string) : string → Prop :=
| activePath_child c :
    c ∈ mChildren (deref m a) → isActiveB n m c = true → activePath n m a c
| activePath_step x c :
    activePath n m a x → c ∈ mChildren (deref m x) → isActiveB n m c = true →
    activePath n m a c.

(** [depthIn T x i]: the tree holds a state named [x] at depth [i], the
    root being at depth 0. *)
Definition depthIn (T : StateDef) (x : string) (i : nat) : Prop :=
  ∃ p d, (i, p, d) ∈ nodes 0 None T ∧ sdName d = x.

(** A list of states with the deepest first *)
Definition deepestFirst (T : StateDef) (l : list string) : Prop :=
  ∀ i j x y dx dy, i < j → l !! i = Some x → l !! j = Some y →
    depthIn T x dx → depthIn T y dy → dy ≤ dx.

(** [inactiveAbove n m x anc]: [anc] lists ancestors of [x], each the
    parent of the next and the last the parent of [x]; all of them answer
    false to [isActive()], and the parent of the first, if there is one,
    answers true. *)
Definition inactiveAbove (n : nat) (m : StateMachine) (x : string) (anc : list string)
  : Prop :=
  (∀ i a b, (anc ++ [x]) !! i = Some a → (anc ++ [x]) !! S i = Some b →
            mParent (deref m b) = Some a) ∧
  (∀ a, a ∈ anc → isActiveB n m a = false) ∧
  (∀ h q, head (anc ++ [x]) = Some h → mParent (deref m h) = Some q →
          isActiveB n m q = true).


(** The parameters of each kind in a pack of [Transition(...)], in order *)
Definition targetsOf (ps : list TransitionParam) : list string :=
  flat_map (λ p, match p with ParamTarget t => [t] | _ => [] end) ps.

Definition eventsOf (ps : list TransitionParam) : list string :=
  flat_map (λ p, match p with ParamEvent e => [e] | _ => [] end) ps.

Definition actionsOf (ps : list TransitionParam) : list Callback :=
  flat_map (λ p, match p with ParamAction f => [f] | _ => [] end) ps.

Definition conditionsOf (ps : list TransitionParam) : list Guard :=
  flat_map (λ p, match p with ParamCondition c => [c] | _ => [] end) ps.

(** The parameters of each kind in a pack of [State(...)], in order *)
Definition childrenOf (ps : list StateParam) : list StateDef :=
  flat_map (λ p, match p with ParamState d => [d] | _ => [] end) ps.

Definition transitionsGiven (ps : list StateParam) : list TransitionDef :=
  flat_map (λ p, match p with ParamTransition t => [t] | _ => [] end) ps.

Definition entriesOf (ps : list StateParam) : list Callback :=
  flat_map (λ p, match p with ParamOnEntry f => [f] | _ => [] end) ps.

Definition exitsOf (ps : list StateParam) : list Callback :=
  flat_map (λ p, match p with ParamOnExit f => [f] | _ => [] end) ps.

Definition taggedInitial (ps : list StateParam) : bool :=
  existsb (λ p, match p with ParamInitialTag => true | _ => false end) ps.

Definition taggedParallel (ps : list StateParam) : bool :=
  existsb (λ p, match p with ParamParallelTag => true | _ => false end) ps.

(** * Properties *)

(** ** The scenarios, evaluated *)

(** TEST(instantFSM, ParallelConflictingTransition), replayed: the
    parallel state S1 holds SA (event to S2) and SB (event to S3), in that
    order.  After [enter()] and [pushEvent("event")] the callbacks ran in
    the order the test expects, only SA's action among the two actions,
    and S2 is active while S3 is not. *)
Example parallel_conflict_in_the_test :
  (m ← session 12 Scenario.ParallelConflictingTransition
         [CallEnter; CallPushEvent "event"];
   b ← inStates 12 m ["S1"; "SA"; "SB"; "S2"; "S3"];
   Done (hostLog m, b))
  = Done (["S1 entry"; "SA entry"; "SB entry"; "SB exit"; "SA exit"; "S1 exit";
           "event from SA"; "S2 entry"],
          [false; false; false; true; false]).
Proof. vm_compute. reflexivity. Qed.

(** C2: evaluation of the conflict resolver on two orthogonal regions.
    The selected transitions are A1 to A2 and B1 to B2, their exit lists
    are [A1] and [B1], which share no state, and still only the first
    transition survives [removeConflicts]. *)
Theorem disjoint_exits_are_treated_as_conflict :
  (m ← session 12 Scenario.IndependentRegions [CallEnter];
   ts ← selectTransitions 12 m "e";
   exits ← exitLists 12 m ts;
   kept ← removeConflicts 12 m ts;
   Done (map mSource ts, exits, map mSource kept))
  = Done (["A1"; "B1"], [["A1"]; ["B1"]], ["A1"]).
Proof. vm_compute. reflexivity. Qed.

(** C4: evaluation of a transition from one orthogonal region into the
    other.  After [enter()] and [pushEvent("e")] the compound state A
    (children A1 and A2, not parallel) is active and none of its children
    is. *)
Theorem cross_region_transition_leaves_region_empty :
  (m ← session 12 Scenario.CrossRegion [CallEnter; CallPushEvent "e"];
   b ← inStates 12 m ["root"; "A"; "A1"; "A2"; "B"; "B1"; "B2"];
   Done (mIsParallel (deref m "A"), mChildren (deref m "A"), b))
  = Done (false, ["A1"; "A2"], [true; true; false; false; true; false; true]).
Proof. vm_compute. reflexivity. Qed.

(** ** The outcome monad *)

Lemma bind_Done {A B} (c : result A) (f : A → result B) b :
  c ≫= f = Done b → ∃ a, c = Done a ∧ f a = Done b.
Proof. destruct c; simpl; [eauto | discriminate..]. Qed.

Lemma forEach_app {A S} (body : A → S → result S) l1 l2 s :
  forEach body (l1 ++ l2) s = forEach body l1 s ≫= forEach body l2.
Proof.
  revert s. induction l1 as [|a l1 IH]; intros s; simpl; [done|].
  destruct (body a s); simpl; auto.
Qed.

Lemma triple_bind P Q R f g :
  triple P f Q → triple Q g R → triple P (λ m, f m ≫= g) R.
Proof.
  intros Hf Hg m Hm. specialize (Hf m Hm).
  destruct (f m) as [m'| |]; simpl; [|done..]. by apply Hg.
Qed.

Lemma triple_weaken (P P' Q Q' : StateMachine → Prop) f :
  (∀ m, P' m → P m) → (∀ m, Q m → Q' m) → triple P f Q → triple P' f Q'.
Proof.
  intros HP HQ Hf m Hm. specialize (Hf m (HP m Hm)).
  destruct (f m); auto.
Qed.

Lemma triple_Done (P : StateMachine → Prop) : triple P Done P.
Proof. by intros m Hm. Qed.

Lemma triple_forEach {A} (I : StateMachine → Prop) (body : A → StateMachine → result StateMachine) l :
  (∀ a, a ∈ l → triple I (body a) I) → triple I (forEach body l) I.
Proof.
  induction l as [|a l IH]; intros Hb; simpl; [apply triple_Done|].
  apply triple_bind with I.
  - apply Hb. left.
  - apply IH. intros b Hin. apply Hb. by right.
Qed.

(** ** The state tree does not change after construction *)

Lemma shape_setActive v s : shape (setActive v s) = shape s.
Proof. by destruct s. Qed.

Lemma shape_fields s s' :
  shape s = shape s' →
  mName s = mName s' ∧ mParent s = mParent s' ∧ mIsParallel s = mIsParallel s' ∧
  mInitial s = mInitial s' ∧ mChildren s = mChildren s' ∧
  mTransitions s = mTransitions s' ∧ mOnEntryActions s = mOnEntryActions s' ∧
  mOnExitActions s = mOnExitActions s'.
Proof. destruct s, s'. unfold shape, setActive; simpl. intros [= -> -> -> -> -> -> -> -> ->]. done. Qed.

Lemma deref_writeActive p v m q :
  deref (writeActive p v m) q =
  if decide (p = q) then setActive v (deref m p) else deref m q.
Proof.
  unfold deref at 1, writeActive; simpl. rewrite lookup_insert.
  destruct (decide (p = q)); done.
Qed.

Lemma sameTopology_refl m : sameTopology m m.
Proof. done. Qed.

Lemma sameTopology_trans m1 m2 m3 :
  sameTopology m1 m2 → sameTopology m2 m3 → sameTopology m1 m3.
Proof. intros [H1 H2] [H3 H4]. split; [congruence|]. intros p. by rewrite H2. Qed.

Lemma sameTopology_sym m1 m2 : sameTopology m1 m2 → sameTopology m2 m1.
Proof. intros [H1 H2]. split; [done|]. intros p. by rewrite H2. Qed.

Lemma sameTopology_writeActive p v m : sameTopology m (writeActive p v m).
Proof.
  split; [done|]. intros q. rewrite deref_writeActive.
  destruct (decide (p = q)) as [->|]; [|done]. by rewrite shape_setActive.
Qed.

Lemma sameTopology_say l m : sameTopology m (say l m).
Proof. done. Qed.

Lemma sameTopology_setEvents q m : sameTopology m (setEvents q m).
Proof. done. Qed.

Lemma sameTopology_setIsActive b m : sameTopology m (setIsActive b m).
Proof. done. Qed.

Lemma sameTopology_setInToplevelProcess b m :
  sameTopology m (setInToplevelProcess b m).
Proof. done. Qed.

Lemma sameTopology_initialsChecked m m' :
  sameTopology m m' → initialsChecked m → initialsChecked m'.
Proof.
  intros [_ H] Hok p. specialize (Hok p). specialize (H p).
  apply shape_fields in H as (_ & _ & Hp & Hi & Hc & _).
  unfold hasInitial in *. rewrite <- Hp, <- Hi, <- Hc. done.
Qed.

(** ** The queries never throw *)

Create HintDb noraise.

Lemma noRaise_Done {A} (a : A) : noRaise (Done a).
Proof. done. Qed.

Lemma noRaise_Timeout {A} : noRaise (@Timeout A).
Proof. done. Qed.

Lemma noRaise_bind {A B} (c : result A) (f : A → result B) :
  noRaise c → (∀ a, noRaise (f a)) → noRaise (c ≫= f).
Proof. destruct c; simpl; auto. Qed.

Lemma noRaise_forEach {A S} (body : A → S → result S) l s :
  (∀ a s, noRaise (body a s)) → noRaise (forEach body l s).
Proof.
  intros Hb. revert s. induction l as [|a l IH]; intros s; simpl; [done|].
  apply noRaise_bind; auto.
Qed.

#[local] Hint Resolve noRaise_Done noRaise_Timeout : noraise.

Ltac noraise_step :=
  match goal with
  | |- True => exact Logic.I
  | |- noRaise (Done _) => exact Logic.I
  | |- noRaise Timeout => exact Logic.I
  | |- noRaise (_ ≫= _) => apply noRaise_bind; [|intros]
  | |- noRaise (forEach _ _ _) => apply noRaise_forEach; intros
  | |- noRaise (match ?x with _ => _ end) => destruct x
  | |- noRaise (if ?x then _ else _) => destruct x
  | |- noRaise (let '(_, _) := ?x in _) => destruct x
  | |- noRaise _ => solve [auto with noraise]
  end.

Ltac noraise := repeat (simpl; noraise_step).

Lemma isActive_noRaise n m p : noRaise (isActive n m p).
Proof. revert p. induction n; intros; noraise. Qed.
#[local] Hint Resolve isActive_noRaise : noraise.

Lemma isDescendant_noRaise n m a b : noRaise (isDescendant n m a b).
Proof. revert a. induction n; intros; destruct a; noraise. Qed.
#[local] Hint Resolve isDescendant_noRaise : noraise.

Lemma parentChain_noRaise n m a : noRaise (parentChain n m a).
Proof. revert a. induction n; intros; destruct a; noraise. Qed.
#[local] Hint Resolve parentChain_noRaise : noraise.

Lemma firstAncestorOf_noRaise n m r l : noRaise (firstAncestorOf n m r l).
Proof. induction l; noraise. Qed.
#[local] Hint Resolve firstAncestorOf_noRaise : noraise.

Lemma findLeastCommonAncestor_noRaise n m a b :
  noRaise (findLeastCommonAncestor n m a b).
Proof. unfold findLeastCommonAncestor. noraise. Qed.
#[local] Hint Resolve findLeastCommonAncestor_noRaise : noraise.

Lemma exitChildren_noRaise n m cs f l : noRaise (exitChildren n m cs f l).
Proof. revert f l. induction cs; intros; noraise. Qed.
#[local] Hint Resolve exitChildren_noRaise : noraise.

Lemma exitLoop_noRaise k n m f l : noRaise (exitLoop k n m f l).
Proof. revert f l. induction k; intros; destruct f; noraise. Qed.
#[local] Hint Resolve exitLoop_noRaise : noraise.

Lemma listExitStates_noRaise n m t : noRaise (listExitStates n m t).
Proof. unfold listExitStates. noraise. Qed.
#[local] Hint Resolve listExitStates_noRaise : noraise.

Lemma completionLoop_noRaise k m f l : noRaise (completionLoop k m f l).
Proof. revert f l. induction k; intros; destruct f; noraise. Qed.
#[local] Hint Resolve completionLoop_noRaise : noraise.

Lemma ancestorsLoop_noRaise k n m a l : noRaise (ancestorsLoop k n m a l).
Proof. revert a l. induction k; intros; destruct a; noraise. Qed.
#[local] Hint Resolve ancestorsLoop_noRaise : noraise.

Lemma parallelPass_noRaise k m z : noRaise (parallelPass k m z).
Proof. revert z. induction k; intros [b [|x r]]; noraise. Qed.
#[local] Hint Resolve parallelPass_noRaise : noraise.

Lemma listEntryStates_noRaise n m p : noRaise (listEntryStates n m p).
Proof. unfold listEntryStates. noraise. Qed.
#[local] Hint Resolve listEntryStates_noRaise : noraise.

Lemma walkUp_noRaise k m e p l : noRaise (walkUp k m e p l).
Proof. revert p l. induction k; intros; destruct p; noraise. Qed.
#[local] Hint Resolve walkUp_noRaise : noraise.

Lemma atomicAndActive_noRaise n m p : noRaise (atomicAndActive n m p).
Proof. unfold atomicAndActive. noraise. Qed.
#[local] Hint Resolve atomicAndActive_noRaise : noraise.

Lemma lookupNextValidState_noRaise k n m l : noRaise (lookupNextValidState k n m l).
Proof. revert l. induction k; intros; destruct l; noraise. Qed.
#[local] Hint Resolve lookupNextValidState_noRaise : noraise.

Lemma collectAtomics_noRaise k n m l a : noRaise (collectAtomics k n m l a).
Proof. revert l a. induction k; intros; destruct l; noraise. Qed.
#[local] Hint Resolve collectAtomics_noRaise : noraise.

Lemma selectTransitions_noRaise n m e : noRaise (selectTransitions n m e).
Proof. unfold selectTransitions. noraise. Qed.
#[local] Hint Resolve selectTransitions_noRaise : noraise.

Lemma checkAgainst_noRaise n m t x f i r : noRaise (checkAgainst n m t x f i r).
Proof. revert i r. induction f; intros; noraise. Qed.
#[local] Hint Resolve checkAgainst_noRaise : noraise.

Lemma removeLoop_noRaise n m ts f i : noRaise (removeLoop n m ts f i).
Proof. revert f i. induction ts; intros; noraise. Qed.
#[local] Hint Resolve removeLoop_noRaise : noraise.

Lemma removeConflicts_noRaise n m ts : noRaise (removeConflicts n m ts).
Proof. unfold removeConflicts. noraise. Qed.
#[local] Hint Resolve removeConflicts_noRaise : noraise.

Lemma leaveLoop_noRaise k n m l a : noRaise (leaveLoop k n m l a).
Proof. revert l a. induction k; intros; destruct l; noraise. Qed.
#[local] Hint Resolve leaveLoop_noRaise : noraise.

Lemma gatherExits_noRaise n m ts : noRaise (gatherExits n m ts).
Proof. unfold gatherExits. noraise. Qed.
#[local] Hint Resolve gatherExits_noRaise : noraise.

Lemma gatherEntries_noRaise n m ts : noRaise (gatherEntries n m ts).
Proof. unfold gatherEntries. noraise. Qed.
#[local] Hint Resolve gatherEntries_noRaise : noraise.

Lemma inState_noRaise n m name : noRaise (inState n m name).
Proof. unfold inState. noraise. Qed.

(** ** Triples for the engine, for any invariant the primitives keep *)

Lemma triple_bind_pure {A} (P Q : StateMachine → Prop) (c : StateMachine → result A) f :
  (∀ m, noRaise (c m)) → (∀ a, triple P (f a) Q) →
  triple P (λ m, c m ≫= λ a, f a m) Q.
Proof.
  intros Hc Hf m Hm. specialize (Hc m).
  destruct (c m) as [a| |]; simpl; [|done..]. by apply Hf.
Qed.

Section EngineTriples.

Variable pe : string → StateMachine → result StateMachine.
Variable Inv : StateMachine → Prop.
Hypothesis Inv_checked : ∀ m, Inv m → initialsChecked m.
Hypothesis Inv_writeActive :
  ∀ p v m, Inv m → pointedAt m p → Inv (writeActive p v m).
Hypothesis Inv_say : ∀ l m, Inv m → Inv (say l m).
Hypothesis Inv_setIsActive : ∀ b m, Inv m → Inv (setIsActive b m).
Hypothesis Inv_pe : ∀ e, triple Inv (pe e) Inv.

Lemma triple_runCmd c : triple Inv (runCmd pe c) Inv.
Proof. destruct c; simpl; [|apply Inv_pe]. intros m Hm. by apply Inv_say. Qed.

Lemma triple_runCallback cb : triple Inv (runCallback pe cb) Inv.
Proof. apply triple_forEach. intros. apply triple_runCmd. Qed.

Lemma triple_runCallbacks cbs : triple Inv (forEach (runCallback pe) cbs) Inv.
Proof. apply triple_forEach. intros. apply triple_runCallback. Qed.

Lemma triple_StateImpl_enter p : triple Inv (StateImpl_enter pe p) Inv.
Proof.
  intros m Hm. unfold StateImpl_enter.
  pose proof (Inv_checked m Hm p) as Hok. unfold hasInitial in Hok.
  set (s := deref m p) in *.
  assert (∃ m1, (if mIsParallel s then Done m
                 else match mInitial s with
                      | Some i => Done (writeActive p (Some i) m)
                      | None => if isAtomic s then Done m
                                else Raise (NoInitialState (mName s))
                      end) = Done m1 ∧ Inv m1 ∧
                mParent (deref m1 p) = mParent s) as (m1 & -> & Hm1 & Hp).
  { destruct (mIsParallel s); [eauto|].
    destruct (mInitial s) as [i|] eqn:Hi.
    - eexists. split; [done|]. split.
      + apply Inv_writeActive; [done|]. left. fold s. by rewrite Hi.
      + by rewrite deref_writeActive, decide_True.
    - unfold isAtomic. destruct (mChildren s); [eauto|].
      exfalso. by apply Hok. }
  simpl. apply triple_runCallbacks.
  destruct (mParent s) as [q|]; [|done].
  destruct (mIsParallel (deref m1 q)); [done|].
  apply Inv_writeActive; [done|]. right. by exists p.
Qed.

Lemma triple_StateImpl_leave p : triple Inv (StateImpl_leave pe p) Inv.
Proof.
  intros m Hm. unfold StateImpl_leave. apply triple_runCallbacks.
  destruct (mParent (deref m p)) as [q|] eqn:Hq; [|done].
  destruct (mIsParallel (deref m q)); [done|].
  apply Inv_writeActive; [done|]. right. by exists p.
Qed.

Lemma triple_doAction t : triple Inv (doAction pe t) Inv.
Proof.
  unfold doAction. destruct (mAction t); [apply triple_runCallback|apply triple_Done].
Qed.

Lemma triple_exitStates n ts : triple Inv (exitStates pe n ts) Inv.
Proof.
  unfold exitStates.
  apply (triple_bind_pure Inv Inv (λ m, gatherExits n m ts)
           (λ l m, forEach (StateImpl_leave pe) l m)).
  - intros. apply gatherExits_noRaise.
  - intros l. apply triple_forEach. intros. apply triple_StateImpl_leave.
Qed.

Lemma triple_enterStates n ts : triple Inv (enterStates pe n ts) Inv.
Proof.
  unfold enterStates.
  apply (triple_bind_pure Inv Inv (λ m, gatherEntries n m ts)
           (λ l m, forEach (StateImpl_enter pe) l m)).
  - intros. apply gatherEntries_noRaise.
  - intros l. apply triple_forEach. intros. apply triple_StateImpl_enter.
Qed.

Lemma triple_processTransitions n e : triple Inv (processTransitions pe n e) Inv.
Proof.
  unfold processTransitions.
  apply (triple_bind_pure Inv Inv (λ m, selectTransitions n m e)).
  { intros. apply selectTransitions_noRaise. }
  intros ts.
  apply (triple_bind_pure Inv Inv (λ m, removeConflicts n m ts)).
  { intros. apply removeConflicts_noRaise. }
  intros f.
  apply triple_bind with Inv; [apply triple_exitStates|].
  apply triple_bind with Inv; [|apply triple_enterStates].
  apply triple_forEach. intros. apply triple_doAction.
Qed.

Lemma triple_enterLoop k l : triple Inv (enterLoop pe k l) Inv.
Proof.
  revert l. induction k as [|k IH]; intros [|p l] m Hm; simpl; try done.
  pose proof (triple_StateImpl_enter p m Hm) as H.
  destruct (StateImpl_enter pe p m) as [m1| |]; simpl; [|done..].
  destruct (negb _); [destruct (mInitial _)|]; by apply IH.
Qed.

Lemma triple_enter' n : triple Inv (enter' pe n) Inv.
Proof.
  intros m Hm. unfold enter'. destruct (mIsActive m); [done|].
  apply triple_enterLoop. by apply Inv_setIsActive.
Qed.

Lemma triple_leave' n : triple Inv (leave' pe n) Inv.
Proof.
  intros m Hm. unfold leave'. destruct (negb _); [done|].
  pose proof (leaveLoop_noRaise n n m [mImpl m] []) as Hl.
  destruct (leaveLoop n n m [mImpl m] []) as [l| |]; simpl; [|done..].
  assert (triple Inv (forEach (StateImpl_leave pe) l) Inv) as H.
  { apply triple_forEach. intros. apply triple_StateImpl_leave. }
  specialize (H m Hm).
  destruct (forEach _ l m); simpl; [|done..]. by apply Inv_setIsActive.
Qed.

End EngineTriples.

(** ** The event loop *)

Lemma pushEvent_inFrame n e m :
  mInToplevelProcess m = true →
  pushEvent (S n) e m = Done (setEvents (mEvents m ++ [e]) m).
Proof. intros H. simpl. unfold processEvents. simpl. by rewrite H. Qed.

Section FixedTree.

Variable m0 : StateMachine.
Hypothesis m0_checked : initialsChecked m0.

Lemma inFrame_checked m : inFrame m0 m → initialsChecked m.
Proof. intros [H _]. by apply (sameTopology_initialsChecked m0). Qed.

Lemma atRest_checked m : atRest m0 m → initialsChecked m.
Proof. intros [H _]. by apply (sameTopology_initialsChecked m0). Qed.

Lemma inFrame_writeActive p v m : inFrame m0 m → inFrame m0 (writeActive p v m).
Proof.
  intros [H1 H2]. split; [|done].
  eapply sameTopology_trans; [done|apply sameTopology_writeActive].
Qed.

Lemma atRest_writeActive p v m : atRest m0 m → atRest m0 (writeActive p v m).
Proof.
  intros [H1 H2]. split; [|done].
  eapply sameTopology_trans; [done|apply sameTopology_writeActive].
Qed.

Lemma triple_pushEvent_inFrame n e : triple (inFrame m0) (pushEvent n e) (inFrame m0).
Proof.
  intros m [H1 H2]. destruct n; [done|]. rewrite pushEvent_inFrame by done.
  split; [|done]. eapply sameTopology_trans; [done|apply sameTopology_setEvents].
Qed.

Lemma triple_processTransitions_inFrame n' n e :
  triple (inFrame m0) (processTransitions (pushEvent n') n e) (inFrame m0).
Proof.
  apply triple_processTransitions.
  - apply inFrame_checked.
  - intros p v m Hm _. by apply inFrame_writeActive.
  - by intros l m [H1 H2].
  - intros. apply triple_pushEvent_inFrame.
Qed.

Lemma triple_processLoop n' k n :
  triple (inFrame m0) (processLoop (pushEvent n') k n)
    (λ m, inFrame m0 m ∧ mEvents m = []).
Proof.
  induction k as [|k IH]; intros m Hm; simpl.
  - destruct (mEvents m) eqn:Hq; [by split|done].
  - destruct (mEvents m) as [|e q] eqn:Hq; [by split|].
    pose proof (triple_processTransitions_inFrame n' n e m Hm) as H.
    destruct (processTransitions _ n e m) as [m1| |]; simpl; [|done..].
    apply IH. destruct H as [H1 H2]. split; [|done].
    eapply sameTopology_trans; [done|apply sameTopology_setEvents].
Qed.

Lemma triple_processEvents n' n :
  triple (λ m, sameTopology m0 m ∧ mInToplevelProcess m = false)
    (processEvents (pushEvent n') n) (atRest m0).
Proof.
  intros m [H1 H2]. unfold processEvents. rewrite H2.
  assert (inFrame m0 (setInToplevelProcess true m)) as Hin.
  { split; [|done].
    eapply sameTopology_trans; [done|apply sameTopology_setInToplevelProcess]. }
  pose proof (triple_processLoop n' n n _ Hin) as H.
  destruct (processLoop _ n n _) as [m1| |]; simpl; [|done..].
  destruct H as [[H3 H4] H5]. split; [|done].
  eapply sameTopology_trans; [done|apply sameTopology_setInToplevelProcess].
Qed.

Lemma triple_pushEvent n e :
  triple (λ m, sameTopology m0 m ∧ mInToplevelProcess m = false)
    (pushEvent n e) (atRest m0).
Proof.
  intros m [H1 H2]. destruct n as [|n]; [done|]. simpl.
  apply triple_processEvents. split; [|done].
  eapply sameTopology_trans; [done|apply sameTopology_setEvents].
Qed.

Lemma triple_pushEvent_atRest n e : triple (atRest m0) (pushEvent n e) (atRest m0).
Proof. intros m [H1 [H2 H3]]. by apply triple_pushEvent. Qed.

Lemma triple_enter n : triple (atRest m0) (enter n) (atRest m0).
Proof.
  apply triple_enter'.
  - apply atRest_checked.
  - intros p' v m Hm _. by apply atRest_writeActive.
  - by intros l m [H1 H2].
  - by intros b m [H1 H2].
  - intros. apply triple_pushEvent_atRest.
Qed.

Lemma triple_leave n : triple (atRest m0) (leave n) (atRest m0).
Proof.
  apply triple_leave'.
  - intros p' v m Hm _. by apply atRest_writeActive.
  - by intros l m [H1 H2].
  - by intros b m [H1 H2].
  - intros. apply triple_pushEvent_atRest.
Qed.

Lemma triple_call n c : triple (atRest m0) (call n c) (atRest m0).
Proof.
  destruct c; simpl;
    [apply triple_enter | apply triple_leave | apply triple_pushEvent_atRest].
Qed.

Lemma triple_calls n cs : triple (atRest m0) (calls n cs) (atRest m0).
Proof. apply triple_forEach. intros. apply triple_call. Qed.

End FixedTree.

(** ** What construction guarantees *)

Lemma hasInitial_new : hasInitial StateImpl_new.
Proof. by intros _ H. Qed.

Lemma allocLoop_hasInitial k q st st' :
  map_Forall (λ _ s, hasInitial s) st → allocLoop k q st = Done st' →
  map_Forall (λ _ s, hasInitial s) st'.
Proof.
  revert q st. induction k as [|k IH]; intros [|d q] st Hst; simpl;
    try congruence; try by intros [= <-].
  destruct (st !! sdName d); [done|]. apply IH.
  apply map_Forall_insert_2; [apply hasInitial_new|done].
Qed.

Lemma StateImpl_build_hasInitial parent d st st' :
  map_Forall (λ _ s, hasInitial s) st → StateImpl_build parent d st = Done st' →
  map_Forall (λ _ s, hasInitial s) st'.
Proof.
  intros Hst. unfold StateImpl_build.
  destruct (linkChildren _ _ _ _) as [[children initial]| |]; simpl; [|done..].
  destruct (negb (sdIsParallel d) && negb (bool_decide (children = []))
            && bool_decide (initial = None)) eqn:Hc; [done|].
  destruct (buildTransitions _ _ _ _) as [ts| |]; simpl; [|done..].
  intros [= <-]. apply map_Forall_insert_2; [|done].
  intros Hp Hch Hi; simpl in *. subst.
  rewrite Hp in Hc. simpl in Hc.
  rewrite bool_decide_eq_false_2 in Hc by done. done.
Qed.

Lemma buildLoop_hasInitial k q st st' :
  map_Forall (λ _ s, hasInitial s) st → buildLoop k q st = Done st' →
  map_Forall (λ _ s, hasInitial s) st'.
Proof.
  revert q st. induction k as [|k IH]; intros [|[parent d] q] st Hst; simpl;
    try congruence; try by intros [= <-].
  destruct (StateImpl_build parent d st) as [st1| |] eqn:Hb; simpl; [|done..].
  apply IH. by eapply StateImpl_build_hasInitial.
Qed.

Lemma StateMachine_new_atRest n params m0 :
  StateMachine_new n params = Done m0 → initialsChecked m0 ∧ atRest m0 m0.
Proof.
  unfold StateMachine_new. intros H.
  apply bind_Done in H as (st & Ha & H).
  apply bind_Done in H as (st' & Hb & [= <-]).
  split; [|by split].
  intros p. unfold deref; simpl.
  destruct (st' !! p) as [s|] eqn:Hs; simpl; [|apply hasInitial_new].
  eapply (buildLoop_hasInitial _ _ st st'); [|done..].
  eapply allocLoop_hasInitial; [|done]. apply map_Forall_empty.
Qed.

(** C10: once [StateMachine_new] has returned a machine, no sequence of
    [enter()], [leave()] and [pushEvent()] calls raises an exception (in
    particular the [NoInitialState] of [StateImpl::enter] is not reached),
    whatever the fuel, and [inState] raises none on the machine reached. *)
Theorem no_exception_after_construction n0 params m0 :
  StateMachine_new n0 params = Done m0 →
  ∀ n cs, match calls n cs m0 with
          | Raise _ => False
          | Timeout => True
          | Done m => ∀ k name, noRaise (inState k m name)
          end.
Proof.
  intros Hnew n cs.
  apply StateMachine_new_atRest in Hnew as [Hok Hrest].
  pose proof (triple_calls m0 Hok n cs m0 Hrest) as H.
  destruct (calls n cs m0); [|done..].
  intros. apply inState_noRaise.
Qed.

Lemma no_exception_after_construction_witness :
  ∃ m0, StateMachine_new 12 Scenario.ChildOnEntry = Done m0 ∧
    match calls 12 [CallEnter; CallPushEvent "x"; CallLeave] m0 with
    | Raise _ => False
    | Timeout => True
    | Done m => ∀ k name, noRaise (inState k m name)
    end.
Proof.
  destruct (StateMachine_new 12 Scenario.ChildOnEntry) as [m0| |] eqn:Hnew;
    [|by vm_compute in Hnew..].
  exists m0. split; [done|].
  apply (no_exception_after_construction 12 _ m0 Hnew).
Defined.

(** ** Callbacks inside the event loop *)

#[local] Arguments pushEvent : simpl never.
#[local] Arguments runCmd : simpl never.
#[local] Arguments runCallback : simpl never.
#[local] Arguments StateImpl_enter : simpl never.
#[local] Arguments StateImpl_leave : simpl never.
#[local] Arguments doAction : simpl never.

Lemma says_app a b : says (a ++ b) = says a ++ says b.
Proof. apply flat_map_app. Qed.

Lemma pushes_app a b : pushes (a ++ b) = pushes a ++ pushes b.
Proof. apply flat_map_app. Qed.

Lemma told_refl m : told m [] m.
Proof. unfold told; simpl. by rewrite !app_nil_r. Qed.

Lemma told_trans m1 m2 m3 a b : told m1 a m2 → told m2 b m3 → told m1 (a ++ b) m3.
Proof.
  intros (H1 & H2 & H3 & H4 & H5) (G1 & G2 & G3 & G4 & G5).
  unfold told. rewrite says_app, pushes_app, !app_assoc, <- H1, <- H2.
  split; [done|]. split; [done|].
  split; [by eapply sameTopology_trans|]. split; congruence.
Qed.

Lemma told_store m m' :
  hostLog m' = hostLog m → mEvents m' = mEvents m → sameTopology m m' →
  mInToplevelProcess m' = mInToplevelProcess m → mIsActive m' = mIsActive m →
  told m [] m'.
Proof. intros. unfold told; simpl. by rewrite !app_nil_r. Qed.

Lemma told_writeActive p v m : told m [] (writeActive p v m).
Proof. apply told_store; try done. apply sameTopology_writeActive. Qed.

Lemma exitCmds_one m p : exitCmds m [p] = concat (mOnExitActions (deref m p)).
Proof. unfold exitCmds. simpl. apply app_nil_r. Qed.

Lemma entryCmds_one m p : entryCmds m [p] = concat (mOnEntryActions (deref m p)).
Proof. unfold entryCmds. simpl. apply app_nil_r. Qed.

Section InFrame.

Variable j : nat.

Lemma runCmd_inFrame c m :
  mInToplevelProcess m = true →
  ∃ m', runCmd (pushEvent (S j)) c m = Done m' ∧ told m [c] m'.
Proof.
  intros Hf. destruct c as [l|e]; unfold runCmd.
  - eexists. split; [done|]. unfold told; simpl. by rewrite !app_nil_r.
  - rewrite pushEvent_inFrame by done. eexists. split; [done|].
    unfold told; simpl. by rewrite !app_nil_r.
Qed.

Lemma runCallback_inFrame cb m :
  mInToplevelProcess m = true →
  ∃ m', runCallback (pushEvent (S j)) cb m = Done m' ∧ told m cb m'.
Proof.
  unfold runCallback. revert m. induction cb as [|c cb IH]; intros m Hf; simpl.
  - eexists. split; [done|apply told_refl].
  - destruct (runCmd_inFrame c m Hf) as (m1 & -> & H1). simpl.
    destruct (IH m1) as (m2 & -> & H2).
    { destruct H1 as (_ & _ & _ & -> & _). done. }
    eexists. split; [done|]. apply (told_trans _ _ _ [c] cb H1 H2).
Qed.

Lemma runCallbacks_inFrame cbs m :
  mInToplevelProcess m = true →
  ∃ m', forEach (runCallback (pushEvent (S j))) cbs m = Done m' ∧
        told m (concat cbs) m'.
Proof.
  revert m. induction cbs as [|cb cbs IH]; intros m Hf; simpl.
  - eexists. split; [done|apply told_refl].
  - destruct (runCallback_inFrame cb m Hf) as (m1 & -> & H1). simpl.
    destruct (IH m1) as (m2 & -> & H2).
    { destruct H1 as (_ & _ & _ & -> & _). done. }
    eexists. split; [done|]. by eapply told_trans.
Qed.

Lemma told_frame m cmds m' :
  told m cmds m' → mInToplevelProcess m = true → mInToplevelProcess m' = true.
Proof. intros (_ & _ & _ & -> & _). done. Qed.

Lemma told_exitActions m cmds m' p :
  told m cmds m' → mOnExitActions (deref m' p) = mOnExitActions (deref m p).
Proof.
  intros (_ & _ & [_ H] & _). specialize (H p).
  apply shape_fields in H. symmetry. apply H.
Qed.

Lemma told_entryActions m cmds m' p :
  told m cmds m' → mOnEntryActions (deref m' p) = mOnEntryActions (deref m p).
Proof.
  intros (_ & _ & [_ H] & _). specialize (H p).
  apply shape_fields in H. symmetry. apply H.
Qed.

Lemma StateImpl_leave_inFrame p m :
  mInToplevelProcess m = true →
  ∃ m', StateImpl_leave (pushEvent (S j)) p m = Done m' ∧ told m (exitCmds m [p]) m'.
Proof.
  intros Hf. unfold StateImpl_leave, exitCmds. simpl flat_map. rewrite app_nil_r.
  set (m1 := match mParent (deref m p) with
             | Some q => if mIsParallel (deref m q) then m else writeActive q None m
             | None => m
             end).
  assert (told m [] m1) as H1.
  { unfold m1. destruct (mParent _) as [q|]; [|apply told_refl].
    destruct (mIsParallel (deref m q)); [apply told_refl|apply told_writeActive]. }
  destruct (runCallbacks_inFrame (mOnExitActions (deref m p)) m1) as (m2 & -> & H2).
  { by eapply told_frame. }
  eexists. split; [done|]. apply (told_trans _ _ _ [] _ H1 H2).
Qed.

Lemma StateImpl_enter_inFrame p m m' :
  mInToplevelProcess m = true →
  StateImpl_enter (pushEvent (S j)) p m = Done m' → told m (entryCmds m [p]) m'.
Proof.
  intros Hf. unfold StateImpl_enter, entryCmds. simpl flat_map. rewrite app_nil_r.
  set (s := deref m p).
  intros H. apply bind_Done in H as (m1 & H1 & H).
  assert (told m [] m1) as T1.
  { destruct (mIsParallel s); [injection H1 as <-; apply told_refl|].
    destruct (mInitial s); [injection H1 as <-; apply told_writeActive|].
    destruct (isAtomic s); [injection H1 as <-; apply told_refl|done]. }
  set (m2 := match mParent s with
             | Some q => if mIsParallel (deref m1 q) then m1 else writeActive q (Some p) m1
             | None => m1
             end) in H.
  assert (told m1 [] m2) as T2.
  { unfold m2. destruct (mParent s) as [q|]; [|apply told_refl].
    destruct (mIsParallel (deref m1 q)); [apply told_refl|apply told_writeActive]. }
  destruct (runCallbacks_inFrame (mOnEntryActions s) m2) as (m3 & E & T3).
  { eapply told_frame; [done|]. by eapply told_frame. }
  rewrite E in H. injection H as <-.
  apply (told_trans _ _ _ [] _ T1). apply (told_trans _ _ _ [] _ T2 T3).
Qed.

Lemma leaves_inFrame l m :
  mInToplevelProcess m = true →
  ∃ m', forEach (StateImpl_leave (pushEvent (S j))) l m = Done m' ∧
        told m (exitCmds m l) m'.
Proof.
  revert m. induction l as [|p l IH]; intros m Hf; simpl.
  - eexists. split; [done|apply told_refl].
  - destruct (StateImpl_leave_inFrame p m Hf) as (m1 & -> & H1). simpl.
    destruct (IH m1) as (m2 & -> & H2); [by eapply told_frame|].
    eexists. split; [done|].
    rewrite exitCmds_one in H1.
    change (exitCmds m (p :: l))
      with (concat (mOnExitActions (deref m p)) ++ exitCmds m l).
    apply (told_trans _ _ _ _ _ H1).
    replace (exitCmds m l) with (exitCmds m1 l); [done|].
    unfold exitCmds. apply flat_map_ext. intros q. f_equal.
    by eapply told_exitActions.
Qed.

Lemma enters_inFrame l m m' :
  mInToplevelProcess m = true →
  forEach (StateImpl_enter (pushEvent (S j))) l m = Done m' →
  told m (entryCmds m l) m'.
Proof.
  revert m. induction l as [|p l IH]; intros m Hf; simpl.
  - intros [= <-]. apply told_refl.
  - intros H. apply bind_Done in H as (m1 & H1 & H).
    apply StateImpl_enter_inFrame in H1; [|done].
    apply IH in H; [|by eapply told_frame].
    rewrite entryCmds_one in H1.
    change (entryCmds m (p :: l))
      with (concat (mOnEntryActions (deref m p)) ++ entryCmds m l).
    apply (told_trans _ _ _ _ _ H1).
    replace (entryCmds m l) with (entryCmds m1 l); [done|].
    unfold entryCmds. apply flat_map_ext. intros q. f_equal.
    by eapply told_entryActions.
Qed.

Lemma actions_inFrame ts m :
  mInToplevelProcess m = true →
  ∃ m', forEach (doAction (pushEvent (S j))) ts m = Done m' ∧
        told m (actionCmds ts) m'.
Proof.
  revert m. induction ts as [|t ts IH]; intros m Hf; simpl.
  - eexists. split; [done|apply told_refl].
  - assert (∃ m1, doAction (pushEvent (S j)) t m = Done m1 ∧
                  told m (default [] (mAction t)) m1) as (m1 & -> & H1).
    { unfold doAction. destruct (mAction t) as [cb|]; simpl.
      - by apply runCallback_inFrame.
      - eexists. split; [done|apply told_refl]. }
    simpl. destruct (IH m1) as (m2 & -> & H2); [by eapply told_frame|].
    eexists. split; [done|].
    change (actionCmds (t :: ts)) with (default [] (mAction t) ++ actionCmds ts).
    by eapply told_trans.
Qed.

End InFrame.

(** ** Run to completion *)

Lemma processTransitions_phases j n pEvent m m' :
  mInToplevelProcess m = true →
  processTransitions (pushEvent (S j)) n pEvent m = Done m' →
  ∃ lFiltered lToExit m1 m2 lToEnter,
    selectTransitions n m pEvent ≫= removeConflicts n m = Done lFiltered ∧
    gatherExits n m lFiltered = Done lToExit ∧
    told m (exitCmds m lToExit) m1 ∧
    told m1 (actionCmds lFiltered) m2 ∧
    gatherEntries n m2 lFiltered = Done lToEnter ∧
    told m2 (entryCmds m lToEnter) m'.
Proof.
  intros Hf H. unfold processTransitions in H.
  apply bind_Done in H as (ts & Hs & H).
  apply bind_Done in H as (lFiltered & Hr & H).
  apply bind_Done in H as (m1 & Hx & H).
  apply bind_Done in H as (m2 & Ha & He).
  unfold exitStates in Hx. apply bind_Done in Hx as (lToExit & Hge & Hx).
  unfold enterStates in He. apply bind_Done in He as (lToEnter & Hgn & He).
  destruct (leaves_inFrame j lToExit m Hf) as (m1' & E1 & T1).
  rewrite E1 in Hx. injection Hx as ->.
  pose proof (told_frame _ _ _ T1 Hf) as Hf1.
  destruct (actions_inFrame j lFiltered m1 Hf1) as (m2' & E2 & T2).
  rewrite E2 in Ha. injection Ha as ->.
  pose proof (told_frame _ _ _ T2 Hf1) as Hf2.
  apply enters_inFrame in He; [|done].
  exists lFiltered, lToExit, m1, m2, lToEnter.
  rewrite Hs. simpl. repeat (split; [done|]).
  replace (entryCmds m lToEnter) with (entryCmds m2 lToEnter); [done|].
  unfold entryCmds. apply flat_map_ext. intros q. f_equal.
  rewrite (told_entryActions _ _ _ q T2). by rewrite (told_entryActions _ _ _ q T1).
Qed.

(** X20: run to completion inside the event loop.  (1) While the event
    loop runs, that is while [mInToplevelProcess] is set, a [pushEvent]
    made by a callback only appends the event to the queue.  (2) A
    microstep run by the loop consists of three phases: the exit callbacks of the states left, then the
    actions of the transitions kept, then the entry callbacks of the states
    entered; the log grows by their labels and the queue by their events,
    in that order.  (3) The loop takes the event at the head of the queue,
    the events pushed during its microstep wait behind those already
    queued, and the loop goes on with the next one only when the microstep
    has returned.  (4) A [pushEvent] of the host sets the flag for the
    whole loop and clears it afterwards. *)
Theorem run_to_completion :
  (∀ n e m, mInToplevelProcess m = true →
     pushEvent (S n) e m = Done (setEvents (mEvents m ++ [e]) m)) ∧
  (∀ j n e m m',
     mInToplevelProcess m = true →
     processTransitions (pushEvent (S j)) n e m = Done m' →
     ∃ lFiltered lToExit m1 m2 lToEnter,
       selectTransitions n m e ≫= removeConflicts n m = Done lFiltered ∧
       gatherExits n m lFiltered = Done lToExit ∧
       gatherEntries n m2 lFiltered = Done lToEnter ∧
       told m (exitCmds m lToExit) m1 ∧
       told m1 (actionCmds lFiltered) m2 ∧
       told m2 (entryCmds m lToEnter) m' ∧
       hostLog m' = hostLog m ++ says (exitCmds m lToExit)
                      ++ says (actionCmds lFiltered) ++ says (entryCmds m lToEnter) ∧
       mEvents m' = mEvents m ++ pushes (exitCmds m lToExit)
                      ++ pushes (actionCmds lFiltered) ++ pushes (entryCmds m lToEnter)) ∧
  (∀ j k n e q m m',
     mInToplevelProcess m = true → mEvents m = e :: q →
     processTransitions (pushEvent (S j)) n e m = Done m' →
     ∃ pushed, mEvents m' = e :: q ++ pushed ∧
       processLoop (pushEvent (S j)) (S k) n m =
       processLoop (pushEvent (S j)) k n (setEvents (q ++ pushed) m')) ∧
  (∀ n e m, mInToplevelProcess m = false →
     pushEvent (S n) e m =
     processLoop (pushEvent n) n n
       (setInToplevelProcess true (setEvents (mEvents m ++ [e]) m))
     ≫= λ m1, Done (setInToplevelProcess false m1)).
Proof.
  split; [apply pushEvent_inFrame|]. split; [|split].
  - intros j n e m m' Hf H.
    destruct (processTransitions_phases j n e m m' Hf H)
      as (lFiltered & lToExit & m1 & m2 & lToEnter & H1 & H2 & T1 & T2 & H3 & T3).
    exists lFiltered, lToExit, m1, m2, lToEnter.
    repeat (split; [done|]).
    destruct T1 as (L1 & Q1 & _), T2 as (L2 & Q2 & _), T3 as (L3 & Q3 & _).
    rewrite L3, L2, L1, Q3, Q2, Q1, !app_assoc. done.
  - intros j k n e q m m' Hf Hq H.
    destruct (processTransitions_phases j n e m m' Hf H)
      as (lFiltered & lToExit & m1 & m2 & lToEnter & H1 & H2 & T1 & T2 & H3 & T3).
    destruct T1 as (_ & Q1 & _), T2 as (_ & Q2 & _), T3 as (_ & Q3 & _).
    exists (pushes (exitCmds m lToExit) ++ pushes (actionCmds lFiltered)
            ++ pushes (entryCmds m lToEnter)).
    assert (mEvents m' = e :: q ++ pushes (exitCmds m lToExit)
              ++ pushes (actionCmds lFiltered) ++ pushes (entryCmds m lToEnter)) as E.
    { rewrite Q3, Q2, Q1, Hq. simpl. by rewrite !app_assoc. }
    split; [done|]. simpl. rewrite Hq, H. simpl. by rewrite E.
  - intros n e m Hf. unfold pushEvent at 1. fold pushEvent.
    unfold processEvents. simpl. by rewrite Hf.
Qed.

(** C7: a [pushEvent] made by a callback that [enter()] runs does not only
    enqueue.  The root of [Scenario.PushOnEntry] pushes "e" from its entry
    callback; no event loop runs then, so the microstep of "e" runs at
    once, inside the callback and inside [enter()]: S1 is exited, S2 and
    S2A are entered, and only then [enter()] goes on and enters S1.  When
    [enter()] returns the queue is empty. *)
Theorem entry_callback_push_is_served_inside_enter :
  (m ← session 12 Scenario.PushOnEntry [CallEnter];
   Done (hostLog m, mEvents m, mInToplevelProcess m))
  = Done (["root entry"; "S1 exit"; "S2 entry"; "S2A entry"; "S1 entry"], [], false).
Proof. vm_compute. reflexivity. Qed.

(** The events pushed by the callbacks of the first microstep are served
    after it, in the order they were pushed. *)
Example pushed_events_are_served_in_order :
  (m ← session 12 Scenario.PushInCallbacks [CallEnter; CallPushEvent "e"];
   Done (hostLog m, mEvents m, mInToplevelProcess m))
  = Done (["S1 entry"; "S1 exit"; "S1 to S2"; "S2 entry"; "g in S2"; "f in S2"],
          [], false).
Proof. vm_compute. reflexivity. Qed.

Lemma run_to_completion_witness :
  ∃ m m',
    (m0 ← session 12 Scenario.PushInCallbacks [CallEnter];
     Done (setInToplevelProcess true (setEvents ["e"] m0))) = Done m ∧
    mInToplevelProcess m = true ∧
    processTransitions (pushEvent 12) 12 "e" m = Done m' ∧
    ∃ lFiltered lToExit m1 m2 lToEnter,
      selectTransitions 12 m "e" ≫= removeConflicts 12 m = Done lFiltered ∧
      gatherExits 12 m lFiltered = Done lToExit ∧
      gatherEntries 12 m2 lFiltered = Done lToEnter ∧
      told m (exitCmds m lToExit) m1 ∧
      told m1 (actionCmds lFiltered) m2 ∧
      told m2 (entryCmds m lToEnter) m' ∧
      hostLog m' = hostLog m ++ says (exitCmds m lToExit)
                     ++ says (actionCmds lFiltered) ++ says (entryCmds m lToEnter) ∧
      mEvents m' = mEvents m ++ pushes (exitCmds m lToExit)
                     ++ pushes (actionCmds lFiltered) ++ pushes (entryCmds m lToEnter).
Proof.
  destruct (m0 ← session 12 Scenario.PushInCallbacks [CallEnter];
            Done (setInToplevelProcess true (setEvents ["e"] m0)))
    as [m| |] eqn:E; [|by vm_compute in E..].
  assert (mInToplevelProcess m = true) as Hf.
  { vm_compute in E. by injection E as <-. }
  destruct (processTransitions (pushEvent 12) 12 "e" m) as [m'| |] eqn:Hp.
  - exists m, m'. split; [done|]. split; [done|]. split; [done|].
    destruct run_to_completion as (_ & H & _).
    exact (H 11 12 "e" m m' Hf Hp).
  - exfalso. vm_compute in E. injection E as <-. by vm_compute in Hp.
  - exfalso. vm_compute in E. injection E as <-. by vm_compute in Hp.
Defined.

(** ** Transition selection *)

Lemma walkUp_innermost k m e a acc l :
  walkUp k m e (Some a) acc = Done l →
  ∃ hits, innermost m e a hits ∧ l = acc ++ hits.
Proof.
  revert a acc. induction k as [|k IH]; intros a acc; simpl; [done|].
  fold (enabled m e a).
  destruct (bool_decide (enabled m e a = [])) eqn:Hd; simpl.
  - apply bool_decide_eq_true in Hd. rewrite Hd, app_nil_r.
    destruct (mParent (deref m a)) as [q|] eqn:Hq.
    + intros H. apply IH in H as (hits & H1 & ->).
      exists hits. split; [|done]. by eapply innermost_up.
    + destruct k; simpl; intros [= <-]; exists []; rewrite app_nil_r;
        (split; [by apply innermost_none|done]).
  - apply bool_decide_eq_false in Hd. intros [= <-].
    exists (enabled m e a). split; [by apply innermost_here|done].
Qed.

Lemma walkUps_innermost n m e atomics acc l :
  forEach (λ lState lTransitions, walkUp n m e (Some lState) lTransitions) atomics acc
    = Done l →
  ∃ hitss, Forall2 (innermost m e) atomics hitss ∧ l = acc ++ concat hitss.
Proof.
  revert acc. induction atomics as [|a atomics IH]; intros acc; simpl.
  - intros [= <-]. exists []. split; [constructor|]. simpl. by rewrite app_nil_r.
  - intros H. apply bind_Done in H as (l1 & H1 & H).
    apply walkUp_innermost in H1 as (hits & Hi & ->).
    apply IH in H as (hitss & Hf & ->).
    exists (hits :: hitss). split; [by constructor|]. simpl. by rewrite app_assoc.
Qed.

(** ** Trees of definitions *)

Lemma StateDef_ind' (P : StateDef → Prop) :
  (∀ d, Forall P (sdChildren d) → P d) → ∀ d, P d.
Proof.
  intros H. fix IH 1. intros d. apply H.
  destruct d as [name i par cs ts en ex]; simpl.
  induction cs as [|c cs IHcs]; constructor; [apply IH|apply IHcs].
Qed.

Lemma elem_of_flat_map {A B} (f : A → list B) (l : list A) (x : B) :
  x ∈ flat_map f l ↔ ∃ y, y ∈ l ∧ x ∈ f y.
Proof.
  rewrite list_elem_of_In, in_flat_map. split; intros (y & H1 & H2); exists y;
    by rewrite ?list_elem_of_In in *.
Qed.

Lemma allNames_eq d : allNames d = sdName d :: flat_map allNames (sdChildren d).
Proof. by destruct d. Qed.

Lemma links_eq p d :
  links p d = (p, d) :: flat_map (links (Some (sdName d))) (sdChildren d).
Proof. by destruct d. Qed.

Lemma nodes_eq i p d :
  nodes i p d = (i, p, d) :: flat_map (nodes (S i) (Some (sdName d))) (sdChildren d).
Proof. by destruct d. Qed.

Lemma descent_eq d :
  descent d = sdName d ::
    (if sdIsParallel d then flat_map descent (sdChildren d)
     else match initialChild (sdChildren d) with
          | Some c => descent c
          | None => []
          end).
Proof.
  destruct d as [name i par cs ts en ex]; simpl. f_equal.
  destruct par; [done|]. unfold initialChild.
  induction cs as [|c cs IH]; simpl; [done|]. by destruct (sdIsInitial c).
Qed.

Lemma flat_map_map {A B C} (f : A → list B) (g : B → C) (l : list A) :
  map g (flat_map f l) = flat_map (λ x, map g (f x)) l.
Proof. induction l as [|a l IH]; simpl; [done|]. by rewrite map_app, IH. Qed.

Lemma flat_map_ext_Forall {A B} (f g : A → list B) (l : list A) :
  Forall (λ x, f x = g x) l → flat_map f l = flat_map g l.
Proof. induction 1 as [|a l H _ IH]; simpl; [done|]. by rewrite H, IH. Qed.

Lemma links_names p d : map (λ pd, sdName pd.2) (links p d) = allNames d.
Proof.
  revert p. induction d as [d IH] using StateDef_ind'. intros p.
  rewrite links_eq, allNames_eq. simpl. f_equal. rewrite flat_map_map.
  apply flat_map_ext_Forall. eapply Forall_impl; [apply IH|]. by intros c Hc.
Qed.

Lemma nodes_links i p d : map (λ n, (n.1.2, n.2)) (nodes i p d) = links p d.
Proof.
  revert i p. induction d as [d IH] using StateDef_ind'. intros i p.
  rewrite links_eq, nodes_eq. simpl. f_equal. rewrite flat_map_map.
  apply flat_map_ext_Forall. eapply Forall_impl; [apply IH|]. by intros c Hc.
Qed.

Lemma nodes_root i p d : (i, p, d) ∈ nodes i p d.
Proof. rewrite nodes_eq. left. Qed.

Lemma nodes_child i p d j q d' c :
  (j, q, d') ∈ nodes i p d → c ∈ sdChildren d' →
  (S j, Some (sdName d'), c) ∈ nodes i p d.
Proof.
  revert i p. induction d as [d IH] using StateDef_ind'. intros i p.
  rewrite nodes_eq. intros [[= -> -> ->]|H]%elem_of_cons Hc.
  - right. apply elem_of_flat_map. exists c. split; [done|apply nodes_root].
  - right. apply elem_of_flat_map in H as (c' & Hc' & H).
    apply elem_of_flat_map. exists c'. split; [done|].
    rewrite Forall_forall in IH. by apply IH.
Qed.

(** Whatever holds of the root and passes from a definition to its
    children holds of every definition of the tree. *)
Lemma nodes_ind_down (Q : nat → option string → StateDef → Prop) i p d :
  Q i p d →
  (∀ j q d' c, Q j q d' → c ∈ sdChildren d' → Q (S j) (Some (sdName d')) c) →
  ∀ j q d', (j, q, d') ∈ nodes i p d → Q j q d'.
Proof.
  intros H0 Hs. revert i p H0.
  induction d as [d IH] using StateDef_ind'. intros i p H0 j q d'.
  rewrite nodes_eq. intros [[= -> -> ->]|H]%elem_of_cons; [done|].
  apply elem_of_flat_map in H as (c & Hc & H).
  rewrite Forall_forall in IH.
  eapply (IH c); [done| |done]. by eapply Hs.
Qed.

Lemma nodes_in_links i p d j q d' :
  (j, q, d') ∈ nodes i p d → (q, d') ∈ links p d.
Proof.
  intros H. rewrite <- (nodes_links i).
  apply (list_elem_of_fmap_2 (λ n, (n.1.2, n.2))) in H. done.
Qed.

Lemma links_in_nodes i p d q d' :
  (q, d') ∈ links p d → ∃ j, (j, q, d') ∈ nodes i p d.
Proof.
  rewrite <- (nodes_links i). intros H.
  apply list_elem_of_fmap in H as ([[j q'] d''] & [= -> ->] & H). by exists j.
Qed.

Lemma links_name_in p d q d' : (q, d') ∈ links p d → sdName d' ∈ allNames d.
Proof.
  intros H. rewrite <- (links_names p).
  apply (list_elem_of_fmap_2 (λ pd, sdName pd.2)) in H. done.
Qed.

(** ** What the constructor builds *)

Lemma allocLoop_spec k q st st' :
  allocLoop k q st = Done st' →
  NoDup (flat_map allNames q) ∧
  (∀ x, x ∈ flat_map allNames q → st !! x = None) ∧
  (∀ x, st' !! x =
        if decide (x ∈ flat_map allNames q) then Some StateImpl_new else st !! x).
Proof.
  revert q st. induction k as [|k IH]; intros [|d q] st; simpl; try done.
  - intros [= <-]. split; [constructor|]. by split; [intros x ?%elem_of_nil|].
  - intros [= <-]. split; [constructor|]. by split; [intros x ?%elem_of_nil|].
  - destruct (st !! sdName d) eqn:Hd; [done|]. intros H.
    apply IH in H as (Hnd & Hfree & Hst').
    rewrite flat_map_app in Hnd, Hfree, Hst'.
    rewrite allNames_eq. simpl.
    set (A := flat_map allNames q) in *.
    set (C := flat_map allNames (sdChildren d)) in *.
    assert (sdName d ∉ A ++ C) as Hfresh.
    { intros Hin. apply Hfree in Hin. by rewrite lookup_insert_eq in Hin. }
    assert (∀ x, x ∈ C ++ A ↔ x ∈ A ++ C) as Hperm.
    { intros x. rewrite !elem_of_app. tauto. }
    split; [|split].
    + constructor; [by rewrite Hperm|].
      apply NoDup_app in Hnd as (H1 & H2 & H3). apply NoDup_app.
      split; [done|]. split; [|done]. intros x Hx Hx'. by apply (H2 x).
    + intros x Hx. apply elem_of_cons in Hx as [Hx|Hx]; [by rewrite Hx|].
      apply Hperm in Hx. specialize (Hfree x Hx).
      rewrite lookup_insert_ne in Hfree; [done|]. intros <-. by apply Hfresh.
    + intros x. rewrite Hst'.
      destruct (decide (x ∈ A ++ C)) as [Hx|Hx].
      * rewrite decide_True; [done|]. right. by apply Hperm.
      * destruct (decide (x = sdName d)) as [->|Hne].
        -- rewrite lookup_insert_eq. rewrite decide_True; [done|left].
        -- rewrite lookup_insert_ne by done. rewrite decide_False; [done|].
           intros Hx'. apply elem_of_cons in Hx' as [Hx'|Hx']; [done|].
           by apply Hx, Hperm.
Qed.

Lemma linkChildren_spec name defs acc ini cs i :
  linkChildren name defs acc ini = Done (cs, i) →
  cs = acc ++ (sdName <$> defs) ∧
  i = match ini with
      | Some _ => ini
      | None => sdName <$> initialChild defs
      end.
Proof.
  revert acc ini. induction defs as [|c defs IH]; intros acc ini; simpl.
  - intros [= <- <-]. rewrite app_nil_r. by destruct ini.
  - unfold initialChild. simpl. destruct (sdIsInitial c).
    + destruct ini; [done|]. intros H. apply IH in H as [-> ->].
      by rewrite <- app_assoc.
    + intros H. apply IH in H as [-> ->]. by rewrite <- app_assoc.
Qed.

Lemma buildTransitions_spec st this i defs ts :
  buildTransitions st this i defs = Done ts → ts = transitionsOf this i defs.
Proof.
  revert i ts. induction defs as [|d defs IH]; intros i ts; simpl.
  - by intros [= <-].
  - intros H. apply bind_Done in H as (target & Ht & H).
    apply bind_Done in H as (rest & Hr & [= <-]).
    apply IH in Hr as ->. f_equal. f_equal.
    destruct (bool_decide (tdTarget d = "")); [by injection Ht|].
    destruct (st !! tdTarget d); [by injection Ht|done].
Qed.

Lemma StateImpl_build_spec parent d st st' :
  st !! sdName d = Some StateImpl_new →
  StateImpl_build parent d st = Done st' →
  st' = <[sdName d := implOf parent d]> st.
Proof.
  intros Hd. unfold StateImpl_build. rewrite Hd. simpl.
  intros H. apply bind_Done in H as ([cs i] & Hl & H).
  apply linkChildren_spec in Hl as [-> ->]. simpl in H.
  destruct (_ && _); [done|].
  apply bind_Done in H as (ts & Ht & [= <-]).
  apply buildTransitions_spec in Ht as ->. done.
Qed.

Lemma flat_map_links_children p (cs : list StateDef) :
  flat_map (λ pd, links pd.1 pd.2) ((λ c, (p, c)) <$> cs) = flat_map (links p) cs.
Proof. induction cs as [|c cs IH]; [done|]. rewrite fmap_cons. simpl. by rewrite IH. Qed.

Lemma buildLoop_spec k q st st' :
  buildLoop k q st = Done st' →
  NoDup (map (λ pd, sdName pd.2) (flat_map (λ pd, links pd.1 pd.2) q)) →
  (∀ pd, pd ∈ flat_map (λ pd, links pd.1 pd.2) q →
         st !! sdName pd.2 = Some StateImpl_new) →
  (∀ pd, pd ∈ flat_map (λ pd, links pd.1 pd.2) q →
         st' !! sdName pd.2 = Some (implOf pd.1 pd.2)) ∧
  (∀ x, x ∉ map (λ pd, sdName pd.2) (flat_map (λ pd, links pd.1 pd.2) q) →
        st' !! x = st !! x).
Proof.
  revert q st. induction k as [|k IH]; intros [|[p d] q] st; simpl; try done.
  - intros [= <-] _ _. split; [by intros pd ?%elem_of_nil|done].
  - intros [= <-] _ _. split; [by intros pd ?%elem_of_nil|done].
  - intros H. apply bind_Done in H as (st1 & Hb & H).
    rewrite links_eq. simpl.
    set (FC := flat_map (links (Some (sdName d))) (sdChildren d)).
    set (FR := flat_map (λ pd, links pd.1 pd.2) q).
    intros Hnd Hnew.
    apply StateImpl_build_spec in Hb; [|apply (Hnew (p, d)); left]. subst st1.
    assert (flat_map (λ pd, links pd.1 pd.2)
              (q ++ ((λ c, (Some (sdName d), c)) <$> sdChildren d)) = FR ++ FC) as Eq.
    { rewrite flat_map_app. f_equal. apply flat_map_links_children. }
    apply NoDup_cons in Hnd as [Hd Hnd].
    rewrite map_app in Hd, Hnd.
    assert (∀ x, x ∈ map (λ pd, sdName pd.2) (FR ++ FC) ↔
                 x ∈ map (λ pd, sdName pd.2) FC ++ map (λ pd, sdName pd.2) FR) as Hperm.
    { intros x. rewrite map_app, !elem_of_app. tauto. }
    pose proof (IH _ _ H) as IH'. rewrite Eq in IH'. clear IH H Eq.
    destruct IH' as [H1 H2].
    { rewrite map_app. apply NoDup_app in Hnd as (N1 & N2 & N3).
      apply NoDup_app. split; [done|]. split; [|done].
      intros x Hx Hx'. by apply (N2 x). }
    { intros pd Hpd. rewrite lookup_insert_ne.
      - apply Hnew. right. rewrite elem_of_app in *. tauto.
      - intros E. apply Hd. rewrite E, <- Hperm.
        by apply (list_elem_of_fmap_2 (λ pd, sdName pd.2)) in Hpd. }
    split.
    + intros pd Hpd. apply elem_of_cons in Hpd as [->|Hpd]; simpl.
      * rewrite H2; [apply lookup_insert_eq|]. by rewrite Hperm.
      * apply H1. rewrite elem_of_app in *. tauto.
    + intros x Hx. rewrite not_elem_of_cons in Hx. destruct Hx as [Hne Hx].
      rewrite H2; [by rewrite lookup_insert_ne|]. rewrite Hperm.
      by rewrite map_app in Hx.
Qed.

Lemma StateMachine_new_hasTree n params m0 :
  StateMachine_new n params = Done m0 →
  hasTree m0 (asRoot params) ∧ allClear m0 ∧ mIsActive m0 = false ∧ hostLog m0 = [].
Proof.
  unfold StateMachine_new. set (T := asRoot params).
  assert (sdName T = "root") as HT by done. clearbody T. intros H.
  apply bind_Done in H as (st & Ha & H).
  apply bind_Done in H as (st' & Hb & [= <-]).
  apply allocLoop_spec in Ha as (Hnd & _ & Hst). simpl in Hnd, Hst.
  rewrite app_nil_r in Hnd, Hst.
  apply buildLoop_spec in Hb as [H1 H2]; simpl; rewrite ?app_nil_r, ?links_names.
  - simpl in H1, H2. rewrite app_nil_r in H1, H2. rewrite links_names in H2.
    assert (∀ x, x ∉ allNames T → deref (mkStateMachine st' [] false false "root" []) x
                                   = StateImpl_new) as Hout.
    { intros x Hx. unfold deref; simpl. rewrite H2, Hst by done.
      by rewrite decide_False. }
    assert (∀ p d, (p, d) ∈ links None T →
              deref (mkStateMachine st' [] false false "root" []) (sdName d)
              = implOf p d) as Hin.
    { intros p d Hpd. unfold deref; simpl. specialize (H1 (p, d) Hpd).
      simpl in H1. by rewrite H1. }
    split; [|split; [|done]].
    + split; [done|]. split; [by rewrite HT|]. split.
      * intros x Hx. by rewrite Hout.
      * intros i p d Hn. apply nodes_in_links in Hn. by rewrite (Hin p d).
    + intros x. destruct (decide (x ∈ allNames T)) as [Hx|Hx].
      * rewrite <- (links_names None) in Hx.
        apply list_elem_of_fmap in Hx as ([p d] & -> & Hpd). simpl.
        by rewrite (Hin p d).
      * by rewrite Hout.
  - done.
  - intros pd Hpd. rewrite Hst. rewrite decide_True; [done|].
    destruct pd as [p d]. by eapply links_name_in.
Qed.

Lemma hasTree_sameTopology m0 m T :
  hasTree m0 T → sameTopology m0 m → hasTree m T.
Proof.
  intros (H1 & H2 & H3 & H4) [G1 G2].
  split; [done|]. split; [congruence|]. split.
  - intros x Hx. rewrite <- G2. by apply H3.
  - intros i p d Hn. rewrite <- G2. by eapply H4.
Qed.

(** ** The initial descent *)

Lemma bind_ret {A} (c : result A) : c ≫= Done = c.
Proof. by destruct c. Qed.

Lemma bind_assoc {A B C} (c : result A) (f : A → result B) (g : B → result C) :
  (c ≫= f) ≫= g = c ≫= (λ a, f a ≫= g).
Proof. by destruct c. Qed.

Lemma node_fields m T i p d :
  hasTree m T → (i, p, d) ∈ nodes 0 None T →
  mParent (deref m (sdName d)) = p ∧
  mIsParallel (deref m (sdName d)) = sdIsParallel d ∧
  mInitial (deref m (sdName d)) = sdName <$> initialChild (sdChildren d) ∧
  mChildren (deref m (sdName d)) = sdName <$> sdChildren d ∧
  mOnEntryActions (deref m (sdName d)) = sdOnEntryActions d ∧
  mOnExitActions (deref m (sdName d)) = sdOnExitActions d ∧
  mTransitions (deref m (sdName d)) = transitionsOf (sdName d) 0 (sdTransitions d).
Proof.
  intros (_ & _ & _ & H) Hn. specialize (H i p d Hn).
  change (implOf p d) with (shape (implOf p d)) in H.
  apply shape_fields in H as (_ & H1 & H2 & H3 & H4 & H5 & H6 & H7).
  rewrite H1, H2, H3, H4, H5, H6, H7. done.
Qed.

Lemma initialChild_in cs c : initialChild cs = Some c → c ∈ cs.
Proof. intros H. apply find_some in H as [H _]. by apply list_elem_of_In. Qed.

Section Descent.

Variable m0 : StateMachine.
Variable T : StateDef.
Variable n : nat.
Hypothesis m0_checked : initialsChecked m0.
Hypothesis m0_tree : hasTree m0 T.

Lemma atRest_hasTree m : atRest m0 m → hasTree m T.
Proof. intros [H _]. by eapply hasTree_sameTopology. Qed.

Lemma triple_StateImpl_enter_atRest p :
  triple (atRest m0) (StateImpl_enter (pushEvent n) p) (atRest m0).
Proof.
  apply triple_StateImpl_enter.
  - by apply atRest_checked.
  - intros p' v m Hm _. by apply atRest_writeActive.
  - by intros l m [H1 H2].
  - intros. by apply triple_pushEvent_atRest.
Qed.

Lemma triple_StateImpl_leave_atRest p :
  triple (atRest m0) (StateImpl_leave (pushEvent n) p) (atRest m0).
Proof.
  apply triple_StateImpl_leave.
  - intros p' v m Hm _. by apply atRest_writeActive.
  - by intros l m [H1 H2].
  - intros. by apply triple_pushEvent_atRest.
Qed.

Lemma enterLoop_children cs :
  Forall (λ c, ∀ m rest k, atRest m0 m →
            enterLoop (pushEvent n) (length (descent c) + k) (sdName c :: rest) m =
            forEach (StateImpl_enter (pushEvent n)) (descent c) m
              ≫= enterLoop (pushEvent n) k rest) cs →
  ∀ m rest k, atRest m0 m →
    enterLoop (pushEvent n) (length (flat_map descent cs) + k)
      ((sdName <$> cs) ++ rest) m =
    forEach (StateImpl_enter (pushEvent n)) (flat_map descent cs) m
      ≫= enterLoop (pushEvent n) k rest.
Proof.
  induction 1 as [|c cs Hc _ IH]; intros m rest k Hm.
  - simpl. by destruct rest.
  - rewrite fmap_cons. simpl. rewrite length_app, <- Nat.add_assoc.
    rewrite Hc by done. rewrite forEach_app, bind_assoc.
    pose proof (triple_forEach (atRest m0) (StateImpl_enter (pushEvent n)) (descent c)
                  (λ a _, triple_StateImpl_enter_atRest a) m Hm) as Hd.
    destruct (forEach _ (descent c) m) as [m1| |]; simpl; [|done..].
    by apply IH.
Qed.

Lemma enterLoop_descent d :
  ∀ i p, (i, p, d) ∈ nodes 0 None T →
  ∀ m rest k, atRest m0 m →
    enterLoop (pushEvent n) (length (descent d) + k) (sdName d :: rest) m =
    forEach (StateImpl_enter (pushEvent n)) (descent d) m
      ≫= enterLoop (pushEvent n) k rest.
Proof.
  induction d as [d IH] using StateDef_ind'. intros i p Hn m rest k Hm.
  rewrite descent_eq. simpl.
  pose proof (triple_StateImpl_enter_atRest (sdName d) m Hm) as H1.
  destruct (StateImpl_enter (pushEvent n) (sdName d) m) as [m1| |]; simpl; [|done..].
  destruct (node_fields m1 T i p d (atRest_hasTree m1 H1) Hn)
    as (_ & -> & -> & -> & _).
  destruct (sdIsParallel d); simpl.
  - apply enterLoop_children; [|done].
    rewrite Forall_forall in IH |- *. intros c Hc m' rest' k' Hm'.
    eapply IH; [done| |done]. by eapply nodes_child.
  - destruct (initialChild (sdChildren d)) as [c|] eqn:Hc; simpl; [|done].
    rewrite Forall_forall in IH. apply initialChild_in in Hc.
    eapply IH; [done| |done]. by eapply nodes_child.
Qed.

Lemma enter'_descent k m :
  atRest m0 m → mIsActive m = false → length (descent T) ≤ k →
  enter' (pushEvent n) k m =
  forEach (StateImpl_enter (pushEvent n)) (descent T) (setIsActive true m).
Proof.
  intros Hm Ha Hk. unfold enter'. rewrite Ha.
  destruct (atRest_hasTree m Hm) as (_ & -> & _).
  replace k with (length (descent T) + (k - length (descent T))) by lia.
  rewrite (enterLoop_descent T 0 None); [| apply nodes_root |by destruct Hm].
  simpl. destruct (k - _); apply bind_ret.
Qed.

End Descent.



(** ** Callbacks that push nothing *)

Lemma addLog_nil m : addLog [] m = m.
Proof. destruct m. unfold addLog; simpl. by rewrite app_nil_r. Qed.

Lemma addLog_app a b m : addLog b (addLog a m) = addLog (a ++ b) m.
Proof. unfold addLog; simpl. by rewrite app_assoc. Qed.

Lemma deref_addLog l m p : deref (addLog l m) p = deref m p.
Proof. done. Qed.

Lemma runCallback_quiet pe cb m :
  pushes cb = [] → runCallback pe cb m = Done (addLog (says cb) m).
Proof.
  unfold runCallback. revert m. induction cb as [|c cb IH]; intros m Hq; simpl.
  - by rewrite addLog_nil.
  - destruct c as [l|e]; [|done]. unfold runCmd at 1. simpl.
    rewrite IH by done. change (say l m) with (addLog [l] m).
    by rewrite addLog_app.
Qed.

Lemma pushes_concat_nil cb cbs :
  pushes (concat (cb :: cbs)) = [] → pushes cb = [] ∧ pushes (concat cbs) = [].
Proof. simpl. rewrite pushes_app. by intros [-> ->]%app_eq_nil. Qed.

Lemma runCallbacks_quiet pe cbs m :
  pushes (concat cbs) = [] →
  forEach (runCallback pe) cbs m = Done (addLog (says (concat cbs)) m).
Proof.
  revert m. induction cbs as [|cb cbs IH]; intros m Hq.
  - simpl. by rewrite addLog_nil.
  - apply pushes_concat_nil in Hq as [H1 H2].
    cbn [forEach]. rewrite runCallback_quiet by done. simpl.
    rewrite IH by done. by rewrite addLog_app, says_app.
Qed.

Lemma StateImpl_enter_links pe p m :
  StateImpl_enter pe p m =
  enterLinks p m ≫= forEach (runCallback pe) (mOnEntryActions (deref m p)).
Proof.
  unfold StateImpl_enter, enterLinks. rewrite bind_assoc.
  destruct (if mIsParallel (deref m p) then _ else _); done.
Qed.

Lemma StateImpl_leave_links pe p m :
  StateImpl_leave pe p m =
  forEach (runCallback pe) (mOnExitActions (deref m p)) (leaveLinks p m).
Proof. done. Qed.

Lemma enterLinks_addLog l p m :
  enterLinks p (addLog l m) = enterLinks p m ≫= λ m', Done (addLog l m').
Proof.
  unfold enterLinks. rewrite !deref_addLog.
  destruct (mIsParallel (deref m p)); simpl.
  - destruct (mParent (deref m p)); [|done].
    rewrite deref_addLog. by destruct (mIsParallel _).
  - destruct (mInitial (deref m p)); simpl.
    + destruct (mParent (deref m p)) as [q|]; [|done].
      change (deref (writeActive p (Some s) (addLog l m)) q)
        with (deref (writeActive p (Some s) m) q).
      by destruct (mIsParallel _).
    + destruct (isAtomic (deref m p)); simpl; [|done].
      destruct (mParent (deref m p)); [|done].
      rewrite deref_addLog. by destruct (mIsParallel _).
Qed.

Lemma leaveLinks_addLog l p m :
  leaveLinks p (addLog l m) = addLog l (leaveLinks p m).
Proof.
  unfold leaveLinks. rewrite !deref_addLog.
  destruct (mParent (deref m p)); [|done]. by destruct (mIsParallel _).
Qed.

Lemma enterLinks_sameTopology p m m' : enterLinks p m = Done m' → sameTopology m m'.
Proof.
  unfold enterLinks. intros H. apply bind_Done in H as (m1 & H1 & [= <-]).
  assert (sameTopology m m1) as T1.
  { destruct (mIsParallel (deref m p)); [by injection H1 as <-|].
    destruct (mInitial (deref m p));
      [injection H1 as <-; apply sameTopology_writeActive|].
    destruct (isAtomic (deref m p)); [by injection H1 as <-|done]. }
  eapply sameTopology_trans; [done|].
  destruct (mParent (deref m p)) as [q|]; [|done].
  destruct (mIsParallel (deref m1 q)); [done|apply sameTopology_writeActive].
Qed.

Lemma leaveLinks_sameTopology p m : sameTopology m (leaveLinks p m).
Proof.
  unfold leaveLinks. destruct (mParent (deref m p)) as [q|]; [|done].
  destruct (mIsParallel (deref m q)); [done|apply sameTopology_writeActive].
Qed.

Lemma sameTopology_entryActions m m' p :
  sameTopology m m' → mOnEntryActions (deref m' p) = mOnEntryActions (deref m p).
Proof. intros [_ H]. specialize (H p). apply shape_fields in H. symmetry. apply H. Qed.

Lemma sameTopology_exitActions m m' p :
  sameTopology m m' → mOnExitActions (deref m' p) = mOnExitActions (deref m p).
Proof. intros [_ H]. specialize (H p). apply shape_fields in H. symmetry. apply H. Qed.

(** With callbacks that push nothing, entering a list of states is the
    pointer updates followed by the labels. *)
Lemma enters_quiet pe l m :
  (∀ y, y ∈ l → pushes (concat (mOnEntryActions (deref m y))) = []) →
  forEach (StateImpl_enter pe) l m =
  forEach enterLinks l m ≫= λ m', Done (addLog (says (entryCmds m l)) m').
Proof.
  revert m. induction l as [|y l IH]; intros m Hq.
  - simpl. by rewrite addLog_nil.
  - cbn [forEach]. rewrite StateImpl_enter_links, !bind_assoc.
    destruct (enterLinks y m) as [m1| |] eqn:E1; simpl; [|done..].
    rewrite runCallbacks_quiet by (apply Hq; left). simpl.
    pose proof (enterLinks_sameTopology _ _ _ E1) as Ht.
    rewrite IH.
    + assert (forEach enterLinks l (addLog (says (concat (mOnEntryActions (deref m y)))) m1)
              = forEach enterLinks l m1 ≫=
                λ m', Done (addLog (says (concat (mOnEntryActions (deref m y)))) m')) as ->.
      { generalize (says (concat (mOnEntryActions (deref m y)))). intros lg.
        clear. revert m1. induction l as [|z l IHl]; intros m1; simpl; [done|].
        rewrite enterLinks_addLog, bind_assoc.
        destruct (enterLinks z m1); simpl; [apply IHl|done..]. }
      rewrite bind_assoc. destruct (forEach enterLinks l m1); simpl; [|done..].
      rewrite addLog_app. f_equal. f_equal.
      change (entryCmds m (y :: l))
        with (concat (mOnEntryActions (deref m y)) ++ entryCmds m l).
      rewrite says_app. f_equal. f_equal. unfold entryCmds.
      apply flat_map_ext. intros z. rewrite deref_addLog.
      by rewrite (sameTopology_entryActions m m1).
    + intros z Hz. rewrite deref_addLog, (sameTopology_entryActions m m1) by done.
      apply Hq. by right.
Qed.

(** Likewise for leaving. *)
Lemma leaves_quiet pe l m :
  (∀ y, y ∈ l → pushes (concat (mOnExitActions (deref m y))) = []) →
  forEach (StateImpl_leave pe) l m =
  Done (addLog (says (exitCmds m l)) (foldl (λ m' y, leaveLinks y m') m l)).
Proof.
  revert m. induction l as [|y l IH]; intros m Hq.
  - simpl. by rewrite addLog_nil.
  - cbn [forEach foldl]. rewrite StateImpl_leave_links.
    pose proof (leaveLinks_sameTopology y m) as Ht.
    rewrite <- (sameTopology_exitActions _ _ y Ht).
    rewrite runCallbacks_quiet
      by (rewrite (sameTopology_exitActions _ _ y Ht); apply Hq; left).
    simpl. rewrite IH.
    + assert (∀ lg m1, foldl (λ m' z, leaveLinks z m') (addLog lg m1) l
                       = addLog lg (foldl (λ m' z, leaveLinks z m') m1 l)) as ->.
      { clear. intros lg. induction l as [|z l IHl]; intros m1; simpl; [done|].
        by rewrite leaveLinks_addLog, IHl. }
      rewrite addLog_app. f_equal. f_equal.
      change (exitCmds m (y :: l))
        with (concat (mOnExitActions (deref m y)) ++ exitCmds m l).
      rewrite says_app, (sameTopology_exitActions _ _ y Ht). f_equal.
      f_equal. unfold exitCmds. apply flat_map_ext. intros z.
      rewrite deref_addLog. by rewrite (sameTopology_exitActions m _ z Ht).
    + intros z Hz. rewrite deref_addLog, (sameTopology_exitActions m _ z Ht).
      apply Hq. by right.
Qed.

(** ** Names, depths and the descent *)

Lemma NoDup_map_inj {A B} (f : A → B) (l : list A) x y :
  NoDup (map f l) → x ∈ l → y ∈ l → f x = f y → x = y.
Proof.
  induction l as [|a l IH]; simpl; [by intros _ ?%elem_of_nil|].
  intros [Ha Hl]%NoDup_cons Hx Hy E.
  apply elem_of_cons in Hx as [->|Hx]; apply elem_of_cons in Hy as [->|Hy].
  - done.
  - exfalso. apply Ha. rewrite E. by apply (list_elem_of_fmap_2 f).
  - exfalso. apply Ha. rewrite <- E. by apply (list_elem_of_fmap_2 f).
  - by apply IH.
Qed.

Lemma nodes_names i p d : map (λ n, sdName n.2) (nodes i p d) = allNames d.
Proof.
  rewrite <- (links_names p), <- (nodes_links i), map_map. done.
Qed.

Lemma nodes_name_inj T i p d i' p' d' :
  NoDup (allNames T) →
  (i, p, d) ∈ nodes 0 None T → (i', p', d') ∈ nodes 0 None T →
  sdName d = sdName d' → (i, p, d) = (i', p', d').
Proof.
  intros Hnd H1 H2 E. rewrite <- (nodes_names 0 None) in Hnd.
  by apply (NoDup_map_inj _ _ _ _ Hnd H1 H2).
Qed.

Lemma node_name_in T i p d : (i, p, d) ∈ nodes 0 None T → sdName d ∈ allNames T.
Proof. intros H. eapply links_name_in. by eapply nodes_in_links. Qed.

Lemma nodes_parent_in T i q d :
  (i, Some q, d) ∈ nodes 0 None T → q ∈ allNames T.
Proof.
  intros H.
  apply (nodes_ind_down
           (λ j p' d', (j, p', d') ∈ nodes 0 None T ∧
                       ∀ q', p' = Some q' → q' ∈ allNames T) 0 None T) in H.
  - by apply H.
  - split; [apply nodes_root|done].
  - intros j q' d' c [Hn _] Hc. split; [by eapply nodes_child|].
    intros ? [= <-]. by eapply node_name_in.
Qed.

Lemma nodes_root_only T i d : (i, None, d) ∈ nodes 0 None T → i = 0 ∧ d = T.
Proof.
  intros H.
  assert (∀ j (q : option string) d' c,
            (q = None → j = 0 ∧ d' = T) → c ∈ sdChildren d' →
            Some (sdName d') = None → S j = 0 ∧ c = T) as Hs by done.
  by apply (nodes_ind_down (λ j p' d', p' = None → j = 0 ∧ d' = T) 0 None T
              (λ _, conj eq_refl eq_refl) Hs i None d H).
Qed.

Lemma length_flat_map_elem {A B} (f : A → list B) (l : list A) a :
  a ∈ l → length (f a) ≤ length (flat_map f l).
Proof.
  induction l as [|b l IH]; [by intros ?%elem_of_nil|].
  simpl. rewrite length_app. intros [->|H]%elem_of_cons; [lia|].
  specialize (IH H). lia.
Qed.

Lemma nodes_depth T i p d : (i, p, d) ∈ nodes 0 None T → i < countStates T.
Proof.
  intros H.
  apply (nodes_ind_down (λ j p' d', j + countStates d' ≤ countStates T) 0 None T) in H.
  - unfold countStates in *. rewrite (allNames_eq d) in H. simpl in H. lia.
  - done.
  - intros j q d' c Hd Hc. unfold countStates in *.
    rewrite (allNames_eq d') in Hd. simpl in Hd.
    pose proof (length_flat_map_elem allNames _ _ Hc). lia.
Qed.

Lemma onDescent_node T i p d : onDescent T i p d → (i, p, d) ∈ nodes 0 None T.
Proof.
  induction 1 as [|i p d c _ IH _ Hc|i p d c _ IH _ Hc].
  - apply nodes_root.
  - by eapply nodes_child.
  - eapply nodes_child; [done|]. by apply initialChild_in.
Qed.

Lemma descent_head d : sdName d ∈ descent d.
Proof. rewrite descent_eq. left. Qed.

Lemma onDescent_incl T i p d :
  onDescent T i p d → ∀ y, y ∈ descent d → y ∈ descent T.
Proof.
  induction 1 as [|i p d c _ IH Hp Hc|i p d c _ IH Hp Hc]; intros y Hy; [done|..].
  - apply IH. rewrite descent_eq, Hp. right.
    apply elem_of_flat_map. by exists c.
  - apply IH. rewrite descent_eq, Hp, Hc. by right.
Qed.

Lemma onDescent_descent T i p d : onDescent T i p d → sdName d ∈ descent T.
Proof. intros H. eapply onDescent_incl; [done|apply descent_head]. Qed.

Lemma descent_onDescent_sub T d :
  ∀ i p, onDescent T i p d →
  ∀ y, y ∈ descent d → ∃ j q d', onDescent T j q d' ∧ sdName d' = y.
Proof.
  induction d as [d IH] using StateDef_ind'. intros i p Hd y.
  rewrite descent_eq. rewrite Forall_forall in IH.
  intros [->|Hy]%elem_of_cons; [by exists i, p, d|].
  destruct (sdIsParallel d) eqn:Hp.
  - apply elem_of_flat_map in Hy as (c & Hc & Hy).
    eapply (IH c Hc); [|done]. by eapply onDescent_parallel.
  - destruct (initialChild (sdChildren d)) as [c|] eqn:Hc;
      [|by apply elem_of_nil in Hy].
    eapply (IH c); [by apply initialChild_in| |done]. by eapply onDescent_initial.
Qed.

Lemma descent_onDescent T y :
  y ∈ descent T → ∃ i p d, onDescent T i p d ∧ sdName d = y.
Proof. apply (descent_onDescent_sub T T 0 None). constructor. Qed.

Lemma descent_names T y : y ∈ descent T → y ∈ allNames T.
Proof.
  intros (i & p & d & Hd & <-)%descent_onDescent.
  eapply node_name_in. by apply onDescent_node.
Qed.

Lemma length_descent d : length (descent d) ≤ countStates d.
Proof.
  unfold countStates. induction d as [d IH] using StateDef_ind'.
  rewrite descent_eq, allNames_eq. simpl. apply le_n_S.
  destruct (sdIsParallel d).
  - induction IH as [|c cs Hc _ IHcs]; simpl; [done|]. rewrite !length_app. lia.
  - destruct (initialChild (sdChildren d)) as [c|] eqn:Hc; simpl; [|lia].
    apply initialChild_in in Hc. rewrite Forall_forall in IH.
    specialize (IH c Hc). pose proof (length_flat_map_elem allNames _ _ Hc). lia.
Qed.

(** ** The pointers after the initial descent *)

Lemma fields_writeActive p v m z :
  mParent (deref (writeActive p v m) z) = mParent (deref m z) ∧
  mIsParallel (deref (writeActive p v m) z) = mIsParallel (deref m z) ∧
  mInitial (deref (writeActive p v m) z) = mInitial (deref m z) ∧
  mChildren (deref (writeActive p v m) z) = mChildren (deref m z).
Proof.
  destruct (sameTopology_writeActive p v m) as [_ H]. specialize (H z).
  apply shape_fields in H as (_ & H1 & H2 & H3 & H4 & _). by rewrite H1, H2, H3, H4.
Qed.

Lemma justified_write m l x c :
  justified m l → c ∈ l → mParent (deref m c) = Some x →
  mIsParallel (deref m x) = false → justified (writeActive x (Some c) m) l.
Proof.
  intros Hj Hc Hp Hx x' c' H.
  destruct (fields_writeActive x (Some c) m c') as (-> & _).
  destruct (fields_writeActive x (Some c) m x') as (_ & -> & _).
  rewrite deref_writeActive in H. destruct (decide (x = x')) as [<-|Hne].
  - destruct (deref m x); simpl in H. by injection H as <-.
  - by apply Hj.
Qed.

Lemma justified_clear m l x : justified m l → justified (writeActive x None m) l.
Proof.
  intros Hj x' c' H.
  destruct (fields_writeActive x None m c') as (-> & _).
  destruct (fields_writeActive x None m x') as (_ & -> & _).
  rewrite deref_writeActive in H. destruct (decide (x = x')) as [<-|Hne].
  - by destruct (deref m x).
  - by apply Hj.
Qed.

Lemma indexed_write m T x v : indexed m T → x ∈ allNames T → indexed (writeActive x v m) T.
Proof.
  intros Hi Hx z. unfold writeActive; simpl. rewrite lookup_insert.
  destruct (decide (x = z)) as [<-|Hne]; [|apply Hi]. split; [done|by eexists].
Qed.

Lemma entering_write T done m x c :
  entering T done m → x ∈ allNames T → c ∈ descent T →
  mParent (deref m c) = Some x → mIsParallel (deref m x) = false →
  entering T done (writeActive x (Some c) m).
Proof.
  intros (H1 & H2 & H3 & H4 & H5) Hx Hc Hp Hpar.
  pose proof (sameTopology_writeActive x (Some c) m) as Ht.
  split; [by eapply hasTree_sameTopology|].
  split; [by apply indexed_write|].
  split; [by eapply sameTopology_initialsChecked|].
  split; [by apply justified_write|].
  intros y Hy. destruct (fields_writeActive x (Some c) m y) as (_ & -> & -> & _).
  rewrite deref_writeActive. destruct (decide (x = y)) as [<-|Hne].
  - intros _ _. by destruct (deref m x).
  - by apply H5.
Qed.

Lemma entering_done T done m y :
  entering T done m →
  (mIsParallel (deref m y) = false → mInitial (deref m y) ≠ None →
   mActive (deref m y) ≠ None) →
  entering T (done ++ [y]) m.
Proof.
  intros (H1 & H2 & H3 & H4 & H5) Hy. repeat (split; [done|]).
  intros z [Hz|Hz]%elem_of_app; [by apply H5|].
  apply list_elem_of_singleton in Hz as ->. done.
Qed.


Lemma sameFlags_trans m1 m2 m3 : sameFlags m1 m2 → sameFlags m2 m3 → sameFlags m1 m3.
Proof. intros (A1 & A2 & A3) (B1 & B2 & B3). unfold sameFlags. by rewrite B1, B2, B3. Qed.

Lemma enterLinks_entering T done y m :
  y ∈ descent T → entering T done m →
  ∃ m', enterLinks y m = Done m' ∧ entering T (done ++ [y]) m' ∧
        sameFlags m m' ∧ hostLog m' = hostLog m.
Proof.
  intros Hy He. pose proof He as (Htree & Hidx & Hok & Hj & Hnn).
  destruct (descent_onDescent T y Hy) as (i & p & d & Hd & <-).
  pose proof (onDescent_node _ _ _ _ Hd) as Hn.
  destruct (node_fields m T i p d Htree Hn) as (Fp & Fpar & Fini & Fch & _).
  unfold enterLinks. rewrite Fp, Fpar.
  assert (∃ m1, (if sdIsParallel d then Done m
                 else match mInitial (deref m (sdName d)) with
                      | Some i0 => Done (writeActive (sdName d) (Some i0) m)
                      | None => if isAtomic (deref m (sdName d)) then Done m
                                else Raise (NoInitialState (mName (deref m (sdName d))))
                      end) = Done m1 ∧ entering T (done ++ [sdName d]) m1 ∧
                sameFlags m m1 ∧ hostLog m1 = hostLog m) as (m1 & -> & He1 & Hf1 & Hl1).
  { destruct (sdIsParallel d) eqn:Hpar.
    - exists m. split; [done|]. split; [|done].
      apply entering_done; [done|]. by rewrite Fpar.
    - rewrite Fini. destruct (initialChild (sdChildren d)) as [c|] eqn:Hc; simpl.
      + eexists. split; [done|]. split; [|done].
        assert (sdName d ∈ allNames T) as A1 by by eapply descent_names.
        assert (sdName c ∈ descent T) as A2.
        { eapply onDescent_descent. by eapply onDescent_initial. }
        assert (mParent (deref m (sdName c)) = Some (sdName d)) as A3.
        { eapply (node_fields m T (S i) (Some (sdName d)) c Htree).
          eapply nodes_child; [done|]. by apply initialChild_in. }
        apply entering_done.
        * by apply entering_write.
        * intros _ _. rewrite deref_writeActive, decide_True by done.
          by destruct (deref m (sdName d)).
      + unfold isAtomic. rewrite Fch.
        destruct (sdChildren d) as [|c cs] eqn:Hcs; simpl.
        * exists m. split; [done|]. split; [|done].
          apply entering_done; [done|]. intros _ Hne. by rewrite Fini in Hne.
        * exfalso. apply (Hok (sdName d)); [done|by rewrite Fch|by rewrite Fini]. }
  simpl. eexists. split; [done|].
  destruct p as [q|]; [|done].
  destruct (mIsParallel (deref m1 q)) eqn:Hq; [done|].
  split; [|by destruct Hf1 as (? & ? & ?)].
  pose proof He1 as (Htree1 & _).
  assert (q ∈ allNames T) as A1 by by eapply nodes_parent_in.
  assert (mParent (deref m1 (sdName d)) = Some q) as A2
    by by eapply (node_fields m1 T i (Some q) d Htree1).
  by apply entering_write.
Qed.

Lemma enters_links T l :
  ∀ done m, (∀ y, y ∈ l → y ∈ descent T) → entering T done m →
  ∃ m', forEach enterLinks l m = Done m' ∧ entering T (done ++ l) m' ∧
        sameFlags m m' ∧ hostLog m' = hostLog m.
Proof.
  induction l as [|y l IH]; intros done m Hl He; simpl.
  - exists m. rewrite app_nil_r. done.
  - destruct (enterLinks_entering T done y m) as (m1 & -> & H1 & F1 & L1);
      [apply Hl; left|done|].
    simpl. destruct (IH (done ++ [y]) m1) as (m2 & -> & H2 & F2 & L2);
      [by intros z Hz; apply Hl; right|done|].
    exists m2. rewrite <- app_assoc in H2. split; [done|]. split; [done|].
    split; [by eapply sameFlags_trans|congruence].
Qed.

(** ** The configuration after the initial descent *)

Lemma name_node T x :
  x ∈ allNames T → ∃ i p d, (i, p, d) ∈ nodes 0 None T ∧ sdName d = x.
Proof.
  rewrite <- (nodes_names 0 None). intros H.
  apply list_elem_of_fmap in H as ([[i p] d] & -> & H). by exists i, p, d.
Qed.

Section Entered.

Variable T : StateDef.
Variable mE : StateMachine.
Hypothesis mE_entered : entering T (descent T) mE.
Hypothesis mE_active : mIsActive mE = true.

Lemma mE_tree : hasTree mE T.
Proof. apply mE_entered. Qed.

Lemma settled i p d :
  onDescent T i p d →
  mActive (deref mE (sdName d)) =
  if sdIsParallel d then None else sdName <$> initialChild (sdChildren d).
Proof.
  intros Hd. destruct mE_entered as (Htree & _ & _ & Hj & Hnn).
  pose proof (onDescent_node _ _ _ _ Hd) as Hn.
  destruct (node_fields mE T i p d Htree Hn) as (_ & Fpar & Fini & _).
  destruct (mActive (deref mE (sdName d))) as [c'|] eqn:E.
  - destruct (Hj _ _ E) as (Hc' & Hp' & Hpar). rewrite Fpar in Hpar. rewrite Hpar.
    destruct (descent_onDescent T c' Hc') as (i' & p' & dc & Hdc & <-).
    pose proof (onDescent_node _ _ _ _ Hdc) as Hnc.
    destruct (node_fields mE T i' p' dc Htree Hnc) as (Fp' & _).
    rewrite Fp' in Hp'. subst p'.
    inversion Hdc as [|j q d'' c Hd'' Hpar'' Hc Ej Eq Ec|j q d'' c Hd'' Hpar'' Hc Ej Eq Ec];
      subst.
    + pose proof (onDescent_node _ _ _ _ Hd'') as Hn''.
      destruct Htree as (Hnd & _).
      pose proof (nodes_name_inj T _ _ _ _ _ _ Hnd Hn'' Hn Eq) as [= -> -> ->].
      congruence.
    + pose proof (onDescent_node _ _ _ _ Hd'') as Hn''.
      destruct Htree as (Hnd & _).
      pose proof (nodes_name_inj T _ _ _ _ _ _ Hnd Hn'' Hn Eq) as [= -> -> ->].
      by rewrite Hc.
  - destruct (sdIsParallel d) eqn:Hpar; [done|].
    destruct (initialChild (sdChildren d)) as [c|] eqn:Hc; [|done].
    exfalso. apply (Hnn (sdName d)); [by eapply onDescent_descent|congruence| |done].
    by rewrite Fini.
Qed.

Lemma active_onDescent i p d :
  onDescent T i p d → ∀ k, i < k → isActive k mE (sdName d) = Done true.
Proof.
  induction 1 as [|i p d c Hd IH Hpar Hc|i p d c Hd IH Hpar Hc];
    intros [|k] Hk; try lia; simpl.
  - destruct (node_fields mE T 0 None T mE_tree (nodes_root _ _ _)) as (-> & _).
    by rewrite mE_active.
  - pose proof (onDescent_node _ _ _ _ Hd) as Hn.
    destruct (node_fields mE T (S i) (Some (sdName d)) c mE_tree
                (nodes_child _ _ _ _ _ _ _ Hn Hc)) as (-> & _).
    destruct (node_fields mE T i p d mE_tree Hn) as (_ & -> & _).
    rewrite (settled i p d Hd), Hpar. simpl. apply IH. lia.
  - pose proof (onDescent_node _ _ _ _ Hd) as Hn.
    destruct (node_fields mE T (S i) (Some (sdName d)) c mE_tree
                (nodes_child _ _ _ _ _ _ _ Hn (initialChild_in _ _ Hc))) as (-> & _).
    rewrite (settled i p d Hd), Hpar, Hc. simpl.
    by rewrite bool_decide_eq_true_2.
Qed.

Lemma inactive_offDescent i p d :
  (i, p, d) ∈ nodes 0 None T → sdName d ∉ descent T →
  ∀ k, i < k → isActive k mE (sdName d) = Done false.
Proof.
  intros Hn.
  assert ((i, p, d) ∈ nodes 0 None T ∧
          (sdName d ∉ descent T → ∀ k, i < k → isActive k mE (sdName d) = Done false))
    as [_ H]; [|done].
  revert i p d Hn. apply nodes_ind_down.
  - split; [apply nodes_root|]. intros H. exfalso. apply H, descent_head.
  - intros j q d' c [Hn' Hq] Hc. split; [by eapply nodes_child|].
    intros Hoff [|k] Hk; [lia|]. simpl.
    destruct (node_fields mE T (S j) (Some (sdName d')) c mE_tree
                (nodes_child _ _ _ _ _ _ _ Hn' Hc)) as (-> & _).
    destruct (node_fields mE T j q d' mE_tree Hn') as (_ & -> & _).
    destruct mE_entered as ((Hnd & _) & _ & _ & Hj & _).
    rewrite bool_decide_eq_false_2.
    2:{ intros E. apply Hj in E as (E & _). done. }
    destruct (sdIsParallel d') eqn:Hpar; [|done].
    apply Hq; [|lia]. intros Hon.
    destruct (descent_onDescent T _ Hon) as (i'' & p'' & d'' & Hd'' & E).
    pose proof (onDescent_node _ _ _ _ Hd'') as Hn''.
    pose proof (nodes_name_inj T _ _ _ _ _ _ Hnd Hn'' Hn' E) as [= -> -> ->].
    apply Hoff. eapply onDescent_descent. by eapply onDescent_parallel.
Qed.

(** After the initial descent the active states are the states of the
    descent, and no other name is reported active. *)
Lemma inState_entered x n :
  countStates T ≤ n → inState n mE x = Done (bool_decide (x ∈ descent T)).
Proof.
  intros Hk. destruct mE_entered as (Htree & Hidx & _).
  unfold inState. destruct (decide (x ∈ allNames T)) as [Hx|Hx].
  - destruct (proj2 (Hidx x) Hx) as [s ->].
    destruct Htree as (Hnd & Himpl & _). rewrite Himpl.
    destruct (bool_decide (x = sdName T)) eqn:Hroot.
    + apply bool_decide_eq_true in Hroot as ->.
      rewrite mE_active, bool_decide_eq_true_2; [done|apply descent_head].
    + destruct (name_node T x Hx) as (i & p & d & Hn & <-).
      pose proof (nodes_depth _ _ _ _ Hn) as Hi.
      destruct (decide (sdName d ∈ descent T)) as [Hon|Hoff].
      * rewrite bool_decide_eq_true_2 by done.
        destruct (descent_onDescent T _ Hon) as (i'' & p'' & d'' & Hd'' & E).
        rewrite <- E. apply (active_onDescent _ _ _ Hd'').
        pose proof (nodes_depth _ _ _ _ (onDescent_node _ _ _ _ Hd'')). lia.
      * rewrite bool_decide_eq_false_2 by done.
        apply (inactive_offDescent _ _ _ Hn Hoff). lia.
  - destruct (mAllStates mE !! x) eqn:E.
    + exfalso. apply Hx, Hidx. by eexists.
    + rewrite bool_decide_eq_false_2; [done|]. intros H. by apply Hx, descent_names.
Qed.

Lemma leaveLoop_children n cs :
  Forall (λ c, ∀ rest acc k,
            leaveLoop (length (descent c) + k) n mE (sdName c :: rest) acc =
            leaveLoop k n mE rest (rev (descent c) ++ acc)) cs →
  ∀ rest acc k,
    leaveLoop (length (flat_map descent cs) + k) n mE ((sdName <$> cs) ++ rest) acc =
    leaveLoop k n mE rest (rev (flat_map descent cs) ++ acc).
Proof.
  induction 1 as [|c cs Hc _ IH]; intros rest acc k; [done|].
  rewrite fmap_cons. simpl. rewrite length_app, <- Nat.add_assoc, Hc, IH.
  by rewrite rev_app_distr, app_assoc.
Qed.

Lemma leaveLoop_descent n d :
  countStates T ≤ n →
  ∀ i p, onDescent T i p d →
  ∀ rest acc k,
    leaveLoop (length (descent d) + k) n mE (sdName d :: rest) acc =
    leaveLoop k n mE rest (rev (descent d) ++ acc).
Proof.
  intros Hn. induction d as [d IH] using StateDef_ind'. intros i p Hd rest acc k.
  pose proof (onDescent_node _ _ _ _ Hd) as Hnode.
  pose proof (nodes_depth _ _ _ _ Hnode) as Hi.
  rewrite descent_eq. simpl.
  rewrite (active_onDescent i p d Hd) by lia. simpl.
  destruct (node_fields mE T i p d mE_tree Hnode) as (_ & -> & _ & -> & _).
  rewrite (settled i p d Hd).
  destruct (sdIsParallel d) eqn:Hpar.
  - rewrite leaveLoop_children; [by rewrite <- app_assoc|].
    rewrite Forall_forall in IH |- *. intros c Hc rest' acc' k'.
    eapply IH; [done|]. by eapply onDescent_parallel.
  - destruct (initialChild (sdChildren d)) as [c|] eqn:Hc; simpl; [|done].
    rewrite Forall_forall in IH.
    rewrite (IH c (initialChild_in _ _ Hc) (S i) (Some (sdName d)));
      [by rewrite <- app_assoc|].
    by eapply onDescent_initial.
Qed.

Lemma leaveLoop_entered n :
  countStates T ≤ n → leaveLoop n n mE [mImpl mE] [] = Done (rev (descent T)).
Proof.
  intros Hn. destruct mE_tree as (_ & -> & _).
  pose proof (length_descent T) as Hl.
  replace n with (length (descent T) + (n - length (descent T))) at 1 by lia.
  rewrite (leaveLoop_descent n T Hn 0 None); [|constructor].
  rewrite app_nil_r. by destruct (n - _).
Qed.

End Entered.

(** ** Leaving what the descent entered *)

Lemma leaveLinks_cases y m :
  (∃ q, mParent (deref m y) = Some q ∧ mIsParallel (deref m q) = false ∧
        leaveLinks y m = writeActive q None m) ∨
  ((∀ q, mParent (deref m y) = Some q → mIsParallel (deref m q) = true) ∧
   leaveLinks y m = m).
Proof.
  unfold leaveLinks. destruct (mParent (deref m y)) as [q|]; [|by right].
  destruct (mIsParallel (deref m q)) eqn:Hq.
  - right. split; [|done]. by intros ? [= <-].
  - left. by exists q.
Qed.

Lemma leaves_clear l :
  ∀ m, justified m l → allClear (foldl (λ m' y, leaveLinks y m') m l).
Proof.
  induction l as [|y l IH]; intros m Hj; simpl.
  - intros x. destruct (mActive (deref m x)) as [c|] eqn:E; [|done].
    apply Hj in E as (E & _). by apply elem_of_nil in E.
  - apply IH. destruct (leaveLinks_cases y m) as [(q & Hp & Hq & ->)|[Hp ->]].
    + intros x c E. pose proof (justified_clear m (y :: l) q Hj x c E) as (Hc & Hpc & Hx).
      split; [|done]. apply elem_of_cons in Hc as [->|Hc]; [exfalso|done].
      destruct (fields_writeActive q None m y) as (Hy & _).
      rewrite Hy, Hp in Hpc. injection Hpc as <-.
      rewrite deref_writeActive, decide_True in E by done.
      by destruct (deref m q).
    + intros x c E. destruct (Hj x c E) as (Hc & Hpc & Hx).
      split; [|done]. apply elem_of_cons in Hc as [->|Hc]; [exfalso|done].
      specialize (Hp x Hpc). congruence.
Qed.

Lemma leaves_sameTopology l :
  ∀ m, sameTopology m (foldl (λ m' y, leaveLinks y m') m l).
Proof.
  induction l as [|y l IH]; intros m; simpl; [done|].
  eapply sameTopology_trans; [apply (leaveLinks_sameTopology y)|apply IH].
Qed.

Lemma leaveLinks_sameFlags y m :
  sameFlags m (leaveLinks y m) ∧ hostLog (leaveLinks y m) = hostLog m.
Proof. by destruct (leaveLinks_cases y m) as [(q & _ & _ & ->)|[_ ->]]. Qed.

Lemma leaves_sameFlags l :
  ∀ m, sameFlags m (foldl (λ m' y, leaveLinks y m') m l) ∧
       hostLog (foldl (λ m' y, leaveLinks y m') m l) = hostLog m.
Proof.
  induction l as [|y l IH]; intros m; simpl; [done|].
  destruct (leaveLinks_sameFlags y m) as [F1 L1].
  destruct (IH (leaveLinks y m)) as [F2 L2].
  split; [by eapply sameFlags_trans|congruence].
Qed.

Lemma leaves_indexed T l :
  ∀ m, (∀ y, y ∈ l → y ∈ descent T) → hasTree m T → indexed m T →
       indexed (foldl (λ m' y, leaveLinks y m') m l) T.
Proof.
  induction l as [|y l IH]; intros m Hl Htree Hidx; simpl; [done|].
  apply IH.
  - intros z Hz. apply Hl. by right.
  - eapply hasTree_sameTopology; [done|apply leaveLinks_sameTopology].
  - destruct (leaveLinks_cases y m) as [(q & Hp & Hq & ->)|[Hp ->]]; [|done].
    apply indexed_write; [done|].
    destruct (descent_onDescent T y) as (i & p & d & Hd & <-); [apply Hl; left|].
    pose proof (onDescent_node _ _ _ _ Hd) as Hn.
    destruct (node_fields m T i p d Htree Hn) as (Fp & _).
    rewrite Fp in Hp. subst p. by eapply nodes_parent_in.
Qed.

(** With every pointer cleared and the machine inactive no state is
    active. *)
Lemma inactive_all m T :
  hasTree m T → allClear m → mIsActive m = false →
  ∀ x k, countStates T ≤ k → isActive k m x = Done false.
Proof.
  intros Htree Hclear Hoff x k Hk.
  assert (0 < countStates T) as Hpos.
  { unfold countStates. rewrite allNames_eq. simpl. lia. }
  destruct (decide (x ∈ allNames T)) as [Hx|Hx].
  - destruct (name_node T x Hx) as (i & p & d & Hn & <-).
    pose proof (nodes_depth _ _ _ _ Hn) as Hi.
    assert ((i, p, d) ∈ nodes 0 None T ∧
            ∀ k, i < k → isActive k m (sdName d) = Done false) as [_ H];
      [|apply H; lia].
    clear Hk Hi Hx k. revert i p d Hn. apply nodes_ind_down.
    + split; [apply nodes_root|]. intros [|k] Hk; [lia|]. simpl.
      destruct (node_fields m T 0 None T Htree (nodes_root _ _ _)) as (-> & _).
      by rewrite Hoff.
    + intros j q d' c [Hn' Hq] Hc. split; [by eapply nodes_child|].
      intros [|k] Hk; [lia|]. simpl.
      destruct (node_fields m T (S j) (Some (sdName d')) c Htree
                  (nodes_child _ _ _ _ _ _ _ Hn' Hc)) as (-> & _).
      rewrite Hclear. simpl.
      destruct (mIsParallel (deref m (sdName d'))); [|done]. apply Hq. lia.
  - destruct Htree as (_ & _ & Hout & _). specialize (Hout x Hx).
    destruct k as [|k]; [lia|]. simpl.
    assert (mParent (deref m x) = None) as ->; [|by rewrite Hoff].
    change StateImpl_new with (shape StateImpl_new) in Hout.
    apply shape_fields in Hout as (_ & -> & _). done.
Qed.

Lemma inState_inactive m T :
  hasTree m T → allClear m → mIsActive m = false →
  ∀ x n, countStates T ≤ n → inState n m x = Done false.
Proof.
  intros Htree Hclear Hoff x n Hn. unfold inState.
  destruct (mAllStates m !! x); [|done].
  destruct (bool_decide (x = mImpl m)); [by rewrite Hoff|].
  by eapply inactive_all.
Qed.

Lemma entering_addLog T done l m : entering T done m → entering T done (addLog l m).
Proof. intros H. exact H. Qed.

Lemma entering_setIsActive T done b m :
  entering T done m → entering T done (setIsActive b m).
Proof. intros H. exact H. Qed.

Lemma justified_rev m l : justified m l → justified m (rev l).
Proof.
  intros H x c E. destruct (H x c E) as (Hc & ?). split; [|done].
  by apply list_elem_of_In, in_rev, list_elem_of_In in Hc.
Qed.

Lemma quiet_entry m T y :
  hasTree m T → quiet T → y ∈ descent T →
  pushes (concat (mOnEntryActions (deref m y))) = [] ∧
  pushes (concat (mOnExitActions (deref m y))) = [].
Proof.
  intros Htree Hq Hy.
  destruct (descent_onDescent T y Hy) as (i & p & d & Hd & <-).
  pose proof (onDescent_node _ _ _ _ Hd) as Hn.
  destruct (node_fields m T i p d Htree Hn) as (_ & _ & _ & _ & -> & -> & _).
  apply (Hq p d). by eapply nodes_in_links.
Qed.

Lemma StateMachine_new_indexed n params m0 :
  StateMachine_new n params = Done m0 → indexed m0 (asRoot params).
Proof.
  unfold StateMachine_new. set (T := asRoot params). clearbody T. intros H.
  apply bind_Done in H as (st & Ha & H).
  apply bind_Done in H as (st' & Hb & [= <-]).
  apply allocLoop_spec in Ha as (Hnd & _ & Hst). simpl in Hnd, Hst.
  rewrite app_nil_r in Hnd, Hst.
  apply buildLoop_spec in Hb as [H1 H2]; simpl; rewrite ?app_nil_r, ?links_names.
  - simpl in H1, H2. rewrite app_nil_r in H1, H2. rewrite links_names in H2.
    intros x. simpl. destruct (decide (x ∈ allNames T)) as [Hx|Hx].
    + split; [done|]. intros _.
      rewrite <- (links_names None) in Hx.
      apply list_elem_of_fmap in Hx as ([p d] & -> & Hpd).
      specialize (H1 (p, d) Hpd). by eexists.
    + split; [|done]. rewrite H2, Hst by done. rewrite decide_False by done.
      by intros [? ?].
  - done.
  - intros pd Hpd. rewrite Hst. rewrite decide_True; [done|].
    destruct pd as [p d]. by eapply links_name_in.
Qed.

Lemma exitCmds_sameTopology m m' l :
  sameTopology m m' → exitCmds m' l = exitCmds m l.
Proof.
  intros H. unfold exitCmds. apply flat_map_ext. intros y.
  by rewrite (sameTopology_exitActions m m').
Qed.

Lemma entryCmds_sameTopology m m' l :
  sameTopology m m' → entryCmds m' l = entryCmds m l.
Proof.
  intros H. unfold entryCmds. apply flat_map_ext. intros y.
  by rewrite (sameTopology_entryActions m m').
Qed.

(** ** A round of [enter()] and [leave()] with callbacks that push nothing *)

Section QuietRound.

Variable m0 : StateMachine.
Variable T : StateDef.
Variable n : nat.
Hypothesis m0_checked : initialsChecked m0.
Hypothesis m0_tree : hasTree m0 T.
Hypothesis T_quiet : quiet T.
Hypothesis n_enough : countStates T ≤ n.

Lemma enter_clean m :
  atRest m0 m → indexed m T → allClear m → mIsActive m = false →
  ∃ mS,
    enter n m = Done (addLog (says (entryCmds m0 (descent T))) mS) ∧
    enter n m =
      forEach (StateImpl_enter (pushEvent n)) (descent T) (setIsActive true m) ∧
    entering T (descent T) mS ∧ mIsActive mS = true ∧ hostLog mS = hostLog m.
Proof.
  intros Hm Hidx Hclear Hoff.
  pose proof (atRest_hasTree m0 T m0_tree m Hm) as Htree.
  pose proof (length_descent T) as Hlen.
  assert (enter n m =
          forEach (StateImpl_enter (pushEvent n)) (descent T) (setIsActive true m)) as E.
  { unfold enter. apply (enter'_descent m0 T n m0_checked m0_tree); [done..|lia]. }
  destruct (enters_links T (descent T) [] (setIsActive true m)) as (mS & Hl & He & Hf & Hlog).
  { done. }
  { split; [done|]. split; [done|]. split; [by eapply atRest_checked|].
    split; [|by intros y ?%elem_of_nil].
    intros x c Hx. change (deref (setIsActive true m) x) with (deref m x) in Hx.
    by rewrite Hclear in Hx. }
  exists mS. rewrite E. split; [|split; [done|]].
  - rewrite enters_quiet.
    + rewrite Hl. simpl. f_equal. f_equal. f_equal.
      destruct Hm as [Hm _].
      apply (entryCmds_sameTopology m0 (setIsActive true m)).
      eapply sameTopology_trans; [done|apply sameTopology_setIsActive].
    + intros y Hy. by apply (quiet_entry (setIsActive true m) T).
  - split; [done|]. split; [by destruct Hf as (-> & _)|done].
Qed.

Lemma leave_entered m1 :
  entering T (descent T) m1 → mIsActive m1 = true →
  leave n m1 =
    (forEach (StateImpl_leave (pushEvent n)) (rev (descent T)) m1
       ≫= λ m, Done (setIsActive false m)) ∧
  leave n m1 =
    Done (setIsActive false
            (addLog (says (exitCmds m1 (rev (descent T))))
               (foldl (λ m' y, leaveLinks y m') m1 (rev (descent T))))).
Proof.
  intros He Hon. unfold leave, leave'. rewrite Hon. simpl.
  rewrite (leaveLoop_entered T m1 He Hon n n_enough). simpl.
  split; [done|]. rewrite leaves_quiet; [done|].
  intros y Hy. apply (quiet_entry m1 T); [apply He|done|].
  by apply list_elem_of_In, in_rev, list_elem_of_In in Hy.
Qed.

(** The machine after [enter()] and [leave()] is as clean as before. *)
Lemma round_clean m :
  atRest m0 m → indexed m T → allClear m → mIsActive m = false →
  ∃ m1 m2,
    enter n m = Done m1 ∧ leave n m1 = Done m2 ∧
    enter n m =
      forEach (StateImpl_enter (pushEvent n)) (descent T) (setIsActive true m) ∧
    leave n m1 =
      (forEach (StateImpl_leave (pushEvent n)) (rev (descent T)) m1
         ≫= λ m', Done (setIsActive false m')) ∧
    hostLog m1 = hostLog m ++ says (entryCmds m0 (descent T)) ∧
    hostLog m2 = hostLog m1 ++ says (exitCmds m0 (rev (descent T))) ∧
    (∀ x, inState n m1 x = Done (bool_decide (x ∈ descent T))) ∧
    atRest m0 m2 ∧ indexed m2 T ∧ allClear m2 ∧ mIsActive m2 = false.
Proof.
  intros Hm Hidx Hclear Hoff.
  destruct (enter_clean m Hm Hidx Hclear Hoff) as (mS & E1 & E1' & He & Hon & Hlog).
  set (m1 := addLog (says (entryCmds m0 (descent T))) mS) in *.
  assert (entering T (descent T) m1) as He1 by by apply entering_addLog.
  destruct (leave_entered m1 He1 Hon) as [E2' E2].
  pose proof (triple_enter m0 m0_checked n m Hm) as R1. rewrite E1 in R1.
  pose proof (triple_leave m0 m0_checked n m1 R1) as R2. rewrite E2 in R2.
  eexists m1, _. split; [done|]. split; [exact E2|].
  split; [done|]. split; [done|].
  split; [by unfold m1; simpl; rewrite Hlog|].
  split.
  { simpl. destruct (leaves_sameFlags (rev (descent T)) m1) as [_ ->].
    f_equal. f_equal. apply exitCmds_sameTopology. by destruct R1. }
  split; [intros x; by apply (inState_entered T m1 He1 Hon)|].
  split; [done|].
  split.
  { apply (leaves_indexed T (rev (descent T)) m1); [|apply He1..].
    intros y Hy. by apply list_elem_of_In, in_rev, list_elem_of_In in Hy. }
  split; [|done].
  apply (leaves_clear (rev (descent T)) m1). apply justified_rev, He1.
Qed.

End QuietRound.

Lemma quiet_Forall T :
  Forall (λ pd : option string * StateDef,
            pushes (concat (sdOnEntryActions pd.2)) = [] ∧
            pushes (concat (sdOnExitActions pd.2)) = []) (links None T) →
  quiet T.
Proof. intros H p d Hpd. rewrite Forall_forall in H. exact (H (p, d) Hpd). Qed.

(** ** Symmetry of [enter()] and [leave()] *)




(** The root of [Scenario.PushOnEntry] pushes an event from its entry
    callback.  During [enter()] no event loop runs, so the event is served
    at once, before the initial descent enters S1: the transition of S1
    exits S1 and enters S2 and S2A, and the descent then enters S1 over
    them.  [leave()] exits S1 and the root only; S2A stays active, and its
    exit callback never runs. *)
Remark pushing_entry_callback_breaks_symmetry :
  ¬ (∀ n params m name,
       session n params [CallEnter; CallLeave] = Done m →
       inState n m name = Done false).
Proof.
  intros H.
  destruct (session 12 Scenario.PushOnEntry [CallEnter; CallLeave]) as [m| |] eqn:E;
    [|by vm_compute in E..].
  specialize (H 12 _ m "S2A" E).
  vm_compute in E. injection E as <-. by vm_compute in H.
Qed.

(** ** Round trip *)

(** X21: for machines whose entry and exit callbacks only log, calling
    neither [pushEvent] nor [enter()] nor [leave()]: the answers of
    [inState] after [enter()] and after [enter()], [leave()], [enter()] are
    the same, for every name; both times the active states are those of
    the initial descent. *)
Theorem quiet_round_trip :
  ∀ n0 params m0 n,
    StateMachine_new n0 params = Done m0 →
    quiet (asRoot params) → countStates (asRoot params) ≤ n →
    ∃ m1 m3,
      calls n [CallEnter] m0 = Done m1 ∧
      calls n [CallEnter; CallLeave; CallEnter] m0 = Done m3 ∧
      ∀ name,
        inState n m1 name = Done (bool_decide (name ∈ descent (asRoot params))) ∧
        inState n m3 name = inState n m1 name.
Proof.
  intros n0 params m0 n Hnew Hq Hn.
  destruct (StateMachine_new_atRest _ _ _ Hnew) as [Hchk Hrest].
  destruct (StateMachine_new_hasTree _ _ _ Hnew) as (Htree & Hclear & Hoff & Hlog).
  pose proof (StateMachine_new_indexed _ _ _ Hnew) as Hidx.
  destruct (round_clean m0 (asRoot params) n Hchk Htree Hq Hn m0 Hrest Hidx Hclear Hoff)
    as (m1 & m2 & E1 & E2 & _ & _ & _ & _ & A1 & R2 & I2 & C2 & O2).
  destruct (round_clean m0 (asRoot params) n Hchk Htree Hq Hn m2 R2 I2 C2 O2)
    as (m3 & m4 & E3 & _ & _ & _ & _ & _ & A3 & _).
  exists m1, m3. unfold calls. cbn [forEach call].
  rewrite E1. cbn [mbind result_bind mret result_ret]. rewrite E2.
  cbn [mbind result_bind]. rewrite E3.
  split; [done|]. split; [done|].
  intros name. by rewrite A1, A3.
Qed.

Lemma quiet_round_trip_witness :
  ∃ m0 m1 m3,
    StateMachine_new 12 Scenario.ChildOnEntry = Done m0 ∧
    quiet (asRoot Scenario.ChildOnEntry) ∧
    countStates (asRoot Scenario.ChildOnEntry) ≤ 12 ∧
    calls 12 [CallEnter] m0 = Done m1 ∧
    calls 12 [CallEnter; CallLeave; CallEnter] m0 = Done m3 ∧
    ∀ name, inState 12 m3 name = inState 12 m1 name.
Proof.
  destruct (StateMachine_new 12 Scenario.ChildOnEntry) as [m0| |] eqn:Hnew;
    [|by vm_compute in Hnew..].
  assert (quiet (asRoot Scenario.ChildOnEntry)) as Hq.
  { apply quiet_Forall. vm_compute. repeat constructor. }
  assert (countStates (asRoot Scenario.ChildOnEntry) ≤ 12) as Hn.
  { vm_compute. lia. }
  destruct (quiet_round_trip 12 Scenario.ChildOnEntry m0 12 Hnew Hq Hn)
    as (m1 & m3 & E1 & E3 & Hin).
  exists m0, m1, m3. repeat (split; [done|]).
  intros name. by destruct (Hin name).
Defined.

(** C8: the round trip fails on [Scenario.PushOnEntry].  The event its
    root pushes while entering is served inside [enter()] and moves the
    machine to S2A; [leave()] does not leave S2A; the second [enter()]
    serves the event again and moves the machine from S2A to S2B.  So S2A
    answers true to [inState] after the first [enter()] and false after
    the second. *)
Lemma pushing_entry_callback_breaks_round_trip :
  ¬ (∀ n params m1 m3 name,
       session n params [CallEnter] = Done m1 →
       session n params [CallEnter; CallLeave; CallEnter] = Done m3 →
       inState n m1 name = inState n m3 name).
Proof.
  intros H.
  destruct (session 12 Scenario.PushOnEntry [CallEnter]) as [m1| |] eqn:E1;
    [|by vm_compute in E1..].
  destruct (session 12 Scenario.PushOnEntry [CallEnter; CallLeave; CallEnter])
    as [m3| |] eqn:E3; [|by vm_compute in E3..].
  specialize (H 12 _ m1 m3 "S2A" E1 E3).
  vm_compute in E1. injection E1 as <-.
  vm_compute in E3. injection E3 as <-. by vm_compute in H.
Qed.

(** ** The index of states after construction *)

Section Kept.

Variable m0 : StateMachine.
Variable T : StateDef.
Hypothesis m0_checked : initialsChecked m0.
Hypothesis m0_tree : hasTree m0 T.

Lemma kept_tree m : kept T m0 m → hasTree m T.
Proof. intros [H _]. by eapply hasTree_sameTopology. Qed.

Lemma kept_checked m : kept T m0 m → initialsChecked m.
Proof. intros [H _]. by apply (sameTopology_initialsChecked m0). Qed.

Lemma named_or_new m x :
  hasTree m T → x ∈ allNames T ∨ shape (deref m x) = StateImpl_new.
Proof.
  intros (_ & _ & Hout & _).
  destruct (decide (x ∈ allNames T)) as [Hx|Hx]; [by left|right; by apply Hout].
Qed.

(** The engine assigns [mActive] of states of the tree only. *)
Lemma pointedAt_named m p : hasTree m T → pointedAt m p → p ∈ allNames T.
Proof.
  intros Htree [Hi|[x Hx]].
  - destruct (named_or_new m p Htree) as [H|H]; [done|]. exfalso. apply Hi.
    change StateImpl_new with (shape StateImpl_new) in H.
    by apply shape_fields in H as (_ & _ & _ & -> & _).
  - destruct (named_or_new m x Htree) as [H|H].
    + destruct (name_node T x H) as (i & q & d & Hn & <-).
      destruct (node_fields m T i q d Htree Hn) as (Fp & _).
      rewrite Fp in Hx. subst q. by eapply nodes_parent_in.
    + change StateImpl_new with (shape StateImpl_new) in H.
      apply shape_fields in H as (_ & Hp & _). by rewrite Hp in Hx.
Qed.

Lemma kept_writeActive p v m :
  kept T m0 m → pointedAt m p → kept T m0 (writeActive p v m).
Proof.
  intros Hm Hp. pose proof (kept_tree m Hm) as Htree. destruct Hm as [H1 H2]. split.
  - eapply sameTopology_trans; [done|apply sameTopology_writeActive].
  - apply indexed_write; [done|]. by apply (pointedAt_named m).
Qed.

Lemma kept_say l m : kept T m0 m → kept T m0 (say l m).
Proof.
  intros [H1 H2]. split; [|done].
  eapply sameTopology_trans; [done|apply sameTopology_say].
Qed.

Lemma kept_setIsActive b m : kept T m0 m → kept T m0 (setIsActive b m).
Proof.
  intros [H1 H2]. split; [|done].
  eapply sameTopology_trans; [done|apply sameTopology_setIsActive].
Qed.

Lemma kept_setEvents q m : kept T m0 m → kept T m0 (setEvents q m).
Proof.
  intros [H1 H2]. split; [|done].
  eapply sameTopology_trans; [done|apply sameTopology_setEvents].
Qed.

Lemma kept_setInToplevelProcess b m :
  kept T m0 m → kept T m0 (setInToplevelProcess b m).
Proof.
  intros [H1 H2]. split; [|done].
  eapply sameTopology_trans; [done|apply sameTopology_setInToplevelProcess].
Qed.

Lemma triple_processLoop_kept pe k n :
  (∀ e, triple (kept T m0) (pe e) (kept T m0)) →
  triple (kept T m0) (processLoop pe k n) (kept T m0).
Proof.
  intros Hpe. induction k as [|k IH]; intros m Hm; simpl.
  - by destruct (mEvents m).
  - destruct (mEvents m) as [|e q] eqn:Hq; [done|].
    pose proof (triple_processTransitions pe (kept T m0) kept_checked kept_writeActive
                  kept_say Hpe n e m Hm) as H.
    destruct (processTransitions pe n e m) as [m1| |]; simpl; [|done..].
    apply IH. by apply kept_setEvents.
Qed.

Lemma triple_pushEvent_kept n e : triple (kept T m0) (pushEvent n e) (kept T m0).
Proof.
  revert e. induction n as [|n IH]; intros e m Hm; [done|].
  change (pushEvent (S n) e m)
    with (processEvents (pushEvent n) n (setEvents (mEvents m ++ [e]) m)).
  unfold processEvents. cbn [mInToplevelProcess setEvents].
  destruct (mInToplevelProcess m) eqn:Hf; [by apply kept_setEvents|].
  set (m1 := setInToplevelProcess true (setEvents (mEvents m ++ [e]) m)).
  assert (kept T m0 m1) as Hm1 by by apply kept_setInToplevelProcess, kept_setEvents.
  pose proof (triple_processLoop_kept (pushEvent n) n n IH m1 Hm1) as H.
  destruct (processLoop (pushEvent n) n n m1) as [m2| |]; simpl; [|done..].
  by apply kept_setInToplevelProcess.
Qed.

Lemma triple_call_kept n c : triple (kept T m0) (call n c) (kept T m0).
Proof.
  destruct c; simpl.
  - apply triple_enter'; auto using kept_checked, kept_writeActive, kept_say,
      kept_setIsActive, triple_pushEvent_kept.
  - apply triple_leave'; auto using kept_writeActive, kept_say,
      kept_setIsActive, triple_pushEvent_kept.
  - apply triple_pushEvent_kept.
Qed.

Lemma triple_calls_kept n cs : triple (kept T m0) (calls n cs) (kept T m0).
Proof. apply triple_forEach. intros. apply triple_call_kept. Qed.

End Kept.

Lemma StateMachine_new_kept n0 params m0 n cs m :
  StateMachine_new n0 params = Done m0 → calls n cs m0 = Done m →
  kept (asRoot params) m0 m ∧ atRest m0 m.
Proof.
  intros Hnew Hcs.
  destruct (StateMachine_new_atRest _ _ _ Hnew) as [Hchk Hrest].
  destruct (StateMachine_new_hasTree _ _ _ Hnew) as (Htree & _).
  pose proof (StateMachine_new_indexed _ _ _ Hnew) as Hidx.
  split.
  - pose proof (triple_calls_kept m0 (asRoot params) Hchk Htree n cs m0) as H.
    rewrite Hcs in H. apply H. split; [apply sameTopology_refl|done].
  - pose proof (triple_calls m0 Hchk n cs m0 Hrest) as H. by rewrite Hcs in H.
Qed.

(** ** Selection reads the store, the active flag and the host's log only *)

Section SameStore.

Variables m m' : StateMachine.
Hypothesis store_eq : mAllStates m' = mAllStates m.
Hypothesis active_eq : mIsActive m' = mIsActive m.
Hypothesis impl_eq : mImpl m' = mImpl m.
Hypothesis log_eq : hostLog m' = hostLog m.

Lemma deref_store p : deref m' p = deref m p.
Proof. unfold deref. by rewrite store_eq. Qed.

Lemma isActive_store k p : isActive k m' p = isActive k m p.
Proof.
  revert p. induction k as [|k IH]; intros p; simpl; [done|].
  rewrite deref_store. destruct (mParent (deref m p)) as [q|]; [|by rewrite active_eq].
  rewrite deref_store. by rewrite IH.
Qed.

Lemma atomicAndActive_store n p : atomicAndActive n m' p = atomicAndActive n m p.
Proof. unfold atomicAndActive. by rewrite deref_store, isActive_store. Qed.

Lemma fetchNext_store l : fetchNext m' l = fetchNext m l.
Proof. destruct l; simpl; [done|]. by rewrite deref_store. Qed.

Lemma lookupNextValidState_store k n l :
  lookupNextValidState k n m' l = lookupNextValidState k n m l.
Proof.
  revert l. induction k as [|k IH]; intros [|p l]; simpl; try done;
    rewrite atomicAndActive_store; [done|].
  rewrite deref_store. by rewrite IH.
Qed.

Lemma collectAtomics_store k n l acc :
  collectAtomics k n m' l acc = collectAtomics k n m l acc.
Proof.
  revert l acc. induction k as [|k IH]; intros [|p l] acc; simpl; try done.
  rewrite deref_store, lookupNextValidState_store.
  destruct (lookupNextValidState n n m _); simpl; [|done..]. apply IH.
Qed.

Lemma activeAtomics_store n : activeAtomics n m' = activeAtomics n m.
Proof.
  unfold activeAtomics. rewrite impl_eq, lookupNextValidState_store.
  destruct (lookupNextValidState n n m _); simpl; [|done..]. apply collectAtomics_store.
Qed.

Lemma enabled_store e p : enabled m' e p = enabled m e p.
Proof.
  unfold enabled. rewrite deref_store. apply list_filter_iff. intros t.
  unfold test. by rewrite log_eq, active_eq.
Qed.

Lemma innermost_store e a hits : innermost m e a hits → innermost m' e a hits.
Proof.
  induction 1 as [p Hp|p q hits Hp Hq _ IH|p Hp Hq].
  - rewrite <- enabled_store. apply innermost_here. by rewrite enabled_store.
  - apply innermost_up with q; [by rewrite enabled_store|by rewrite deref_store|done].
  - apply innermost_none; [by rewrite enabled_store|by rewrite deref_store].
Qed.

End SameStore.

(** ** Selection returns *)

Lemma innermost_unique m e a hits hits' :
  innermost m e a hits → innermost m e a hits' → hits = hits'.
Proof.
  induction 1 as [p Hp|p q hits Hp Hq _ IH|p Hp Hq]; inversion 1; subst;
    try done; try congruence.
  apply IH. congruence.
Qed.

Section Selection.

Variable m : StateMachine.
Variable T : StateDef.
Hypothesis m_tree : hasTree m T.

Lemma countStates_pos : 0 < countStates T.
Proof. unfold countStates. rewrite allNames_eq. simpl. lia. Qed.

(** [isActive] returns: it climbs no further than the root. *)
Lemma isActive_returns x k : countStates T ≤ k → ∃ b, isActive k m x = Done b.
Proof.
  intros Hk. pose proof countStates_pos as Hpos.
  destruct (named_or_new T m x m_tree) as [Hx|Hx].
  - destruct (name_node T x Hx) as (i & p & d & Hn & <-).
    pose proof (nodes_depth _ _ _ _ Hn) as Hi.
    assert ((i, p, d) ∈ nodes 0 None T ∧
            ∀ k, i < k → ∃ b, isActive k m (sdName d) = Done b) as [_ H];
      [|apply H; lia].
    clear Hk Hi Hx k. revert i p d Hn. apply nodes_ind_down.
    + split; [apply nodes_root|]. intros [|k] Hk; [lia|]. simpl.
      destruct (node_fields m T 0 None T m_tree (nodes_root _ _ _)) as (-> & _).
      by eexists.
    + intros j q d' c [Hn' Hq] Hc. split; [by eapply nodes_child|].
      intros [|k] Hk; [lia|]. simpl.
      destruct (node_fields m T (S j) (Some (sdName d')) c m_tree
                  (nodes_child _ _ _ _ _ _ _ Hn' Hc)) as (-> & _).
      destruct (bool_decide _); [by eexists|].
      destruct (mIsParallel (deref m (sdName d'))); [|by eexists]. apply Hq. lia.
  - destruct k as [|k]; [lia|]. simpl.
    change StateImpl_new with (shape StateImpl_new) in Hx.
    apply shape_fields in Hx as (_ & -> & _). by eexists.
Qed.

(** The walk toward the root returns what [innermost] describes. *)
Lemma walkUp_returns e :
  ∀ i p d, (i, p, d) ∈ nodes 0 None T →
    ∀ k acc, i < k →
      ∃ hits, walkUp k m e (Some (sdName d)) acc = Done (acc ++ hits) ∧
              innermost m e (sdName d) hits.
Proof.
  assert (∀ i p d, (i, p, d) ∈ nodes 0 None T →
            (i, p, d) ∈ nodes 0 None T ∧
            ∀ k acc, i < k →
              ∃ hits, walkUp k m e (Some (sdName d)) acc = Done (acc ++ hits) ∧
                      innermost m e (sdName d) hits) as H;
    [|intros i p d Hn; by apply (H i p d)].
  apply nodes_ind_down.
  - split; [apply nodes_root|]. intros [|k] acc Hk; [lia|]. simpl.
    fold (enabled m e (sdName T)).
    destruct (node_fields m T 0 None T m_tree (nodes_root _ _ _)) as (Hp & _).
    destruct (bool_decide (enabled m e (sdName T) = [])) eqn:Hd; simpl.
    + apply bool_decide_eq_true in Hd. rewrite Hp. exists [].
      rewrite Hd, !app_nil_r. split; [by destruct k|by apply innermost_none].
    + apply bool_decide_eq_false in Hd. eexists. split; [done|by apply innermost_here].
  - intros j q d' c [Hn' Hq] Hc. split; [by eapply nodes_child|].
    intros [|k] acc Hk; [lia|]. simpl. fold (enabled m e (sdName c)).
    destruct (node_fields m T (S j) (Some (sdName d')) c m_tree
                (nodes_child _ _ _ _ _ _ _ Hn' Hc)) as (Hp & _).
    destruct (bool_decide (enabled m e (sdName c) = [])) eqn:Hd; simpl.
    + apply bool_decide_eq_true in Hd. rewrite Hp, Hd, app_nil_r.
      destruct (Hq k acc) as (hits & Hw & Hi); [lia|].
      exists hits. split; [done|]. by apply innermost_up with (sdName d').
    + apply bool_decide_eq_false in Hd. eexists. split; [done|by apply innermost_here].
Qed.

End Selection.

(** The depth-first iterator of [selectTransitions] visits the tree once:
    its stack holds the roots of disjoint subtrees still to visit, and
    every step pops one state and pushes its children. *)
Section Iterator.

Variable m : StateMachine.
Variable T : StateDef.
Variable n : nat.
Hypothesis m_tree : hasTree m T.
Hypothesis n_enough : countStates T ≤ n.

Lemma fetchNext_node d F :
  (∃ i p, (i, p, d) ∈ nodes 0 None T) →
  fetchNext m (map sdName (d :: F)) = map sdName (sdChildren d ++ F).
Proof.
  intros (i & p & Hn). simpl.
  destruct (node_fields m T i p d m_tree Hn) as (_ & _ & _ & -> & _).
  by rewrite map_app.
Qed.

Lemma children_nodes d F :
  Forall (λ d, ∃ i p, (i, p, d) ∈ nodes 0 None T) (d :: F) →
  Forall (λ d, ∃ i p, (i, p, d) ∈ nodes 0 None T) (sdChildren d ++ F).
Proof.
  intros H. apply Forall_cons in H as [(i & p & Hn) HF].
  apply Forall_app. split; [|done].
  apply Forall_forall. intros c Hc. eexists _, _. by eapply nodes_child.
Qed.

Lemma weight_children d F :
  length (flat_map allNames (d :: F)) =
  S (length (flat_map allNames (sdChildren d ++ F))).
Proof. simpl. rewrite (allNames_eq d), flat_map_app, !length_app. simpl. done. Qed.

Lemma lookupNextValidState_returns k F :
  Forall (λ d, ∃ i p, (i, p, d) ∈ nodes 0 None T) F →
  length (flat_map allNames F) ≤ k →
  ∃ F', lookupNextValidState k n m (map sdName F) = Done (map sdName F') ∧
        Forall (λ d, ∃ i p, (i, p, d) ∈ nodes 0 None T) F' ∧
        length (flat_map allNames F') ≤ length (flat_map allNames F).
Proof.
  revert F. induction k as [|k IH]; intros [|d F] HF Hk.
  - by exists [].
  - rewrite weight_children in Hk. lia.
  - by exists [].
  - cbn [lookupNextValidState map].
    assert (∃ b, atomicAndActive n m (sdName d) = Done b) as [b ->].
    { unfold atomicAndActive. destruct (isAtomic _); [|by eexists].
      by apply (isActive_returns m T). }
    cbn [mbind result_bind]. destruct b.
    + by exists (d :: F).
    + change (sdName d :: map sdName F) with (map sdName (d :: F)).
      rewrite fetchNext_node by by apply Forall_cons in HF as [? _].
      rewrite weight_children in Hk.
      destruct (IH (sdChildren d ++ F)) as (F' & E & HF' & Hw);
        [by apply children_nodes|lia|].
      exists F'. split; [done|]. split; [done|]. rewrite weight_children. lia.
Qed.

Lemma collectAtomics_returns k F acc :
  Forall (λ d, ∃ i p, (i, p, d) ∈ nodes 0 None T) F →
  length (flat_map allNames F) ≤ k → k ≤ n →
  ∃ atomics, collectAtomics k n m (map sdName F) acc = Done (acc ++ atomics) ∧
             ∀ a, a ∈ atomics → a ∈ allNames T.
Proof.
  revert F acc. induction k as [|k IH]; intros [|d F] acc HF Hk Hn.
  - exists []. by rewrite app_nil_r; split; [|intros a ?%elem_of_nil].
  - rewrite weight_children in Hk. lia.
  - exists []. by rewrite app_nil_r; split; [|intros a ?%elem_of_nil].
  - cbn [collectAtomics map].
    change (sdName d :: map sdName F) with (map sdName (d :: F)).
    rewrite fetchNext_node by by apply Forall_cons in HF as [? _].
    rewrite weight_children in Hk.
    destruct (lookupNextValidState_returns n (sdChildren d ++ F))
      as (F' & -> & HF' & Hw); [by apply children_nodes|lia|].
    cbn [mbind result_bind].
    destruct (IH F' (acc ++ [sdName d])) as (atomics & -> & Ha); [done|lia|lia|].
    exists (sdName d :: atomics). split; [by rewrite <- app_assoc|].
    intros a [->|Hin]%elem_of_cons; [|by apply Ha].
    apply Forall_cons in HF as [(i & p & Hd) _]. by eapply node_name_in.
Qed.

Lemma activeAtomics_returns :
  ∃ atomics, activeAtomics n m = Done atomics ∧ ∀ a, a ∈ atomics → a ∈ allNames T.
Proof.
  unfold activeAtomics.
  assert (Forall (λ d, ∃ i p, (i, p, d) ∈ nodes 0 None T) [T]) as HT.
  { apply Forall_cons. split; [|done]. eexists _, _. apply nodes_root. }
  assert (length (flat_map allNames [T]) = countStates T) as Hw.
  { simpl. by rewrite app_nil_r. }
  destruct m_tree as (_ & -> & _).
  destruct (lookupNextValidState_returns n [T]) as (F' & E & HF' & Hw'); [done|lia|].
  simpl in E. rewrite E. cbn [mbind result_bind].
  destruct (collectAtomics_returns n F' []) as (atomics & -> & Ha); [done|lia|lia|].
  by exists atomics.
Qed.

(** [selectTransitions] returns, and what it returns is what [innermost]
    describes for each atomic state the iterator yields. *)
Lemma walkUps_return e atomics :
  (∀ a, a ∈ atomics → a ∈ allNames T) →
  ∀ acc, ∃ hitss,
    forEach (λ lState lTransitions, walkUp n m e (Some lState) lTransitions) atomics acc
      = Done (acc ++ concat hitss) ∧
    Forall2 (innermost m e) atomics hitss.
Proof.
  induction atomics as [|a atomics IH]; intros Ha acc.
  - exists []. simpl. by rewrite app_nil_r.
  - destruct (name_node T a) as (i & p & d & Hn & <-); [apply Ha; left|].
    pose proof (nodes_depth _ _ _ _ Hn) as Hi.
    destruct (walkUp_returns m T m_tree e i p d Hn n acc) as (hits & Hw & Hin); [lia|].
    destruct (IH (λ a' H, Ha a' (list_elem_of_further _ _ _ H)) (acc ++ hits))
      as (hitss & Hf & Hall).
    exists (hits :: hitss). cbn [forEach]. rewrite Hw. cbn [mbind result_bind].
    rewrite Hf. simpl. rewrite app_assoc. split; [done|by constructor].
Qed.

Lemma selectTransitions_returns e :
  ∃ atomics hitss,
    activeAtomics n m = Done atomics ∧
    Forall2 (innermost m e) atomics hitss ∧
    selectTransitions n m e = Done (concat hitss).
Proof.
  destruct activeAtomics_returns as (atomics & E & Ha).
  destruct (walkUps_return e atomics Ha []) as (hitss & Hf & Hall).
  exists atomics, hitss. split; [done|]. split; [done|].
  unfold activeAtomics in E. unfold selectTransitions.
  destruct (lookupNextValidState n n m [mImpl m]) as [l0| |]; [|done..].
  cbn [mbind result_bind] in *. rewrite E. cbn [mbind result_bind]. by rewrite Hf.
Qed.

End Iterator.

(** ** Events that match nothing, names that name nothing *)

Lemma removeConflicts_nil n m : removeConflicts n m [] = Done [].
Proof. done. Qed.

Lemma processTransitions_none pe n e m :
  selectTransitions n m e = Done [] → processTransitions pe n e m = Done m.
Proof. intros H. unfold processTransitions. by rewrite H. Qed.

Lemma concat_nils {A} (hitss : list (list A)) :
  Forall (λ hits, hits = []) hitss → concat hitss = [].
Proof. induction 1 as [|hits hitss -> _ IH]; [done|]. by simpl. Qed.

(** An event that no walk from an active atomic state matches changes
    nothing. *)
Lemma pushEvent_inert m T k e :
  hasTree m T → quiescent m → countStates T ≤ k →
  (∀ atomics a, activeAtomics k m = Done atomics → a ∈ atomics → innermost m e a []) →
  pushEvent (S k) e m = Done m.
Proof.
  intros Htree [Hflag Hq] Hk Hinert.
  change (pushEvent (S k) e m)
    with (processEvents (pushEvent k) k (setEvents (mEvents m ++ [e]) m)).
  unfold processEvents. cbn [mInToplevelProcess setEvents]. rewrite Hflag, Hq.
  set (m1 := setInToplevelProcess true (setEvents ([] ++ [e]) m)).
  assert (hasTree m1 T) as Htree1.
  { apply (hasTree_sameTopology m); [done|].
    eapply sameTopology_trans;
      [apply sameTopology_setEvents|apply sameTopology_setInToplevelProcess]. }
  destruct (selectTransitions_returns m1 T k Htree1 Hk e) as (atomics & hitss & Ea & Hall & Es).
  rewrite (activeAtomics_store m m1) in Ea by done.
  assert (concat hitss = []) as Hnone.
  { apply concat_nils. clear Es.
    assert (∀ a, a ∈ atomics → innermost m1 e a []) as Hin.
    { intros a Ha. apply (innermost_store m m1); [done..|]. by apply (Hinert atomics). }
    clear Ea. induction Hall as [|a hits atomics hitss H1 _ IH]; constructor.
    - eapply innermost_unique; [done|]. apply Hin. left.
    - apply IH. intros a' Ha'. apply Hin. by right. }
  rewrite Hnone in Es.
  pose proof (countStates_pos T) as Hpos.
  destruct k as [|k']; [lia|].
  cbn [processLoop]. change (mEvents m1) with [e]. cbv beta iota.
  rewrite (processTransitions_none _ _ _ _ Es). cbn [mbind result_bind].
  change (setEvents (tail (mEvents m1)) m1)
    with (mkStateMachine (mAllStates m) [] (mIsActive m) true (mImpl m) (hostLog m)).
  assert (∀ pe x, processLoop pe k' (S k') x = match mEvents x with
            | [] => Done x
            | _ => processLoop pe k' (S k') x end) as Hloop.
  { intros pe x. destruct k'; simpl; by destruct (mEvents x). }
  rewrite Hloop. cbn [mEvents mbind result_bind].
  destruct m. simpl in *. by subst.
Qed.

Lemma inState_returns m T n name :
  hasTree m T → countStates T ≤ n → ∃ b, inState n m name = Done b.
Proof.
  intros Htree Hn. unfold inState.
  destruct (mAllStates m !! name); [|by eexists].
  destruct (bool_decide _); [by eexists|]. by apply (isActive_returns m T).
Qed.

Lemma inState_unnamed m T n name :
  indexed m T → name ∉ allNames T → inState n m name = Done false.
Proof.
  intros Hidx Hname. unfold inState.
  destruct (mAllStates m !! name) as [s|] eqn:Hs; [|done].
  exfalso. apply Hname, Hidx. by eexists.
Qed.

(** X22: on a machine built by the constructor and driven through any
    calls since, [pushEvent] never throws and [inState] returns an answer,
    [false] for every name that is not a state of the machine.
    [pushEvent] with an event that, walking up from every atomic state the
    iterator of [selectTransitions] yields, meets no transition for the
    event whose guard holds, returns the machine as it was: no state is
    left or entered, no action runs, nothing is added to the host's log.
    The guards met on the way are evaluated; they read and do not write. *)
Theorem unmatched_event_is_inert :
  ∀ n0 params m0 n' cs m,
    StateMachine_new n0 params = Done m0 → calls n' cs m0 = Done m →
    (∀ n e, noRaise (pushEvent n e m)) ∧
    (∀ k e, countStates (asRoot params) ≤ k →
       (∀ atomics a, activeAtomics k m = Done atomics → a ∈ atomics →
                     innermost m e a []) →
       pushEvent (S k) e m = Done m) ∧
    (∀ n name, countStates (asRoot params) ≤ n → ∃ b, inState n m name = Done b) ∧
    (∀ n name, name ∉ allNames (asRoot params) → inState n m name = Done false).
Proof.
  intros n0 params m0 n' cs m Hnew Hcs.
  destruct (StateMachine_new_kept _ _ _ _ _ _ Hnew Hcs) as [[Hk1 Hk2] Hrest].
  destruct (StateMachine_new_atRest _ _ _ Hnew) as [Hchk _].
  destruct (StateMachine_new_hasTree _ _ _ Hnew) as (Htree0 & _).
  assert (hasTree m (asRoot params)) as Htree by by eapply hasTree_sameTopology.
  split; [|split; [|split]].
  - intros n e. pose proof (triple_pushEvent_atRest m0 Hchk n e m Hrest) as H.
    unfold noRaise. by destruct (pushEvent n e m).
  - intros k e Hk Hinert. apply (pushEvent_inert m (asRoot params)); try done.
    by destruct Hrest.
  - intros n name Hn. by apply (inState_returns m (asRoot params)).
  - intros n name Hname. by apply (inState_unnamed m (asRoot params)).
Qed.

Lemma unmatched_event_is_inert_witness :
  ∃ m0 m,
    StateMachine_new 12 Scenario.TargetlessTransitions = Done m0 ∧
    calls 12 [CallEnter] m0 = Done m ∧
    activeAtomics 12 m = Done ["S1"; "S2A"] ∧
    pushEvent 13 "other" m = Done m ∧
    inState 12 m "S3" = Done false.
Proof.
  destruct (StateMachine_new 12 Scenario.TargetlessTransitions) as [m0| |] eqn:Hnew;
    [|by vm_compute in Hnew..].
  destruct (calls 12 [CallEnter] m0) as [m| |] eqn:Hcs;
    [|vm_compute in Hnew; injection Hnew as <-; by vm_compute in Hcs..].
  destruct (unmatched_event_is_inert 12 _ m0 12 [CallEnter] m Hnew Hcs)
    as (_ & Hinert & _ & Hname).
  specialize (Hinert 12 "other"). specialize (Hname 12 "S3").
  exists m0, m. split; [done|]. split; [done|].
  vm_compute in Hnew. injection Hnew as <-.
  vm_compute in Hcs. injection Hcs as <-.
  split; [by vm_compute|]. split.
  - apply Hinert; [vm_compute; lia|].
    intros atomics a Ha Hin. vm_compute in Ha. injection Ha as <-.
    apply elem_of_cons in Hin as [->|Hin]; [|apply elem_of_cons in Hin as [->|Hin]].
    + apply innermost_up with "root"; [by vm_compute..|].
      apply innermost_none; by vm_compute.
    + apply innermost_up with "S2"; [by vm_compute..|].
      apply innermost_up with "root"; [by vm_compute..|].
      apply innermost_none; by vm_compute.
    + by apply elem_of_nil in Hin.
  - apply Hname. vm_compute. intros H.
    repeat (apply elem_of_cons in H as [H|H]; [discriminate H|]).
    by apply elem_of_nil in H.
Defined.

(** C9: an event that matches no transition of any active state is not
    inert on [Scenario.PushOnEntry].  After [enter()] the states root, S1
    and S2A answer true to [inState], and none of them has a transition for
    "f".  S2 is not active, but it is the parent of S2A, which the event
    the root pushed while entering left active; the walk from S2A finds the
    transition of S2 for "f" and its action runs. *)
Lemma event_of_inactive_ancestor_fires :
  ¬ (∀ n params cs m e m',
       session n params cs = Done m →
       (∀ name, name ∈ allNames (asRoot params) → inState n m name = Done true →
                equal_range e (mTransitions (deref m name)) = []) →
       pushEvent n e m = Done m' → hostLog m' = hostLog m).
Proof.
  intros H.
  destruct (session 12 Scenario.PushOnEntry [CallEnter]) as [m| |] eqn:E;
    [|by vm_compute in E..].
  destruct (pushEvent 12 "f" m) as [m'| |] eqn:E';
    [|vm_compute in E; injection E as <-; by vm_compute in E'..].
  specialize (H 12 _ _ m "f" m' E).
  vm_compute in E. injection E as <-.
  vm_compute in E'. injection E' as <-.
  assert (allNames (asRoot Scenario.PushOnEntry) = ["root"; "S1"; "S2"; "S2A"; "S2B"])
    as Hnames by done.
  rewrite Hnames in H. clear Hnames.
  specialize (λ Hq, H Hq eq_refl). cbn [hostLog] in H.
  enough (["root entry"; "S1 exit"; "S2 entry"; "S2A entry"; "S1 entry"; "f in S2"]
          ≠ ["root entry"; "S1 exit"; "S2 entry"; "S2A entry"; "S1 entry"]) as Hne.
  { apply Hne, H. intros name Hname Hact.
    repeat (apply elem_of_cons in Hname as [->|Hname];
            [first [by vm_compute in Hact | by vm_compute]|]).
    by apply elem_of_nil in Hname. }
  congruence.
Qed.

(** ** Selection, in full *)

(** C1, as amended: for every active atomic state the iterator yields, the
    walk toward the root stops at the innermost state that has a transition
    for the event whose guard holds, and that state contributes every such
    transition it has, in declaration order (not only the first); the
    selected list is the concatenation of these contributions in the order
    of the atomic states.  On a machine with the tree the constructor built
    [selectTransitions] returns that list as soon as its fuel covers the
    number of states. *)
Theorem selection_takes_every_enabled_transition_of_innermost_state :
  (∀ k m e a acc l,
     walkUp k m e (Some a) acc = Done l →
     ∃ hits, innermost m e a hits ∧ l = acc ++ hits) ∧
  (∀ n m e l,
     selectTransitions n m e = Done l →
     ∃ atomics hitss,
       activeAtomics n m = Done atomics ∧
       Forall2 (innermost m e) atomics hitss ∧ l = concat hitss) ∧
  (∀ n0 params m0 m n e,
     StateMachine_new n0 params = Done m0 → sameTopology m0 m →
     countStates (asRoot params) ≤ n →
     ∃ atomics hitss,
       activeAtomics n m = Done atomics ∧
       Forall2 (innermost m e) atomics hitss ∧
       selectTransitions n m e = Done (concat hitss)).
Proof.
  split; [apply walkUp_innermost|]. split.
  - intros n m e l H. unfold selectTransitions in H.
    apply bind_Done in H as (l0 & H0 & H).
    apply bind_Done in H as (atomics & Ha & H).
    apply walkUps_innermost in H as (hitss & Hf & ->).
    exists atomics, hitss. split; [|done].
    unfold activeAtomics. by rewrite H0.
  - intros n0 params m0 m n e Hnew Hm Hn.
    destruct (StateMachine_new_hasTree _ _ _ Hnew) as (Htree & _).
    apply (selectTransitions_returns m (asRoot params)); [|done].
    by eapply hasTree_sameTopology.
Qed.

Lemma selection_takes_every_enabled_transition_of_innermost_state_witness :
  ∃ m0 m atomics hitss,
    StateMachine_new 12 Scenario.TargetlessTransitions = Done m0 ∧
    calls 12 [CallEnter] m0 = Done m ∧
    countStates (asRoot Scenario.TargetlessTransitions) ≤ 12 ∧
    activeAtomics 12 m = Done atomics ∧
    Forall2 (innermost m "event") atomics hitss ∧
    selectTransitions 12 m "event" = Done (concat hitss).
Proof.
  destruct (StateMachine_new 12 Scenario.TargetlessTransitions) as [m0| |] eqn:Hnew;
    [|by vm_compute in Hnew..].
  destruct (calls 12 [CallEnter] m0) as [m| |] eqn:Hcs;
    [|vm_compute in Hnew; injection Hnew as <-; by vm_compute in Hcs..].
  assert (countStates (asRoot Scenario.TargetlessTransitions) ≤ 12) as Hn.
  { vm_compute. lia. }
  destruct (StateMachine_new_kept _ _ _ _ _ _ Hnew Hcs) as [[Hm _] _].
  destruct selection_takes_every_enabled_transition_of_innermost_state as (_ & _ & H).
  destruct (H 12 Scenario.TargetlessTransitions m0 m 12 "event" Hnew Hm Hn)
    as (atomics & hitss & Ha & Hall & Hs).
  exists m0, m, atomics, hitss.
  split; [exact eq_refl|]. split; [exact Hcs|]. split; [exact Hn|].
  split; [exact Ha|]. split; [exact Hall|exact Hs].
Defined.

(** C1, as stated, fails: in the machine of the test TargetlessTransitions
    the atomic state S1 declares two transitions for "event", and the walk
    from S1 selects both. *)
Lemma one_atomic_state_contributes_two_transitions :
  ¬ (∀ n params cs m e a l,
       session n params cs = Done m →
       walkUp n m e (Some a) [] = Done l → (length l ≤ 1)%nat).
Proof.
  intros H.
  destruct (session 12 Scenario.TargetlessTransitions [CallEnter]) as [m| |] eqn:E;
    [|by vm_compute in E..].
  destruct (walkUp 12 m "event" (Some "S1") []) as [l| |] eqn:Hw.
  - specialize (H 12 _ _ m "event" "S1" l E Hw).
    vm_compute in E. injection E as <-.
    vm_compute in Hw. injection Hw as <-. simpl in H. lia.
  - vm_compute in E. injection E as <-. by vm_compute in Hw.
  - vm_compute in E. injection E as <-. by vm_compute in Hw.
Qed.
(** * Further properties of the code *)

(** ** The constructor: what it accepts and what its exceptions say *)

Lemma linkChildren_Done name defs acc ini cs i :
  linkChildren name defs acc ini = Done (cs, i) →
  length (filter (λ c, sdIsInitial c = true) defs) + (if ini is Some _ then 1 else 0) ≤ 1.
Proof.
  revert acc ini. induction defs as [|c defs IH]; intros acc ini; simpl.
  - intros _. destruct ini; simpl; lia.
  - rewrite filter_cons. destruct (sdIsInitial c) eqn:Hc.
    + rewrite decide_True by done. destruct ini; [done|].
      intros H. apply IH in H. simpl in *. lia.
    + rewrite decide_False by done. apply IH.
Qed.

Lemma linkChildren_Raise name defs acc ini e :
  linkChildren name defs acc ini = Raise e →
  e = AlreadyHasInitial name ∧
  2 ≤ length (filter (λ c, sdIsInitial c = true) defs) + (if ini is Some _ then 1 else 0).
Proof.
  revert acc ini. induction defs as [|c defs IH]; intros acc ini; simpl; [done|].
  rewrite filter_cons. destruct (sdIsInitial c) eqn:Hc.
  - rewrite decide_True by done. destruct ini.
    + intros [= <-]. split; [done|]. simpl. lia.
    + intros H. apply IH in H as [-> H]. split; [done|]. simpl in *. lia.
  - rewrite decide_False by done. apply IH.
Qed.

Lemma linkChildren_returns name defs acc ini :
  linkChildren name defs acc ini ≠ Timeout.
Proof.
  revert acc ini. induction defs as [|c defs IH]; intros acc ini; simpl; [done|].
  destruct (sdIsInitial c); [destruct ini; [done|]|]; apply IH.
Qed.

Lemma buildTransitions_Done st this i defs ts :
  buildTransitions st this i defs = Done ts →
  ∀ t, t ∈ defs → tdTarget t ≠ "" → is_Some (st !! tdTarget t).
Proof.
  revert i ts. induction defs as [|d defs IH]; intros i ts; simpl.
  - by intros _ t ?%elem_of_nil.
  - intros H. apply bind_Done in H as (target & Ht & H).
    apply bind_Done in H as (rest & Hr & _).
    intros t [->|Hin]%elem_of_cons Hne; [|by eapply IH].
    rewrite bool_decide_eq_false_2 in Ht by done.
    by destruct (st !! tdTarget d).
Qed.

Lemma buildTransitions_Raise st this i defs e :
  buildTransitions st this i defs = Raise e →
  ∃ t, t ∈ defs ∧ e = NoSuchState (tdTarget t) ∧ tdTarget t ≠ "" ∧
       st !! tdTarget t = None.
Proof.
  revert i. induction defs as [|d defs IH]; intros i; simpl; [done|].
  destruct (bool_decide (tdTarget d = "")) eqn:Hd; simpl.
  - destruct (buildTransitions st this (S i) defs) as [rest|e'|] eqn:Hr; simpl; try done.
    intros [= <-]. destruct (IH _ Hr) as (t & Hin & H). exists t. split; [by right|done].
  - apply bool_decide_eq_false in Hd.
    destruct (st !! tdTarget d) eqn:Hl; simpl.
    + destruct (buildTransitions st this (S i) defs) as [rest|e'|] eqn:Hr; simpl; try done.
      intros [= <-]. destruct (IH _ Hr) as (t & Hin & H). exists t. split; [by right|done].
    + intros [= <-]. exists d. split; [left|done].
Qed.

Lemma buildTransitions_returns st this i defs :
  buildTransitions st this i defs ≠ Timeout.
Proof.
  revert i. induction defs as [|d defs IH]; intros i; simpl; [done|].
  specialize (IH (S i)).
  destruct (bool_decide _); simpl; [|destruct (st !! tdTarget d); simpl; [|done]];
    by destruct (buildTransitions st this (S i) defs).
Qed.

Lemma initial_filter_find (defs : list StateDef) :
  initialChild defs = None ↔ ∀ c, c ∈ defs → sdIsInitial c = false.
Proof.
  unfold initialChild. induction defs as [|c defs IH]; simpl.
  - split; [by intros _ c ?%elem_of_nil|done].
  - destruct (sdIsInitial c) eqn:Hc.
    + split; [done|]. intros H. specialize (H c). rewrite Hc in H.
      discriminate H. left.
    + rewrite IH. split.
      * intros H c' [->|Hin]%elem_of_cons; [done|by apply H].
      * intros H c' Hin. apply H. by right.
Qed.

Lemma filter_initial_nil (defs : list StateDef) :
  (∀ c, c ∈ defs → sdIsInitial c = false) →
  filter (λ c, sdIsInitial c = true) defs = [].
Proof.
  induction defs as [|c defs IH]; intros H; [done|].
  rewrite filter_cons, decide_False.
  - apply IH. intros c' Hin. apply H. by right.
  - rewrite (H c); [done|left].
Qed.

(** [StateImpl::build] on a freshly allocated state: it returns when the
    definition passes the three checks, and its exceptions say which one
    failed. *)
Lemma StateImpl_build_Done parent d st st' names :
  st !! sdName d = Some StateImpl_new →
  (∀ x, is_Some (st !! x) ↔ x ∈ names) →
  StateImpl_build parent d st = Done st' → stateOk names d.
Proof.
  intros Hd Hkeys. unfold StateImpl_build. rewrite Hd. simpl. intros H.
  apply bind_Done in H as ([cs i] & Hl & H).
  pose proof (linkChildren_Done _ _ _ _ _ _ Hl) as Hcount.
  apply linkChildren_spec in Hl as [-> ->]. simpl in *.
  destruct (negb (sdIsParallel d) && negb (bool_decide (sdName <$> sdChildren d = []))
            && bool_decide (sdName <$> initialChild (sdChildren d) = None)) eqn:Hchk;
    [done|].
  apply bind_Done in H as (ts & Ht & _).
  split; [lia|]. split.
  - intros Hpar Hne. rewrite Hpar in Hchk. simpl in Hchk.
    rewrite bool_decide_eq_false_2 in Hchk.
    2:{ intros E. apply Hne. by destruct (sdChildren d). }
    simpl in Hchk. apply bool_decide_eq_false in Hchk.
    destruct (initialChild (sdChildren d)) as [c|] eqn:Hc; [|done].
    exists c. split; [by apply initialChild_in|].
    unfold initialChild in Hc. by apply find_some in Hc as [_ ?].
  - intros t Hin Hne. apply Hkeys. by eapply buildTransitions_Done.
Qed.

Lemma StateImpl_build_Raise parent d st e names :
  st !! sdName d = Some StateImpl_new →
  (∀ x, is_Some (st !! x) ↔ x ∈ names) →
  StateImpl_build parent d st = Raise e → reports names d e.
Proof.
  intros Hd Hkeys. unfold StateImpl_build. rewrite Hd. simpl.
  destruct (linkChildren (sdName d) (sdChildren d) [] None) as [[cs i]|e'|] eqn:Hl; simpl.
  - apply linkChildren_spec in Hl as [-> ->]. simpl.
    destruct (negb (sdIsParallel d) && negb (bool_decide (sdName <$> sdChildren d = []))
              && bool_decide (sdName <$> initialChild (sdChildren d) = None)) eqn:Hchk.
    + intros [= <-]. simpl.
      apply andb_prop in Hchk as [Hchk H3]. apply andb_prop in Hchk as [H1 H2].
      apply negb_true_iff in H1, H2.
      apply bool_decide_eq_false in H2. apply bool_decide_eq_true in H3.
      split; [done|]. split; [done|]. split.
      * intros E. apply H2. by rewrite E.
      * apply initial_filter_find. by destruct (initialChild (sdChildren d)).
    + destruct (buildTransitions st (sdName d) 0 (sdTransitions d)) as [ts|e'|] eqn:Ht;
        simpl; try done.
      intros [= <-].
      apply buildTransitions_Raise in Ht as (t & Hin & -> & Hne & Hnone). simpl.
      split; [done|]. split; [|by exists t].
      intros Hx. apply Hkeys in Hx. rewrite Hnone in Hx. by destruct Hx.
  - intros [= <-]. apply linkChildren_Raise in Hl as [-> Hc]. simpl in *.
    split; [done|lia].
  - done.
Qed.

Lemma StateImpl_build_returns parent d st : StateImpl_build parent d st ≠ Timeout.
Proof.
  unfold StateImpl_build.
  pose proof (linkChildren_returns (sdName d) (sdChildren d)
                (mChildren (default StateImpl_new (st !! sdName d)))
                (mInitial (default StateImpl_new (st !! sdName d)))) as Hl.
  destruct (linkChildren _ _ _ _) as [[cs i]|e'|]; simpl; try done.
  destruct (_ && _); [done|].
  pose proof (buildTransitions_returns st (sdName d)
                (length (mTransitions (default StateImpl_new (st !! sdName d))))
                (sdTransitions d)) as Ht.
  by destruct (buildTransitions _ _ _ _).
Qed.

Lemma reports_not_ok names d e : reports names d e → ¬ stateOk names d.
Proof.
  intros Hr (H1 & H2 & H3). destruct e; simpl in Hr; try done.
  - destruct Hr as [_ Hr]. lia.
  - destruct Hr as (_ & Hpar & Hne & Hnone).
    destruct (H2 Hpar Hne) as (c & Hc & Hi). by rewrite (Hnone c Hc) in Hi.
  - destruct Hr as (Hne & Hnot & tr & Hin & <-). by apply Hnot, H3.
Qed.

Lemma buildLoop_cases names k q st :
  NoDup (map (λ pd, sdName pd.2) (flat_map (λ pd, links pd.1 pd.2) q)) →
  (∀ pd, pd ∈ flat_map (λ pd, links pd.1 pd.2) q →
         st !! sdName pd.2 = Some StateImpl_new) →
  (∀ x, is_Some (st !! x) ↔ x ∈ names) →
  match buildLoop k q st with
  | Done _ => ∀ pd, pd ∈ flat_map (λ pd, links pd.1 pd.2) q → stateOk names pd.2
  | Raise e => ∃ pd, pd ∈ flat_map (λ pd, links pd.1 pd.2) q ∧ reports names pd.2 e
  | Timeout => k < length (flat_map (λ pd, links pd.1 pd.2) q)
  end.
Proof.
  revert q st. induction k as [|k IH]; intros [|[p d] q] st Hnd Hnew Hkeys.
  - simpl. by intros pd ?%elem_of_nil.
  - cbn [buildLoop]. simpl. rewrite links_eq. simpl. lia.
  - simpl. by intros pd ?%elem_of_nil.
  - cbn [buildLoop flat_map fst snd] in *. rewrite links_eq in *.
    set (FC := flat_map (links (Some (sdName d))) (sdChildren d)) in *.
    set (FR := flat_map (λ pd, links pd.1 pd.2) q) in *.
    assert (flat_map (λ pd, links pd.1 pd.2)
              (q ++ ((λ c, (Some (sdName d), c)) <$> sdChildren d)) = FR ++ FC) as Eq.
    { rewrite flat_map_app. f_equal. apply flat_map_links_children. }
    assert (st !! sdName d = Some StateImpl_new) as Hd.
    { apply (Hnew (p, d)). left. }
    pose proof (StateImpl_build_returns p d st) as Hret.
    destruct (StateImpl_build p d st) as [st1|e|] eqn:Hb; cbn [mbind result_bind];
      [| |done].
    + pose proof (StateImpl_build_Done _ _ _ _ names Hd Hkeys Hb) as Hok.
      apply StateImpl_build_spec in Hb; [|done]. subst st1.
      simpl in Hnd. apply NoDup_cons in Hnd as [Hfresh Hnd].
      rewrite map_app in Hfresh, Hnd.
      specialize (IH (q ++ ((λ c, (Some (sdName d), c)) <$> sdChildren d))
                     (<[sdName d := implOf p d]> st)).
      rewrite Eq in IH.
      assert (∀ pd, pd ∈ FR ++ FC → sdName pd.2 ≠ sdName d) as Hother.
      { intros pd Hin E. apply Hfresh. rewrite <- E.
        apply elem_of_app in Hin as [Hin|Hin]; apply elem_of_app;
          [right|left]; apply list_elem_of_In, in_map_iff; exists pd;
          by rewrite <- list_elem_of_In. }
      lapply IH.
      2:{ rewrite map_app. apply NoDup_app in Hnd as (H1 & H2 & H3).
          apply NoDup_app. split; [done|]. split; [|done].
          intros x Hx Hx'. by apply (H2 x). }
      clear IH. intros IH. lapply IH.
      2:{ intros pd Hin. rewrite lookup_insert_ne by (by apply not_eq_sym, Hother).
          apply Hnew. right. apply elem_of_app.
          apply elem_of_app in Hin as [Hin|Hin]; [by right|by left]. }
      clear IH. intros IH. lapply IH.
      2:{ intros x. rewrite <- Hkeys. rewrite lookup_insert.
          destruct (decide (sdName d = x)) as [<-|Hne]; [|done].
          split; [by rewrite Hd|by eexists]. }
      clear IH. intros IH.
      destruct (buildLoop k _ _) as [st2|e|].
      * intros pd [->|Hin]%elem_of_cons; [done|]. apply IH.
        apply elem_of_app. apply elem_of_app in Hin as [Hin|Hin]; [by right|by left].
      * destruct IH as (pd & Hin & Hr). exists pd. split; [|done]. right.
        apply elem_of_app. apply elem_of_app in Hin as [Hin|Hin]; [by right|by left].
      * simpl. rewrite !length_app in *. lia.
    + exists (p, d). split; [left|]. by eapply StateImpl_build_Raise.
Qed.

(** The first loop of the constructor: it returns when no name is met
    twice, and otherwise raises for a name that is. *)
Lemma allocLoop_cases k q st :
  match allocLoop k q st with
  | Done _ => True
  | Raise e => ∃ x, e = DuplicateStateIdentifier x ∧ x ∈ flat_map allNames q ∧
                    (is_Some (st !! x) ∨
                     2 ≤ length (filter (λ y, y = x) (flat_map allNames q)))
  | Timeout => k < length (flat_map allNames q)
  end.
Proof.
  revert q st. induction k as [|k IH]; intros [|d q] st; simpl; try done.
  - rewrite allNames_eq. simpl. lia.
  - destruct (st !! sdName d) eqn:Hd.
    + exists (sdName d). split; [done|]. rewrite allNames_eq. simpl.
      split; [left|]. left. by eexists.
    + specialize (IH (q ++ sdChildren d) (<[sdName d := StateImpl_new]> st)).
      rewrite flat_map_app in IH.
      set (A := flat_map allNames q) in *.
      destruct (allocLoop k _ _) as [st'|e|].
      * done.
      * destruct IH as (x & -> & Hin & Hx). exists x. split; [done|].
        rewrite (allNames_eq d). simpl.
        set (C := flat_map allNames (sdChildren d)) in *.
        assert (x ∈ C ++ A) as Hin'.
        { apply elem_of_app. apply elem_of_app in Hin as [?|?]; [by right|by left]. }
        split; [by right|].
        rewrite filter_cons, !filter_app, !length_app in *.
        destruct Hx as [Hx|Hx].
        -- rewrite lookup_insert in Hx.
           destruct (decide (sdName d = x)) as [->|Hne]; [|by left].
           right. simpl.
           assert (x ∈ filter (λ y, y = x) (C ++ A)) as Hf
               by by apply list_elem_of_filter.
           rewrite filter_app in Hf.
           assert (∀ l : list string, x ∈ l → 1 ≤ length l) as Hlen.
           { intros [|? ?] Hl; [by apply elem_of_nil in Hl|simpl; lia]. }
           rewrite length_app.
           apply elem_of_app in Hf as [Hf|Hf]; apply Hlen in Hf; lia.
        -- right. destruct (decide (sdName d = x)); simpl; rewrite length_app; lia.
      * rewrite (allNames_eq d). simpl. rewrite !length_app in *. lia.
Qed.

Lemma NoDup_filter_eq (x : string) (l : list string) :
  NoDup l → length (filter (λ y, y = x) l) ≤ 1.
Proof.
  induction 1 as [|y l Hy Hnd IH]; [simpl; lia|].
  rewrite filter_cons. destruct (decide (y = x)) as [->|Hne]; [|done].
  simpl. destruct (filter (λ y, y = x) l) as [|z l'] eqn:Hf; [simpl; lia|].
  exfalso. apply Hy.
  assert (z ∈ filter (λ y, y = x) l) as Hz by (rewrite Hf; left).
  by apply list_elem_of_filter in Hz as [-> ?].
Qed.

Lemma length_links p d : length (links p d) = countStates d.
Proof. unfold countStates. by rewrite <- (links_names p), length_map. Qed.

(** The constructor, case by case *)
Lemma StateMachine_new_cases n params :
  match StateMachine_new n params with
  | Done _ => wellFormed (asRoot params)
  | Raise (DuplicateStateIdentifier x) =>
    2 ≤ length (filter (λ y, y = x) (allNames (asRoot params)))
  | Raise e =>
    NoDup (allNames (asRoot params)) ∧
    ∃ p d, (p, d) ∈ links None (asRoot params) ∧ reports (allNames (asRoot params)) d e
  | Timeout => n < countStates (asRoot params)
  end.
Proof.
  unfold StateMachine_new. set (T := asRoot params). clearbody T.
  pose proof (allocLoop_cases n [T] ∅) as Ha.
  destruct (allocLoop n [T] ∅) as [st|e|] eqn:Halloc; cbn [mbind result_bind].
  - clear Ha. apply allocLoop_spec in Halloc as (Hnd & _ & Hst).
    simpl in Hnd, Hst. rewrite app_nil_r in Hnd, Hst.
    pose proof (buildLoop_cases (allNames T) n [(None, T)] st) as Hb.
    simpl in Hb. rewrite app_nil_r, links_names in Hb.
    lapply Hb; [clear Hb; intros Hb|done]. lapply Hb; [clear Hb; intros Hb|].
    2:{ intros [p d] Hpd. rewrite Hst, decide_True; [done|]. by eapply links_name_in. }
    lapply Hb; [clear Hb; intros Hb|].
    2:{ intros x. rewrite Hst. destruct (decide (x ∈ allNames T)); [by split; eauto|].
        rewrite lookup_empty. split; [by intros [? ?]|done]. }
    destruct (buildLoop n [(None, T)] st) as [st'|e|]; cbn [mbind result_bind].
    + split; [done|]. intros p d Hpd. apply (Hb (p, d) Hpd).
    + destruct Hb as ([p d] & Hpd & Hr).
      destruct e; simpl in Hr; try done; (split; [done|]); by exists p, d.
    + by rewrite length_links in Hb.
  - destruct Ha as (x & -> & _ & [Hx|Hx]).
    + rewrite lookup_empty in Hx. by destruct Hx.
    + simpl in Hx. by rewrite app_nil_r in Hx.
  - simpl in Ha. by rewrite app_nil_r in Ha.
Qed.

(** X1: with fuel for every state, the constructor returns a machine
    exactly when the tree of definitions is well formed: no name occurs
    twice (the root is named root), no state has two children tagged
    initial, every state that is not parallel and has children has a child
    tagged initial, and every transition that names a target names a state
    of the tree.  Otherwise it throws. *)
Theorem constructor_accepts_well_formed_trees :
  ∀ n params,
    countStates (asRoot params) ≤ n →
    ((∃ m, StateMachine_new n params = Done m) ↔ wellFormed (asRoot params)) ∧
    ((∃ e, StateMachine_new n params = Raise e) ↔ ¬ wellFormed (asRoot params)).
Proof.
  intros n params Hn. pose proof (StateMachine_new_cases n params) as H.
  assert (∀ e, StateMachine_new n params = Raise e → ¬ wellFormed (asRoot params)) as Hbad.
  { intros e He [Hnd Hok]. rewrite He in H. destruct e;
      try (destruct H as (_ & p & d & Hpd & Hr);
           by apply (reports_not_ok _ _ _ Hr), (Hok p d)).
    pose proof (NoDup_filter_eq pState _ Hnd). lia. }
  destruct (StateMachine_new n params) as [m|e|] eqn:E; [| |lia].
  - split; split.
    + by intros _.
    + intros _. by exists m.
    + by intros [e [=]].
    + intros Hnot. by destruct Hnot.
  - split; split.
    + by intros [m [=]].
    + intros Hwf. by destruct (Hbad e).
    + intros _. by apply (Hbad e).
    + intros _. by exists e.
Qed.

Lemma constructor_accepts_well_formed_trees_witness :
  (∃ m, StateMachine_new 12 Scenario.ChildOnEntry = Done m) ∧
  wellFormed (asRoot Scenario.ChildOnEntry).
Proof.
  assert (countStates (asRoot Scenario.ChildOnEntry) ≤ 12) as Hn by (vm_compute; lia).
  destruct (constructor_accepts_well_formed_trees 12 Scenario.ChildOnEntry Hn) as [[H _] _].
  assert (∃ m, StateMachine_new 12 Scenario.ChildOnEntry = Done m) as Hm.
  { destruct (StateMachine_new 12 Scenario.ChildOnEntry) as [m| |] eqn:E;
      [by eexists|by vm_compute in E..]. }
  split; [done|by apply H].
Defined.

(** X2: what the exceptions of the constructor say.  DuplicateStateIdentifier
    names a name that occurs at least twice in the tree.  The others are
    thrown only when the names are distinct, and for some state of the
    tree: AlreadyHasInitial names a state with two or more children tagged
    initial, NoInitialState a state that is not parallel, has children and
    none tagged initial, NoSuchState a target of one of its transitions
    that is not empty and names no state.  The constructor throws nothing
    else. *)
Theorem constructor_exceptions_name_the_defect :
  ∀ n params e,
    StateMachine_new n params = Raise e →
    match e with
    | DuplicateStateIdentifier x =>
      2 ≤ length (filter (λ y, y = x) (allNames (asRoot params)))
    | AlreadyHasInitial _ | NoInitialState _ | NoSuchState _ =>
      NoDup (allNames (asRoot params)) ∧
      ∃ p d, (p, d) ∈ links None (asRoot params) ∧
             reports (allNames (asRoot params)) d e
    | _ => False
    end.
Proof.
  intros n params e He. pose proof (StateMachine_new_cases n params) as H.
  rewrite He in H. destruct e; try done;
    by destruct H as (_ & p & d & _ & Hr).
Qed.

Lemma constructor_exceptions_name_the_defect_witness :
  StateMachine_new 12
    (Scenario.machine false
       [Scenario.atom "S1" true [] [] []; Scenario.atom "S2" true [] [] []] [] [] [])
  = Raise (AlreadyHasInitial "root") ∧
  ∃ p d, (p, d) ∈ links None
           (asRoot (Scenario.machine false
              [Scenario.atom "S1" true [] [] []; Scenario.atom "S2" true [] [] []]
              [] [] [])) ∧
         sdName d = "root" ∧
         2 ≤ length (filter (λ c, sdIsInitial c = true) (sdChildren d)).
Proof.
  assert (StateMachine_new 12
    (Scenario.machine false
       [Scenario.atom "S1" true [] [] []; Scenario.atom "S2" true [] [] []] [] [] [])
    = Raise (AlreadyHasInitial "root")) as E by by vm_compute.
  split; [done|].
  destruct (constructor_exceptions_name_the_defect _ _ _ E) as (_ & p & d & Hpd & Hn & Hc).
  by exists p, d.
Defined.

(** ** The machine the constructor returns *)

Lemma shape_clear s : mActive s = None → shape s = s.
Proof. destruct s. unfold shape, setActive. simpl. by intros ->. Qed.

Lemma lookup_deref m x s : mAllStates m !! x = Some s → deref m x = s.
Proof. unfold deref. by intros ->. Qed.

(** What is stored under one event: the transitions declared for it, in
    declaration order, each with its source, its target resolved, its
    action and its condition. *)
Lemma transitionsOf_range this e defs :
  ∀ i,
    (λ t, (mSource t, mTarget t, mEvent t, mAction t, mCondition t))
      <$> equal_range e (transitionsOf this i defs)
    = (λ d, (this, (if bool_decide (tdTarget d = "") then None else Some (tdTarget d)),
             tdEvent d, tdAction d, tdCondition d))
      <$> filter (λ d, tdEvent d = e) defs.
Proof.
  unfold equal_range. induction defs as [|d defs IH]; intros i; [done|].
  cbn [transitionsOf]. rewrite !filter_cons. cbn [mEvent].
  destruct (decide (tdEvent d = e)) as [E|E].
  - rewrite !fmap_cons. cbn [mSource mTarget mEvent mAction mCondition].
    f_equal. apply IH.
  - apply IH.
Qed.

(** X3: the machine the constructor returns holds, under the name of every
    definition of the tree, the state [StateImpl::build] makes of it: its
    name, its parent, its flags, its children in declaration order, the
    child tagged initial, its callbacks, no active child, and its
    transitions: under each event, the transitions declared for that event,
    in declaration order, with their targets resolved.  The index holds
    nothing else.  The machine is inactive, its queue is empty and no event
    loop runs. *)
Theorem constructor_builds_the_tree :
  ∀ n params m0,
    StateMachine_new n params = Done m0 →
    (∀ p d, (p, d) ∈ links None (asRoot params) →
       ∃ s, mAllStates m0 !! sdName d = Some s ∧
         mName s = sdName d ∧ mParent s = p ∧
         mIsInitial s = sdIsInitial d ∧ mIsParallel s = sdIsParallel d ∧
         mChildren s = sdName <$> sdChildren d ∧
         mInitial s = sdName <$> initialChild (sdChildren d) ∧
         mActive s = None ∧
         mOnEntryActions s = sdOnEntryActions d ∧
         mOnExitActions s = sdOnExitActions d ∧
         ∀ e,
           (λ t, (mSource t, mTarget t, mEvent t, mAction t, mCondition t))
             <$> equal_range e (mTransitions s)
           = (λ t, (sdName d,
                    (if bool_decide (tdTarget t = "") then None else Some (tdTarget t)),
                    tdEvent t, tdAction t, tdCondition t))
             <$> filter (λ t, tdEvent t = e) (sdTransitions d)) ∧
    (∀ x, x ∉ allNames (asRoot params) → mAllStates m0 !! x = None) ∧
    mImpl m0 = "root" ∧ mIsActive m0 = false ∧ mEvents m0 = [] ∧
    mInToplevelProcess m0 = false.
Proof.
  intros n params m0 Hnew.
  destruct (StateMachine_new_hasTree _ _ _ Hnew) as ((_ & Himpl & _ & Hin) & Hclear & Hoff & _).
  pose proof (StateMachine_new_indexed _ _ _ Hnew) as Hidx.
  destruct (StateMachine_new_atRest _ _ _ Hnew) as (_ & _ & Hflag & Hq).
  split; [|split; [|done]].
  - intros p d Hpd.
    destruct (proj2 (Hidx (sdName d))) as [s Hs]; [by eapply links_name_in|].
    exists s. split; [done|]. apply (links_in_nodes 0) in Hpd as [i Hn].
    specialize (Hin i p d Hn). specialize (Hclear (sdName d)).
    rewrite (lookup_deref _ _ _ Hs) in Hin, Hclear.
    assert (s = implOf p d) as -> by by rewrite <- Hin, shape_clear.
    repeat (split; [reflexivity|]).
    intros e. apply transitionsOf_range.
  - intros x Hx. destruct (mAllStates m0 !! x) eqn:Hs; [|done].
    exfalso. apply Hx, Hidx. by eexists.
Qed.

Lemma constructor_builds_the_tree_witness :
  ∃ m0,
    StateMachine_new 12 Scenario.ChildOnEntry = Done m0 ∧
    mChildren <$> mAllStates m0 !! "S1B" = Some ["S1Bi"; "S1Bii"; "S1Biii"] ∧
    mInitial <$> mAllStates m0 !! "S1B" = Some (Some "S1Biii") ∧
    mAllStates m0 !! "S4" = None.
Proof.
  destruct (StateMachine_new 12 Scenario.ChildOnEntry) as [m0| |] eqn:Hnew;
    [|vm_compute in Hnew; discriminate Hnew..].
  destruct (constructor_builds_the_tree 12 _ m0 Hnew) as (Hin & Hout & _).
  exists m0. split; [exact eq_refl|].
  destruct (Hin (Some "S1")
    (mkStateDef "S1B" true false
       [ Scenario.atom "S1Bi" false [] (Scenario.entry "S1Bi") [];
         Scenario.atom "S1Bii" false [] (Scenario.entry "S1Bii") [];
         Scenario.atom "S1Biii" true [] (Scenario.entry "S1Biii") [] ]
       [] (Scenario.entry "S1B") []))
    as (s & Hs & _ & _ & _ & _ & Hch & Hini & _).
  - vm_compute. do 3 right. left.
  - simpl sdName in Hs. rewrite Hs. simpl. rewrite Hch, Hini.
    split; [exact eq_refl|]. split; [exact eq_refl|]. apply Hout. vm_compute. intros Hx.
    repeat (apply elem_of_cons in Hx as [Hx|Hx]; [discriminate Hx|]).
    apply elem_of_nil in Hx. destruct Hx.
Defined.

(** ** What no call changes *)

(** X4: whatever calls the host makes after construction, and whatever the
    callbacks push, a call that returns leaves the index with the same
    names, and every state with the parent, flags, children, initial child,
    transitions and callbacks it was built with: only the active-child
    pointers change.  The queue is empty again and no event loop runs. *)
Theorem calls_keep_the_tree :
  ∀ n0 params m0 n cs m,
    StateMachine_new n0 params = Done m0 → calls n cs m0 = Done m →
    (∀ x, shape <$> mAllStates m !! x = shape <$> mAllStates m0 !! x) ∧
    mImpl m = mImpl m0 ∧ mEvents m = [] ∧ mInToplevelProcess m = false.
Proof.
  intros n0 params m0 n cs m Hnew Hcs.
  destruct (StateMachine_new_kept _ _ _ _ _ _ Hnew Hcs) as [[[Himpl Hsh] Hidx] [_ [Hflag Hq]]].
  pose proof (StateMachine_new_indexed _ _ _ Hnew) as Hidx0.
  split; [|done]. intros x. specialize (Hsh x). unfold deref in Hsh.
  destruct (mAllStates m !! x) as [s|] eqn:Hs, (mAllStates m0 !! x) as [s0|] eqn:Hs0;
    simpl in *; try done.
  - by rewrite Hsh.
  - exfalso. assert (is_Some (mAllStates m0 !! x)) as [? ?]; [|congruence].
    apply Hidx0, Hidx. by eexists.
  - exfalso. assert (is_Some (mAllStates m !! x)) as [? ?]; [|congruence].
    apply Hidx, Hidx0. by eexists.
Qed.

Lemma calls_keep_the_tree_witness :
  ∃ m0 m,
    StateMachine_new 12 Scenario.PushInCallbacks = Done m0 ∧
    calls 12 [CallEnter; CallPushEvent "e"; CallLeave] m0 = Done m ∧
    (∀ x, shape <$> mAllStates m !! x = shape <$> mAllStates m0 !! x) ∧
    mEvents m = [].
Proof.
  destruct (StateMachine_new 12 Scenario.PushInCallbacks) as [m0| |] eqn:Hnew;
    [|by vm_compute in Hnew..].
  destruct (calls 12 [CallEnter; CallPushEvent "e"; CallLeave] m0) as [m| |] eqn:Hcs;
    [|vm_compute in Hnew; injection Hnew as <-; by vm_compute in Hcs..].
  destruct (calls_keep_the_tree 12 _ m0 12 _ m Hnew Hcs) as (H1 & _ & H2 & _).
  by exists m0, m.
Defined.

(** ** The order in which the iterator yields states *)

Section IteratorOrder.

Variable m : StateMachine.
Variable T : StateDef.
Variable n : nat.
Hypothesis m_tree : hasTree m T.
Hypothesis n_enough : countStates T ≤ n.

Lemma atomicAndActive_yielded x : atomicAndActive n m x = Done (yielded n m x).
Proof.
  unfold yielded.
  assert (∃ b, atomicAndActive n m x = Done b) as [b ->]; [|by destruct b].
  unfold atomicAndActive. destruct (isAtomic _); [|by eexists].
  by apply (isActive_returns m T).
Qed.

Lemma lookupNextValidState_order k F :
  Forall (λ d, ∃ i p, (i, p, d) ∈ nodes 0 None T) F →
  length (flat_map allNames F) ≤ k →
  ∃ F', lookupNextValidState k n m (map sdName F) = Done (map sdName F') ∧
        Forall (λ d, ∃ i p, (i, p, d) ∈ nodes 0 None T) F' ∧
        length (flat_map allNames F') ≤ length (flat_map allNames F) ∧
        filter (λ x, yielded n m x = true) (flat_map allNames F') =
        filter (λ x, yielded n m x = true) (flat_map allNames F) ∧
        match F' with [] => True | d :: _ => yielded n m (sdName d) = true end.
Proof.
  revert F. induction k as [|k IH]; intros [|d F] HF Hk.
  - by exists [].
  - rewrite weight_children in Hk. lia.
  - by exists [].
  - cbn [lookupNextValidState map]. rewrite atomicAndActive_yielded.
    cbn [mbind result_bind]. destruct (yielded n m (sdName d)) eqn:Hy.
    + by exists (d :: F).
    + change (sdName d :: map sdName F) with (map sdName (d :: F)).
      rewrite (fetchNext_node m T) by (done || by apply Forall_cons in HF as [? _]).
      rewrite weight_children in Hk.
      destruct (IH (sdChildren d ++ F)) as (F' & E & HF' & Hw & Hf & Hh);
        [by apply (children_nodes T)|lia|].
      exists F'. split; [done|]. split; [done|]. split; [rewrite weight_children; lia|].
      split; [|done]. rewrite Hf. simpl. rewrite (allNames_eq d). simpl.
      rewrite filter_cons, decide_False by (by rewrite Hy).
      by rewrite flat_map_app.
Qed.

Lemma collectAtomics_order k F acc :
  Forall (λ d, ∃ i p, (i, p, d) ∈ nodes 0 None T) F →
  length (flat_map allNames F) ≤ k → k ≤ n →
  match F with [] => True | d :: _ => yielded n m (sdName d) = true end →
  collectAtomics k n m (map sdName F) acc =
  Done (acc ++ filter (λ x, yielded n m x = true) (flat_map allNames F)).
Proof.
  revert F acc. induction k as [|k IH]; intros [|d F] acc HF Hk Hn Hh.
  - simpl. by rewrite app_nil_r.
  - rewrite weight_children in Hk. lia.
  - simpl. by rewrite app_nil_r.
  - cbn [collectAtomics map].
    change (sdName d :: map sdName F) with (map sdName (d :: F)).
    rewrite (fetchNext_node m T) by (done || by apply Forall_cons in HF as [? _]).
    rewrite weight_children in Hk.
    destruct (lookupNextValidState_order n (sdChildren d ++ F))
      as (F' & -> & HF' & Hw & Hf & Hh'); [by apply (children_nodes T)|lia|].
    cbn [mbind result_bind]. rewrite (IH F') by (done || lia).
    f_equal. rewrite <- app_assoc. f_equal. rewrite Hf. simpl.
    rewrite (allNames_eq d). simpl.
    rewrite filter_cons, decide_True by done.
    by rewrite flat_map_app.
Qed.

Lemma activeAtomics_order :
  activeAtomics n m = Done (filter (λ x, yielded n m x = true) (allNames T)).
Proof.
  unfold activeAtomics.
  assert (Forall (λ d, ∃ i p, (i, p, d) ∈ nodes 0 None T) [T]) as HT.
  { apply Forall_cons. split; [|done]. eexists _, _. apply nodes_root. }
  assert (length (flat_map allNames [T]) = countStates T) as Hw.
  { simpl. by rewrite app_nil_r. }
  destruct m_tree as (_ & -> & _).
  destruct (lookupNextValidState_order n [T]) as (F' & E & HF' & Hw' & Hf & Hh); [done|lia|].
  simpl in E. rewrite E. cbn [mbind result_bind].
  rewrite (collectAtomics_order n F' []) by (done || lia).
  simpl. rewrite Hf. simpl. by rewrite app_nil_r.
Qed.

End IteratorOrder.

(** X5: on a machine with the tree the constructor built, whatever its
    active-child pointers, the depth-first iterator of [selectTransitions]
    returns once its fuel covers the number of states, and yields exactly
    the states that are atomic and answer true to [isActive()], each once,
    in document order: a state before its children, children in
    declaration order. *)
Theorem iterator_yields_active_atomic_states_in_document_order :
  ∀ n0 params m0 m n,
    StateMachine_new n0 params = Done m0 → sameTopology m0 m →
    countStates (asRoot params) ≤ n →
    activeAtomics n m =
    Done (filter (λ x, yielded n m x = true) (allNames (asRoot params))).
Proof.
  intros n0 params m0 m n Hnew Hm Hn.
  destruct (StateMachine_new_hasTree _ _ _ Hnew) as (Htree & _).
  apply activeAtomics_order; [|done]. by eapply hasTree_sameTopology.
Qed.

Lemma iterator_yields_active_atomic_states_in_document_order_witness :
  ∃ m0 m,
    StateMachine_new 12 Scenario.TargetlessTransitions = Done m0 ∧
    calls 12 [CallEnter] m0 = Done m ∧
    allNames (asRoot Scenario.TargetlessTransitions) = ["root"; "S1"; "S2"; "S2A"; "S2B"] ∧
    activeAtomics 12 m =
    Done (filter (λ x, yielded 12 m x = true)
            (allNames (asRoot Scenario.TargetlessTransitions))).
Proof.
  destruct (StateMachine_new 12 Scenario.TargetlessTransitions) as [m0| |] eqn:Hnew;
    [|by vm_compute in Hnew..].
  destruct (calls 12 [CallEnter] m0) as [m| |] eqn:Hcs;
    [|vm_compute in Hnew; injection Hnew as <-; by vm_compute in Hcs..].
  assert (countStates (asRoot Scenario.TargetlessTransitions) ≤ 12) as Hn.
  { vm_compute. lia. }
  destruct (StateMachine_new_kept _ _ _ _ _ _ Hnew Hcs) as [[Hm _] _].
  exists m0, m. split; [exact eq_refl|]. split; [exact Hcs|]. split; [exact eq_refl|].
  exact (iterator_yields_active_atomic_states_in_document_order
           12 Scenario.TargetlessTransitions m0 m 12 Hnew Hm Hn).
Defined.

(** ** Before [enter()] *)

Lemma filter_none {A} (P : A → Prop) `{∀ x, Decision (P x)} (l : list A) :
  (∀ x, ¬ P x) → filter P l = [].
Proof.
  intros Hn. induction l as [|a l IH]; [done|].
  by rewrite filter_cons, decide_False.
Qed.

Lemma activeAtomics_inactive m T n :
  hasTree m T → allClear m → mIsActive m = false → countStates T ≤ n →
  activeAtomics n m = Done [].
Proof.
  intros Htree Hclear Hoff Hn.
  rewrite (activeAtomics_order m T n Htree Hn). f_equal. apply filter_none.
  intros x. unfold yielded, atomicAndActive.
  rewrite (inactive_all m T Htree Hclear Hoff x n Hn). by destruct (isAtomic _).
Qed.

Lemma pushEvent_inactive m T k e :
  hasTree m T → quiescent m → allClear m → mIsActive m = false →
  countStates T ≤ k → pushEvent (S k) e m = Done m.
Proof.
  intros Htree Hq Hclear Hoff Hk. apply (pushEvent_inert m T); try done.
  intros atomics a Ha Hin.
  rewrite (activeAtomics_inactive m T k) in Ha by done.
  injection Ha as <-. by apply elem_of_nil in Hin.
Qed.

(** X6: a machine that was built and not yet entered has no active state,
    and an event pushed to it is lost: [pushEvent] takes it from the queue,
    selects no transition, runs no callback and returns the machine as it
    was.  Nothing is kept for a later [enter()]. *)
Theorem events_before_enter_are_lost :
  ∀ n0 params m0 k e,
    StateMachine_new n0 params = Done m0 → countStates (asRoot params) ≤ k →
    pushEvent (S k) e m0 = Done m0 ∧ ∀ name, inState k m0 name = Done false.
Proof.
  intros n0 params m0 k e Hnew Hk.
  destruct (StateMachine_new_hasTree _ _ _ Hnew) as (Htree & Hclear & Hoff & _).
  destruct (StateMachine_new_atRest _ _ _ Hnew) as (_ & _ & Hq).
  split.
  - by apply (pushEvent_inactive m0 (asRoot params)).
  - intros name. by apply (inState_inactive m0 (asRoot params)).
Qed.

Lemma events_before_enter_are_lost_witness :
  ∃ m0,
    StateMachine_new 12 Scenario.TargetlessTransitions = Done m0 ∧
    pushEvent 13 "event" m0 = Done m0 ∧ inState 12 m0 "S1" = Done false.
Proof.
  destruct (StateMachine_new 12 Scenario.TargetlessTransitions) as [m0| |] eqn:Hnew;
    [|by vm_compute in Hnew..].
  assert (countStates (asRoot Scenario.TargetlessTransitions) ≤ 12) as Hn.
  { vm_compute. lia. }
  destruct (events_before_enter_are_lost 12 _ m0 12 "event" Hnew Hn) as [H1 H2].
  exists m0. split; [exact eq_refl|]. split; [exact H1|exact (H2 "S1")].
Defined.

(** ** What only [enter()] and [leave()] change *)

(** An invariant of the stores, the log and the flags that every step of
    the engine keeps is kept by [pushEvent], whatever the callbacks push. *)
Section EngineInvariant.

Variable Inv : StateMachine → Prop.
Hypothesis Inv_checked : ∀ m, Inv m → initialsChecked m.
Hypothesis Inv_writeActive : ∀ p v m, Inv m → pointedAt m p → Inv (writeActive p v m).
Hypothesis Inv_say : ∀ l m, Inv m → Inv (say l m).
Hypothesis Inv_setEvents : ∀ q m, Inv m → Inv (setEvents q m).
Hypothesis Inv_setInToplevelProcess : ∀ b m, Inv m → Inv (setInToplevelProcess b m).

Lemma triple_processLoop_Inv pe k n :
  (∀ e, triple Inv (pe e) Inv) → triple Inv (processLoop pe k n) Inv.
Proof.
  intros Hpe. induction k as [|k IH]; intros m Hm; simpl.
  - by destruct (mEvents m).
  - destruct (mEvents m) as [|e q] eqn:Hq; [done|].
    pose proof (triple_processTransitions pe Inv Inv_checked Inv_writeActive
                  Inv_say Hpe n e m Hm) as H.
    destruct (processTransitions pe n e m) as [m1| |]; simpl; [|done..].
    apply IH. by apply Inv_setEvents.
Qed.

Lemma triple_pushEvent_Inv n e : triple Inv (pushEvent n e) Inv.
Proof.
  revert e. induction n as [|n IH]; intros e m Hm; [done|].
  change (pushEvent (S n) e m)
    with (processEvents (pushEvent n) n (setEvents (mEvents m ++ [e]) m)).
  unfold processEvents. cbn [mInToplevelProcess setEvents].
  destruct (mInToplevelProcess m) eqn:Hf; [by apply Inv_setEvents|].
  set (m1 := setInToplevelProcess true (setEvents (mEvents m ++ [e]) m)).
  assert (Inv m1) as Hm1 by by apply Inv_setInToplevelProcess, Inv_setEvents.
  pose proof (triple_processLoop_Inv (pushEvent n) n n IH m1 Hm1) as H.
  destruct (processLoop (pushEvent n) n n m1) as [m2| |]; simpl; [|done..].
  by apply Inv_setInToplevelProcess.
Qed.

Lemma triple_enterLoop_Inv n k l : triple Inv (enterLoop (pushEvent n) k l) Inv.
Proof.
  apply triple_enterLoop; auto. intros. apply triple_pushEvent_Inv.
Qed.

Lemma triple_leaves_Inv n l : triple Inv (forEach (StateImpl_leave (pushEvent n)) l) Inv.
Proof.
  apply triple_forEach. intros p _. apply triple_StateImpl_leave; auto.
  intros. apply triple_pushEvent_Inv.
Qed.

End EngineInvariant.

Section ActiveFlag.

Variable m0 : StateMachine.
Hypothesis m0_checked : initialsChecked m0.
Variable b : bool.

Lemma flag_checked m : sameTopology m0 m ∧ mIsActive m = b → initialsChecked m.
Proof. intros [H _]. by apply (sameTopology_initialsChecked m0). Qed.

Lemma flag_writeActive p v m :
  sameTopology m0 m ∧ mIsActive m = b → pointedAt m p →
  sameTopology m0 (writeActive p v m) ∧ mIsActive (writeActive p v m) = b.
Proof.
  intros [H1 H2] _. split; [|done].
  eapply sameTopology_trans; [done|apply sameTopology_writeActive].
Qed.

Lemma flag_say l m :
  sameTopology m0 m ∧ mIsActive m = b →
  sameTopology m0 (say l m) ∧ mIsActive (say l m) = b.
Proof.
  intros [H1 H2]. split; [|done].
  eapply sameTopology_trans; [done|apply sameTopology_say].
Qed.

Lemma flag_setEvents q m :
  sameTopology m0 m ∧ mIsActive m = b →
  sameTopology m0 (setEvents q m) ∧ mIsActive (setEvents q m) = b.
Proof.
  intros [H1 H2]. split; [|done].
  eapply sameTopology_trans; [done|apply sameTopology_setEvents].
Qed.

Lemma flag_setInToplevelProcess f m :
  sameTopology m0 m ∧ mIsActive m = b →
  sameTopology m0 (setInToplevelProcess f m) ∧
  mIsActive (setInToplevelProcess f m) = b.
Proof.
  intros [H1 H2]. split; [|done].
  eapply sameTopology_trans; [done|apply sameTopology_setInToplevelProcess].
Qed.

Lemma pushEvent_keeps_flag n e m m' :
  sameTopology m0 m → mIsActive m = b → pushEvent n e m = Done m' → mIsActive m' = b.
Proof.
  intros Hm Hb He.
  pose proof (triple_pushEvent_Inv (λ m, sameTopology m0 m ∧ mIsActive m = b)
                flag_checked flag_writeActive flag_say flag_setEvents
                flag_setInToplevelProcess n e m (conj Hm Hb)) as H.
  rewrite He in H. by destruct H.
Qed.

Lemma enterLoop_keeps_flag n k l m m' :
  sameTopology m0 m → mIsActive m = b →
  enterLoop (pushEvent n) k l m = Done m' → mIsActive m' = b.
Proof.
  intros Hm Hb He.
  pose proof (triple_enterLoop_Inv (λ m, sameTopology m0 m ∧ mIsActive m = b)
                flag_checked flag_writeActive flag_say flag_setEvents
                flag_setInToplevelProcess n k l m (conj Hm Hb)) as H.
  rewrite He in H. by destruct H.
Qed.

End ActiveFlag.

(** X7: on a machine built by the constructor and driven through any calls,
    with callbacks that log and push events: [enter()] returns an active
    machine, [inState] then answers true for root, and a second [enter()]
    changes nothing and runs no callback; [leave()] returns an inactive
    machine and a second [leave()] changes nothing; [pushEvent] never
    changes whether the machine is active. *)
Theorem enter_and_leave_are_idempotent :
  ∀ n0 params m0 n cs m,
    StateMachine_new n0 params = Done m0 → calls n cs m0 = Done m →
    (∀ k m1, enter k m = Done m1 →
       mIsActive m1 = true ∧ (∀ k', inState k' m1 "root" = Done true) ∧
       ∀ k', enter k' m1 = Done m1) ∧
    (∀ k m2, leave k m = Done m2 →
       mIsActive m2 = false ∧ (∀ k', inState k' m2 "root" = Done false) ∧
       ∀ k', leave k' m2 = Done m2) ∧
    (∀ k e m', pushEvent k e m = Done m' → mIsActive m' = mIsActive m).
Proof.
  intros n0 params m0 n cs m Hnew Hcs.
  destruct (StateMachine_new_kept _ _ _ _ _ _ Hnew Hcs) as [Hkept Hrest].
  destruct (StateMachine_new_atRest _ _ _ Hnew) as [Hchk _].
  destruct (StateMachine_new_hasTree _ _ _ Hnew) as (Htree & _).
  assert (∀ k c m', call k c m = Done m' →
            ∀ k', inState k' m' "root" = Done (mIsActive m')) as Hroot.
  { intros k c m' Hc k'.
    pose proof (triple_call_kept m0 (asRoot params) Hchk Htree k c m Hkept) as H.
    rewrite Hc in H. destruct H as [[Himpl _] Hidx].
    destruct Htree as (_ & Himpl0 & _). unfold inState.
    destruct (proj2 (Hidx "root")) as [s ->].
    { rewrite allNames_eq. left. }
    rewrite <- Himpl, Himpl0. by rewrite bool_decide_eq_true_2. }
  destruct Hkept as [Hm _].
  split; [|split].
  - intros k m1 He.
    assert (mIsActive m1 = true) as H1.
    { unfold enter, enter' in He. destruct (mIsActive m) eqn:Ha; [by injection He as <-|].
      by apply (enterLoop_keeps_flag m0 Hchk true k k [mImpl m] (setIsActive true m)). }
    split; [done|]. split.
    + intros k'. by rewrite (Hroot k CallEnter m1 He k'), H1.
    + intros k'. unfold enter, enter'. by rewrite H1.
  - intros k m2 He.
    assert (mIsActive m2 = false) as H2.
    { unfold leave, leave' in He. destruct (mIsActive m) eqn:Ha; simpl in He;
        [|by injection He as <-].
      apply bind_Done in He as (l & _ & He). apply bind_Done in He as (m' & _ & [= <-]).
      done. }
    split; [done|]. split.
    + intros k'. by rewrite (Hroot k CallLeave m2 He k'), H2.
    + intros k'. unfold leave, leave'. by rewrite H2.
  - intros k e m' He. by apply (pushEvent_keeps_flag m0 Hchk (mIsActive m) k e m m').
Qed.

Lemma enter_and_leave_are_idempotent_witness :
  ∃ m0 m1,
    StateMachine_new 12 Scenario.PushInCallbacks = Done m0 ∧
    enter 12 m0 = Done m1 ∧ mIsActive m1 = true ∧ enter 3 m1 = Done m1.
Proof.
  destruct (StateMachine_new 12 Scenario.PushInCallbacks) as [m0| |] eqn:Hnew;
    [|by vm_compute in Hnew..].
  destruct (enter 12 m0) as [m1| |] eqn:He;
    [|vm_compute in Hnew; injection Hnew as <-; by vm_compute in He..].
  destruct (enter_and_leave_are_idempotent 12 _ m0 12 [] m0 Hnew eq_refl) as (H & _).
  destruct (H 12 m1 He) as (H1 & _ & H2).
  exists m0, m1. split; [exact eq_refl|]. split; [exact He|].
  split; [exact H1|exact (H2 3)].
Defined.

(** ** [leave()] undoes [enter()] *)

Lemma clear_stores_agree m0 m T :
  sameTopology m0 m → indexed m0 T → indexed m T → allClear m0 → allClear m →
  mAllStates m = mAllStates m0.
Proof.
  intros [_ Hsh] Hi0 Hi Hc0 Hc. apply map_eq. intros x.
  specialize (Hsh x). specialize (Hc0 x). specialize (Hc x).
  unfold deref in *.
  destruct (mAllStates m !! x) as [s|] eqn:Hs, (mAllStates m0 !! x) as [s0|] eqn:Hs0;
    simpl in *; try done.
  - by rewrite <- (shape_clear s), <- (shape_clear s0), Hsh.
  - exfalso. assert (is_Some (mAllStates m0 !! x)) as [? ?]; [|congruence].
    apply Hi0, Hi. by eexists.
  - exfalso. assert (is_Some (mAllStates m !! x)) as [? ?]; [|congruence].
    apply Hi, Hi0. by eexists.
Qed.

(** X8: when the entry and exit callbacks only log, calling neither
    [pushEvent] nor [enter()] nor [leave()], [enter()] followed by
    [leave()] on the machine the constructor returned gives that machine
    back: the same index, every active-child pointer null again, the
    machine inactive, the queue empty.  All that remains is what the
    callbacks said: the entry callbacks of the initial descent in document
    order, then its exit callbacks in the reverse order. *)
Theorem leave_undoes_enter :
  ∀ n0 params m0 n,
    StateMachine_new n0 params = Done m0 →
    quiet (asRoot params) → countStates (asRoot params) ≤ n →
    (enter n m0 ≫= leave n) =
    Done (addLog (says (entryCmds m0 (descent (asRoot params))) ++
                  says (exitCmds m0 (rev (descent (asRoot params))))) m0).
Proof.
  intros n0 params m0 n Hnew Hq Hn.
  destruct (StateMachine_new_atRest _ _ _ Hnew) as [Hchk Hrest].
  destruct (StateMachine_new_hasTree _ _ _ Hnew) as (Htree & Hclear & Hoff & Hlog).
  pose proof (StateMachine_new_indexed _ _ _ Hnew) as Hidx.
  destruct (round_clean m0 (asRoot params) n Hchk Htree Hq Hn m0 Hrest Hidx Hclear Hoff)
    as (m1 & m2 & E1 & E2 & _ & _ & L1 & L2 & _ & R2 & I2 & C2 & O2).
  rewrite E1. cbn [mbind result_bind]. rewrite E2. f_equal.
  destruct R2 as [Hsame [Hflag2 Hq2]]. destruct Hrest as [_ [Hflag0 Hq0]].
  pose proof (clear_stores_agree m0 m2 _ Hsame Hidx I2 Hclear C2) as Hst.
  destruct Hsame as [Himpl _].
  rewrite L1, Hlog in L2. simpl in L2.
  destruct m0, m2. unfold addLog. simpl in *. by subst.
Qed.

Lemma leave_undoes_enter_witness :
  ∃ m0,
    StateMachine_new 20 Scenario.CheckExitOrder = Done m0 ∧
    (enter 20 m0 ≫= leave 20) =
    Done (addLog ["S1Ai exit"; "S1A exit"; "S1 exit"] m0).
Proof.
  destruct (StateMachine_new 20 Scenario.CheckExitOrder) as [m0| |] eqn:Hnew;
    [|by vm_compute in Hnew..].
  assert (quiet (asRoot Scenario.CheckExitOrder)) as Hq.
  { apply quiet_Forall. vm_compute. repeat constructor. }
  assert (countStates (asRoot Scenario.CheckExitOrder) ≤ 20) as Hn.
  { vm_compute. lia. }
  pose proof (leave_undoes_enter 20 Scenario.CheckExitOrder m0 20 Hnew Hq Hn) as H.
  exists m0. split; [exact eq_refl|]. rewrite H. f_equal. f_equal.
  vm_compute in Hnew. injection Hnew as <-. by vm_compute.
Defined.

(** ** Transitions without a target *)

Lemma removeLoop_targetless n m ts lFiltered lIntersect :
  Forall (λ t, mTarget t = None) ts →
  removeLoop n m ts lFiltered lIntersect = Done (lFiltered ++ ts).
Proof.
  intros H. revert lFiltered.
  induction H as [|t ts Ht _ IH]; intros lFiltered; simpl.
  - by rewrite app_nil_r.
  - rewrite Ht. destruct lFiltered; rewrite IH; by rewrite <- app_assoc.
Qed.

Lemma gatherExits_targetless n m ts acc :
  Forall (λ t, mTarget t = None) ts →
  forEach (λ lTransition lToExit,
             match mTarget lTransition with
             | None => Done lToExit
             | Some _ =>
               lCurrentExit ← listExitStates n m lTransition;
               Done (lToExit ++ lCurrentExit)
             end) ts acc = Done acc.
Proof.
  intros H. induction H as [|t ts Ht _ IH]; simpl; [done|]. by rewrite Ht.
Qed.

Lemma gatherEntries_targetless n m ts acc :
  Forall (λ t, mTarget t = None) ts →
  forEach (λ lTransition lToEnter,
             match mTarget lTransition with
             | None => Done lToEnter
             | Some _ =>
               lCurrentEnter ← listEntryStates n m (mTarget lTransition);
               Done (lToEnter ++ lCurrentEnter)
             end) ts acc = Done acc.
Proof.
  intros H. induction H as [|t ts Ht _ IH]; simpl; [done|]. by rewrite Ht.
Qed.

(** X9: transitions without a target never conflict and move nothing.
    When every transition an event selects is without a target,
    [removeConflicts] keeps them all, in order, no state is exited or
    entered, and the microstep is the run of their actions in the order of
    selection. *)
Theorem targetless_transitions_only_run_their_actions :
  ∀ n' n m e ts,
    selectTransitions n m e = Done ts →
    Forall (λ t, mTarget t = None) ts →
    removeConflicts n m ts = Done ts ∧
    (∀ m', exitStates (pushEvent n') n ts m' = Done m') ∧
    (∀ m', enterStates (pushEvent n') n ts m' = Done m') ∧
    processTransitions (pushEvent n') n e m = forEach (doAction (pushEvent n')) ts m.
Proof.
  intros n' n m e ts Hs Hall.
  assert (removeConflicts n m ts = Done ts) as Hr.
  { unfold removeConflicts. by rewrite removeLoop_targetless. }
  assert (∀ m', exitStates (pushEvent n') n ts m' = Done m') as Hx.
  { intros m'. unfold exitStates, gatherExits. by rewrite gatherExits_targetless. }
  assert (∀ m', enterStates (pushEvent n') n ts m' = Done m') as He.
  { intros m'. unfold enterStates, gatherEntries. by rewrite gatherEntries_targetless. }
  split; [done|]. split; [done|]. split; [done|].
  unfold processTransitions. rewrite Hs. cbn [mbind result_bind].
  rewrite Hr. cbn [mbind result_bind]. rewrite Hx. cbn [mbind result_bind].
  destruct (forEach (doAction (pushEvent n')) ts m) as [m2| |]; cbn [mbind result_bind];
    [apply He|done..].
Qed.

Lemma targetless_transitions_only_run_their_actions_witness :
  ∃ m ts,
    session 12 Scenario.TargetlessTransitions [CallEnter] = Done m ∧
    selectTransitions 12 m "event" = Done ts ∧ length ts = 4 ∧
    removeConflicts 12 m ts = Done ts.
Proof.
  destruct (session 12 Scenario.TargetlessTransitions [CallEnter]) as [m| |] eqn:E;
    [|by vm_compute in E..].
  destruct (selectTransitions 12 m "event") as [ts| |] eqn:Hs;
    [|vm_compute in E; injection E as <-; by vm_compute in Hs..].
  assert (Forall (λ t, mTarget t = None) ts ∧ length ts = 4) as [Hall Hlen].
  { vm_compute in E. injection E as <-. vm_compute in Hs. injection Hs as <-.
    split; [by repeat constructor|done]. }
  destruct (targetless_transitions_only_run_their_actions 12 12 m "event" ts Hs Hall)
    as (Hr & _).
  exists m, ts. split; [exact eq_refl|]. split; [exact Hs|].
  split; [exact Hlen|exact Hr].
Defined.

(** ** Parameter packs of [Transition] and [State] *)

Lemma last_cons_default {A} (a d : A) (l : list A) : List.last (a :: l) d = List.last l a.
Proof.
  revert a d. induction l as [|b l IH]; intros a d; [done|].
  change (List.last (a :: b :: l) d) with (List.last (b :: l) d).
  change (List.last (b :: l) a) with (List.last (b :: l) a).
  by rewrite !IH.
Qed.

Lemma Forall_removelast_cons {A} (P : A → Prop) (a : A) (l : list A) :
  Forall P (removelast (a :: a :: l)) ↔ P a ∧ Forall P (removelast (a :: l)).
Proof. change (removelast (a :: a :: l)) with (a :: removelast (a :: l)). apply Forall_cons. Qed.

Lemma Forall_removelast_cons2 {A} (P : A → Prop) (a b : A) (l : list A) :
  Forall P (removelast (a :: b :: l)) ↔ P a ∧ Forall P (removelast (b :: l)).
Proof. change (removelast (a :: b :: l)) with (a :: removelast (b :: l)). apply Forall_cons. Qed.

Lemma addParameters_Done ps d0 d :
  TransitionDef_addParameters ps d0 = Done d ↔
  Forall (λ t, t = "") (removelast (tdTarget d0 :: targetsOf ps)) ∧
  Forall (λ e, e = "") (removelast (tdEvent d0 :: eventsOf ps)) ∧
  length (option_list (tdAction d0) ++ actionsOf ps) ≤ 1 ∧
  length (option_list (tdCondition d0) ++ conditionsOf ps) ≤ 1 ∧
  d = mkTransitionDef (List.last (targetsOf ps) (tdTarget d0))
        (List.last (eventsOf ps) (tdEvent d0))
        (head (option_list (tdAction d0) ++ actionsOf ps))
        (head (option_list (tdCondition d0) ++ conditionsOf ps)).
Proof.
  unfold TransitionDef_addParameters. revert d0.
  induction ps as [|p ps IH]; intros d0.
  - simpl. destruct d0 as [t e a c]; simpl. split.
    + intros [= <-]. split; [constructor|]. split; [constructor|].
      split; [destruct a; simpl; lia|]. split; [destruct c; simpl; lia|].
      by destruct a, c.
    + intros (_ & _ & _ & _ & ->). by destruct a, c.
  - cbn [forEach]. destruct p as [t|f|c|e]; cbn [TransitionDef_addParameter].
    + change (targetsOf (ParamTarget t :: ps)) with (t :: targetsOf ps).
      change (eventsOf (ParamTarget t :: ps)) with (eventsOf ps).
      change (actionsOf (ParamTarget t :: ps)) with (actionsOf ps).
      change (conditionsOf (ParamTarget t :: ps)) with (conditionsOf ps).
      rewrite Forall_removelast_cons2, last_cons_default.
      destruct (bool_decide (tdTarget d0 = "")) eqn:Hd; cbn [negb mbind result_bind].
      * apply bool_decide_eq_true in Hd. rewrite IH. simpl. tauto.
      * apply bool_decide_eq_false in Hd. split; [done|tauto].
    + change (targetsOf (ParamAction f :: ps)) with (targetsOf ps).
      change (eventsOf (ParamAction f :: ps)) with (eventsOf ps).
      change (actionsOf (ParamAction f :: ps)) with (f :: actionsOf ps).
      change (conditionsOf (ParamAction f :: ps)) with (conditionsOf ps).
      destruct (tdAction d0) as [a|] eqn:Ha; cbn [mbind result_bind].
      * split; [done|]. simpl. intros (_ & _ & H & _). lia.
      * rewrite IH. simpl. tauto.
    + change (targetsOf (ParamCondition c :: ps)) with (targetsOf ps).
      change (eventsOf (ParamCondition c :: ps)) with (eventsOf ps).
      change (actionsOf (ParamCondition c :: ps)) with (actionsOf ps).
      change (conditionsOf (ParamCondition c :: ps)) with (c :: conditionsOf ps).
      destruct (tdCondition d0) as [a|] eqn:Ha; cbn [mbind result_bind].
      * split; [done|]. simpl. intros (_ & _ & _ & H & _). lia.
      * rewrite IH. simpl. tauto.
    + change (targetsOf (ParamEvent e :: ps)) with (targetsOf ps).
      change (eventsOf (ParamEvent e :: ps)) with (e :: eventsOf ps).
      change (actionsOf (ParamEvent e :: ps)) with (actionsOf ps).
      change (conditionsOf (ParamEvent e :: ps)) with (conditionsOf ps).
      rewrite Forall_removelast_cons2, last_cons_default.
      destruct (bool_decide (tdEvent d0 = "")) eqn:Hd; cbn [negb mbind result_bind].
      * apply bool_decide_eq_true in Hd. rewrite IH. simpl. tauto.
      * apply bool_decide_eq_false in Hd. split; [done|tauto].
Qed.



Lemma Forall_removelast_empty (l : list string) :
  Forall (λ t, t = "") (removelast ("" :: l)) ↔ Forall (λ t, t = "") (removelast l).
Proof.
  destruct l as [|a l]; [simpl; split; constructor|].
  rewrite Forall_removelast_cons2. tauto.
Qed.

Lemma Transition_Done ps d :
  Transition ps = Done d ↔
  Forall (λ t, t = "") (removelast (targetsOf ps)) ∧
  Forall (λ e, e = "") (removelast (eventsOf ps)) ∧
  length (actionsOf ps) ≤ 1 ∧ length (conditionsOf ps) ≤ 1 ∧
  d = mkTransitionDef (List.last (targetsOf ps) "") (List.last (eventsOf ps) "")
        (head (actionsOf ps)) (head (conditionsOf ps)).
Proof.
  unfold Transition. rewrite addParameters_Done.
  cbn [tdTarget tdEvent tdAction tdCondition option_list app].
  by rewrite !Forall_removelast_empty.
Qed.


Lemma Permutation_short {A} (l l' : list A) : l ≡ₚ l' → length l ≤ 1 → l = l'.
Proof.
  intros Hp Hl. destruct l as [|a [|b l]]; simpl in Hl; [| |lia].
  - by apply Permutation_nil_l in Hp.
  - by apply Permutation_singleton_l in Hp.
Qed.

Lemma Permutation_flat_map_l {A B} (f : A → list B) (l l' : list A) :
  l ≡ₚ l' → flat_map f l ≡ₚ flat_map f l'.
Proof.
  induction 1 as [|a l l' _ IH|a b l|l1 l2 l3 _ IH1 _ IH2]; simpl.
  - done.
  - by rewrite IH.
  - rewrite !app_assoc. f_equiv. apply Permutation_app_comm.
  - by rewrite IH1.
Qed.

(** X11: the parameters of [Transition(...)] may come in any order.  A
    pack with at most one parameter of each kind is accepted, and every
    reordering of it gives the same definition. *)
Theorem Transition_pack_order_is_free :
  ∀ ps ps',
    ps ≡ₚ ps' →
    length (targetsOf ps) ≤ 1 → length (eventsOf ps) ≤ 1 →
    length (actionsOf ps) ≤ 1 → length (conditionsOf ps) ≤ 1 →
    Transition ps' = Transition ps ∧
    Transition ps =
    Done (mkTransitionDef (default "" (head (targetsOf ps)))
            (default "" (head (eventsOf ps)))
            (head (actionsOf ps)) (head (conditionsOf ps))).
Proof.
  intros ps ps' Hp Ht He Ha Hc.
  assert (∀ qs, length (targetsOf qs) ≤ 1 → length (eventsOf qs) ≤ 1 →
                length (actionsOf qs) ≤ 1 → length (conditionsOf qs) ≤ 1 →
                Transition qs =
                Done (mkTransitionDef (default "" (head (targetsOf qs)))
                        (default "" (head (eventsOf qs)))
                        (head (actionsOf qs)) (head (conditionsOf qs)))) as Hone.
  { intros qs Ht' He' Ha' Hc'. apply Transition_Done.
    assert (∀ l : list string, length l ≤ 1 →
              Forall (λ t, t = "") (removelast l) ∧
              List.last l "" = default "" (head l)) as Hshort.
    { intros [|a [|b l]] Hl; simpl in Hl; [| |lia]; by split; [apply Forall_nil|]. }
    destruct (Hshort _ Ht') as [H1 ->]. destruct (Hshort _ He') as [H2 ->].
    done. }
  split; [|by apply Hone].
  pose proof (Permutation_short _ _ (Permutation_flat_map_l _ _ _ Hp) Ht) as Et.
  pose proof (Permutation_short _ _ (Permutation_flat_map_l _ _ _ Hp) He) as Ee.
  pose proof (Permutation_short _ _ (Permutation_flat_map_l _ _ _ Hp) Ha) as Ea.
  pose proof (Permutation_short _ _ (Permutation_flat_map_l _ _ _ Hp) Hc) as Ec.
  fold (targetsOf ps) (targetsOf ps') in Et. fold (eventsOf ps) (eventsOf ps') in Ee.
  fold (actionsOf ps) (actionsOf ps') in Ea. fold (conditionsOf ps) (conditionsOf ps') in Ec.
  rewrite (Hone ps), (Hone ps'); rewrite <- ?Et, <- ?Ee, <- ?Ea, <- ?Ec; done.
Qed.

Lemma Transition_pack_order_is_free_witness :
  Transition [ParamTarget "S2"; ParamEvent "event"] =
  Transition [ParamEvent "event"; ParamTarget "S2"] ∧
  Transition [ParamEvent "event"; ParamTarget "S2"] =
  Done (mkTransitionDef "S2" "event" None None).
Proof.
  apply (Transition_pack_order_is_free
           [ParamEvent "event"; ParamTarget "S2"] [ParamTarget "S2"; ParamEvent "event"]).
  - apply perm_swap.
  - simpl. lia.
  - simpl. lia.
  - simpl. lia.
  - simpl. lia.
Defined.

Lemma addParameters_State d0 ps :
  foldl StateDef_addParameter d0 ps =
  mkStateDef (sdName d0) (sdIsInitial d0 || taggedInitial ps)
    (sdIsParallel d0 || taggedParallel ps) (sdChildren d0 ++ childrenOf ps)
    (sdTransitions d0 ++ transitionsGiven ps) (sdOnEntryActions d0 ++ entriesOf ps)
    (sdOnExitActions d0 ++ exitsOf ps).
Proof.
  revert d0. induction ps as [|p ps IH]; intros d0.
  - simpl. destruct d0; simpl. by rewrite !orb_false_r, !app_nil_r.
  - cbn [foldl]. rewrite IH.
    destruct p; simpl; rewrite <- ?app_assoc, ?orb_true_r; try done.
Qed.

(** X12: what a pack of [State(name, ...)] is worth.  It never throws.  The
    definition lists the child states, the transitions, the entry callbacks
    and the exit callbacks each in the order they were given, whatever
    stands between them; it is tagged initial, or parallel, when the tag
    occurs anywhere in the pack, once or more.  The constructor of the
    machine reads its own pack the same way, under the name root. *)
Theorem State_pack :
  ∀ name ps,
    State name ps =
    mkStateDef name (taggedInitial ps) (taggedParallel ps) (childrenOf ps)
      (transitionsGiven ps) (entriesOf ps) (exitsOf ps) ∧
    asRoot (State name ps) = State "root" ps.
Proof.
  intros name ps. unfold State. rewrite !addParameters_State. done.
Qed.

(** ** Ancestors *)

Lemma isDescendant_true n m x y :
  isDescendant n m (Some x) (Some y) = Done true → ancestorOrSelf m x y.
Proof.
  revert x. induction n as [|n IH]; intros x; simpl.
  - destruct (bool_decide (Some x = Some y)) eqn:E; [|done].
    apply bool_decide_eq_true in E as [= ->]. intros _. constructor.
  - destruct (bool_decide (Some x = Some y)) eqn:E.
    + apply bool_decide_eq_true in E as [= ->]. intros _. constructor.
    + destruct (mParent (deref m x)) as [p|] eqn:Hp.
      * intros H. apply ancestorOrSelf_up with p; [done|by apply IH].
      * by destruct n.
Qed.

Lemma isDescendant_false n m x y :
  isDescendant n m (Some x) (Some y) = Done false → ¬ ancestorOrSelf m x y.
Proof.
  revert x. induction n as [|n IH]; intros x; simpl.
  - by destruct (bool_decide (Some x = Some y)).
  - destruct (bool_decide (Some x = Some y)) eqn:E; [done|].
    apply bool_decide_eq_false in E.
    destruct (mParent (deref m x)) as [p|] eqn:Hp.
    + intros H Ha. inversion Ha; subst; [done|].
      apply (IH p H). congruence.
    + intros _ Ha. inversion Ha; subst; [done|congruence].
Qed.

(** Against [nullptr] the answer is never true: the loop runs off the root
    and the function returns false. *)
Lemma isDescendant_null n m o : isDescendant n m o None ≠ Done true.
Proof.
  revert o. induction n as [|n IH]; intros [x|]; simpl; try done; apply IH.
Qed.

Lemma nodes_parent_node T i q d :
  (i, Some q, d) ∈ nodes 0 None T →
  ∃ j p' d', i = S j ∧ (j, p', d') ∈ nodes 0 None T ∧ sdName d' = q.
Proof.
  intros H.
  assert (∀ j (p : option string) d',
            (j, p, d') ∈ nodes 0 None T →
            (j, p, d') ∈ nodes 0 None T ∧
            ∀ q', p = Some q' →
              ∃ j' p' d'', j = S j' ∧ (j', p', d'') ∈ nodes 0 None T ∧ sdName d'' = q')
    as Hall.
  { apply nodes_ind_down.
    - split; [apply nodes_root|done].
    - intros j p d' c [Hn _] Hc. split; [by eapply nodes_child|].
      intros q' [= <-]. by exists j, p, d'. }
  by apply (Hall i (Some q) d H).
Qed.

Section Ancestry.

Variable m : StateMachine.
Variable T : StateDef.
Hypothesis m_tree : hasTree m T.

Lemma isDescendant_returns_node y :
  ∀ i p d, (i, p, d) ∈ nodes 0 None T →
    ∀ k, i < k → ∃ b, isDescendant k m (Some (sdName d)) y = Done b.
Proof.
  assert (∀ i p d, (i, p, d) ∈ nodes 0 None T →
            (i, p, d) ∈ nodes 0 None T ∧
            ∀ k, i < k → ∃ b, isDescendant k m (Some (sdName d)) y = Done b) as H;
    [|intros i p d Hn; by apply (H i p d)].
  apply nodes_ind_down.
  - split; [apply nodes_root|]. intros [|k] Hk; [lia|]. simpl.
    destruct (bool_decide _); [by eexists|].
    destruct (node_fields m T 0 None T m_tree (nodes_root _ _ _)) as (-> & _).
    destruct k; by eexists.
  - intros j q d' c [Hn' Hq] Hc. split; [by eapply nodes_child|].
    intros [|k] Hk; [lia|]. simpl. destruct (bool_decide _); [by eexists|].
    destruct (node_fields m T (S j) (Some (sdName d')) c m_tree
                (nodes_child _ _ _ _ _ _ _ Hn' Hc)) as (-> & _).
    apply Hq. lia.
Qed.

Lemma isDescendant_returns x y k :
  countStates T ≤ k → ∃ b, isDescendant k m x y = Done b.
Proof.
  intros Hk. pose proof (countStates_pos T) as Hpos.
  destruct x as [x|]; [|destruct k; by eexists].
  destruct (named_or_new T m x m_tree) as [Hx|Hx].
  - destruct (name_node T x Hx) as (i & p & d & Hn & <-).
    pose proof (nodes_depth _ _ _ _ Hn). apply (isDescendant_returns_node y i p d Hn). lia.
  - destruct k as [|k]; [lia|]. simpl. destruct (bool_decide _); [by eexists|].
    change StateImpl_new with (shape StateImpl_new) in Hx.
    apply shape_fields in Hx as (_ & -> & _). destruct k; by eexists.
Qed.

Lemma parentChain_returns_node :
  ∀ i p d, (i, p, d) ∈ nodes 0 None T →
    ∀ k, i < k → ∃ l, parentChain k m (Some (sdName d)) = Done l.
Proof.
  assert (∀ i p d, (i, p, d) ∈ nodes 0 None T →
            (i, p, d) ∈ nodes 0 None T ∧
            ∀ k, i < k → ∃ l, parentChain k m (Some (sdName d)) = Done l) as H;
    [|intros i p d Hn; by apply (H i p d)].
  apply nodes_ind_down.
  - split; [apply nodes_root|]. intros [|k] Hk; [lia|]. simpl.
    destruct (node_fields m T 0 None T m_tree (nodes_root _ _ _)) as (-> & _).
    destruct k; by eexists.
  - intros j q d' c [Hn' Hq] Hc. split; [by eapply nodes_child|].
    intros [|k] Hk; [lia|]. simpl.
    destruct (node_fields m T (S j) (Some (sdName d')) c m_tree
                (nodes_child _ _ _ _ _ _ _ Hn' Hc)) as (-> & _).
    destruct (Hq k) as [l ->]; [lia|]. by eexists.
Qed.

Lemma parentChain_returns x k :
  countStates T ≤ k → ∃ l, parentChain k m (mParent (deref m x)) = Done l.
Proof.
  intros Hk. pose proof (countStates_pos T) as Hpos.
  destruct (named_or_new T m x m_tree) as [Hx|Hx].
  - destruct (name_node T x Hx) as (i & p & d & Hn & <-).
    destruct (node_fields m T i p d m_tree Hn) as (-> & _).
    destruct p as [q|]; [|destruct k; by eexists].
    destruct (nodes_parent_node T i q d Hn) as (j & p' & d' & -> & Hn' & <-).
    pose proof (nodes_depth _ _ _ _ Hn).
    apply (parentChain_returns_node j p' d' Hn'). lia.
  - change StateImpl_new with (shape StateImpl_new) in Hx.
    apply shape_fields in Hx as (_ & -> & _). destruct k; by eexists.
Qed.

Lemma firstAncestorOf_returns k rhs l :
  countStates T ≤ k → ∃ r, firstAncestorOf k m rhs l = Done r.
Proof.
  intros Hk. induction l as [|o l IH]; simpl; [by eexists|].
  destruct (isDescendant_returns rhs o k Hk) as [b ->]. simpl.
  destruct b; [by eexists|done].
Qed.

(** Every state of the tree has the root among its ancestors. *)
Lemma root_above :
  ∀ i p d, (i, p, d) ∈ nodes 0 None T → ancestorOrSelf m (sdName d) (sdName T).
Proof.
  assert (∀ i p d, (i, p, d) ∈ nodes 0 None T →
            (i, p, d) ∈ nodes 0 None T ∧ ancestorOrSelf m (sdName d) (sdName T)) as H;
    [|intros i p d Hn; by apply (H i p d)].
  apply nodes_ind_down.
  - split; [apply nodes_root|constructor].
  - intros j q d' c [Hn' Hq] Hc. split; [by eapply nodes_child|].
    apply ancestorOrSelf_up with (sdName d'); [|done].
    by destruct (node_fields m T (S j) (Some (sdName d')) c m_tree
                   (nodes_child _ _ _ _ _ _ _ Hn' Hc)) as (-> & _).
Qed.

End Ancestry.

Lemma firstAncestorOf_nearest m n rhs k :
  ∀ o chain r,
    parentChain k m o = Done chain →
    firstAncestorOf n m (Some rhs) chain = Done r →
    (∃ a, r = Some a ∧
          match o with Some p => ancestorOrSelf m p a | None => False end ∧
          ancestorOrSelf m rhs a ∧
          ∀ a', match o with Some p => ancestorOrSelf m p a' | None => False end →
                ancestorOrSelf m rhs a' → ancestorOrSelf m a a') ∨
    (r = Some (mImpl m) ∧
     ∀ a', match o with Some p => ancestorOrSelf m p a' | None => False end →
           ¬ ancestorOrSelf m rhs a').
Proof.
  induction k as [|k IH]; intros [q|] chain r; simpl; try done.
  - intros [= <-]. simpl.
    destruct (isDescendant n m (Some rhs) None) as [[|]| |] eqn:Hd; simpl; try done.
    + by destruct (isDescendant_null n m (Some rhs)).
    + intros [= <-]. by right.
  - intros H. apply bind_Done in H as (l & Hl & [= <-]). simpl.
    destruct (isDescendant n m (Some rhs) (Some q)) as [[|]| |] eqn:Hd; simpl; try done.
    + intros [= <-]. left. exists q. split; [done|]. split; [constructor|].
      split; [by eapply isDescendant_true|done].
    + intros H. pose proof (isDescendant_false _ _ _ _ Hd) as Hnot.
      destruct (IH _ _ _ Hl H) as [(a & -> & Hup & Hr & Hnear)|[-> Hnone]].
      * left. exists a. split; [done|].
        destruct (mParent (deref m q)) as [p|] eqn:Hp; [|done].
        split; [by apply ancestorOrSelf_up with p|]. split; [done|].
        intros a' Ha' Hr'. inversion Ha'; subst; [done|].
        apply Hnear; [|done]. congruence.
      * right. split; [done|]. intros a' Ha' Hr'.
        inversion Ha'; subst; [done|].
        apply (Hnone a'); [|done].
        destruct (mParent (deref m q)) as [p'|]; [|done]. congruence.
  - intros [= <-]. simpl.
    destruct (isDescendant n m (Some rhs) None) as [[|]| |] eqn:Hd; simpl; try done.
    + by destruct (isDescendant_null n m (Some rhs)).
    + intros [= <-]. by right.
Qed.

(** X13: on a machine with the constructed tree [isDescendant] returns, and
    answers true exactly when the second state is the first or one of its
    ancestors.  Against [nullptr] it answers false, for every state. *)
Theorem isDescendant_decides_ancestry :
  ∀ n0 params m0 m n x y,
    StateMachine_new n0 params = Done m0 → sameTopology m0 m →
    countStates (asRoot params) ≤ n →
    (∃ b, isDescendant n m (Some x) (Some y) = Done b ∧
          (b = true ↔ ancestorOrSelf m x y)) ∧
    isDescendant n m (Some x) None = Done false ∧
    isDescendant n m None (Some y) = Done false.
Proof.
  intros n0 params m0 m n x y Hnew Hm Hn.
  destruct (StateMachine_new_hasTree _ _ _ Hnew) as (Htree0 & _).
  assert (hasTree m (asRoot params)) as Htree by by eapply hasTree_sameTopology.
  split; [|split].
  - destruct (isDescendant_returns m _ Htree (Some x) (Some y) n Hn) as [b Hb].
    exists b. split; [done|]. destruct b.
    + split; [intros _; by eapply isDescendant_true|done].
    + split; [done|]. intros Ha. by destruct (isDescendant_false _ _ _ _ Hb).
  - destruct (isDescendant_returns m _ Htree (Some x) None n Hn) as [b Hb].
    destruct b; [by destruct (isDescendant_null n m (Some x))|done].
  - by destruct n.
Qed.

Lemma isDescendant_decides_ancestry_witness :
  ∃ m0,
    StateMachine_new 12 Scenario.ChildOnEntry = Done m0 ∧
    isDescendant 12 m0 (Some "S1Biii") (Some "S1") = Done true ∧
    ancestorOrSelf m0 "S1Biii" "S1" ∧
    isDescendant 12 m0 (Some "S1Biii") None = Done false.
Proof.
  destruct (StateMachine_new 12 Scenario.ChildOnEntry) as [m0| |] eqn:Hnew;
    [|by vm_compute in Hnew..].
  assert (countStates (asRoot Scenario.ChildOnEntry) ≤ 12) as Hn by (vm_compute; lia).
  destruct (isDescendant_decides_ancestry 12 _ m0 m0 12 "S1Biii" "S1" Hnew
              (sameTopology_refl m0) Hn) as ((b & Hb & Hiff) & Hnull & _).
  exists m0. split; [exact eq_refl|].
  assert (b = true) as ->.
  { vm_compute in Hnew. injection Hnew as <-. vm_compute in Hb. by injection Hb as <-. }
  split; [exact Hb|]. split; [by apply Hiff|exact Hnull].
Defined.

Lemma upFrom_properAncestor m lhs a :
  match mParent (deref m lhs) with
  | Some p => ancestorOrSelf m p a
  | None => False
  end ↔ properAncestor m lhs a.
Proof.
  unfold properAncestor. destruct (mParent (deref m lhs)) as [p|].
  - split; [intros H; by exists p|by intros (p' & [= <-] & H)].
  - split; [done|by intros (p' & [=] & _)].
Qed.

Lemma findLeastCommonAncestor_cases m T n lhs rhs :
  hasTree m T → countStates T ≤ n →
  ∃ a, findLeastCommonAncestor n m lhs (Some rhs) = Done (Some a) ∧
       ((properAncestor m lhs a ∧ ancestorOrSelf m rhs a ∧
         ∀ a', properAncestor m lhs a' → ancestorOrSelf m rhs a' →
               ancestorOrSelf m a a') ∨
        (a = mImpl m ∧ ∀ a', properAncestor m lhs a' → ¬ ancestorOrSelf m rhs a')).
Proof.
  intros Htree Hn. unfold findLeastCommonAncestor.
  destruct (parentChain_returns m T Htree lhs n Hn) as [chain Hc]. rewrite Hc.
  cbn [mbind result_bind].
  destruct (firstAncestorOf_returns m T Htree n (Some rhs) chain Hn) as [r Hr].
  rewrite Hr.
  destruct (firstAncestorOf_nearest m n rhs n _ _ _ Hc Hr)
    as [(a & -> & Hup & Hra & Hnear)|[-> Hnone]].
  - exists a. split; [done|]. left. split; [by apply upFrom_properAncestor|].
    split; [done|]. intros a' Ha'. apply Hnear. by apply upFrom_properAncestor.
  - exists (mImpl m). split; [done|]. right. split; [done|].
    intros a' Ha'. apply Hnone. by apply upFrom_properAncestor.
Qed.

(** X14: on a machine with the constructed tree, [findLeastCommonAncestor]
    of a source and a target returns a state, never [nullptr]: the nearest
    proper ancestor of the source that is the target or an ancestor of the
    target, and the root when there is none, which for states of the tree
    happens only when the source is the root.  When the target is the
    parent of the source or below that parent (a sibling, a descendant, the
    source itself), the answer is the parent of the source. *)
Theorem findLeastCommonAncestor_is_nearest :
  ∀ n0 params m0 m n lhs rhs,
    StateMachine_new n0 params = Done m0 → sameTopology m0 m →
    countStates (asRoot params) ≤ n →
    ∃ a, findLeastCommonAncestor n m lhs (Some rhs) = Done (Some a) ∧
         ((properAncestor m lhs a ∧ ancestorOrSelf m rhs a ∧
           ∀ a', properAncestor m lhs a' → ancestorOrSelf m rhs a' →
                 ancestorOrSelf m a a') ∨
          (a = "root" ∧ ∀ a', properAncestor m lhs a' → ¬ ancestorOrSelf m rhs a')) ∧
         (lhs ∈ allNames (asRoot params) → rhs ∈ allNames (asRoot params) →
          lhs ≠ "root" → properAncestor m lhs a ∧ ancestorOrSelf m rhs a) ∧
         (∀ p, mParent (deref m lhs) = Some p → ancestorOrSelf m rhs p → a = p).
Proof.
  intros n0 params m0 m n lhs rhs Hnew Hm Hn.
  destruct (StateMachine_new_hasTree _ _ _ Hnew) as (Htree0 & _).
  assert (hasTree m (asRoot params)) as Htree by by eapply hasTree_sameTopology.
  destruct (findLeastCommonAncestor_cases m _ n lhs rhs Htree Hn) as (a & Ha & Hcases).
  assert (mImpl m = "root") as Hroot by by destruct Htree as (_ & -> & _).
  rewrite Hroot in Hcases.
  exists a. split; [done|]. split; [done|]. split.
  - intros Hl Hr Hne. destruct Hcases as [(H1 & H2 & _)|[-> Hnone]]; [done|].
    exfalso.
    destruct (name_node _ lhs Hl) as (i & p & d & Hd & <-).
    destruct (name_node _ rhs Hr) as (i' & p' & d' & Hd' & <-).
    pose proof (root_above m _ Htree i p d Hd) as Hup.
    pose proof (root_above m _ Htree i' p' d' Hd') as Hup'.
    change (sdName (asRoot params)) with "root" in Hup, Hup'.
    inversion Hup as [|? q ? Hq Hq']; subst; [done|].
    apply (Hnone "root"); [by exists q|done].
  - intros p Hp Hrp. unfold findLeastCommonAncestor in Ha. rewrite Hp in Ha.
    destruct n as [|n']; [by pose proof (countStates_pos (asRoot params)); lia|].
    cbn [parentChain] in Ha.
    destruct (parentChain n' m (mParent (deref m p))) as [l| |]; [|done..].
    cbn [mbind result_bind firstAncestorOf] in Ha.
    destruct (isDescendant (S n') m (Some rhs) (Some p)) as [[|]| |] eqn:Hd;
      cbn [mbind result_bind] in Ha; try done.
    + by injection Ha as <-.
    + by destruct (isDescendant_false _ _ _ _ Hd).
Qed.

Lemma findLeastCommonAncestor_is_nearest_witness :
  ∃ m0,
    StateMachine_new 12 Scenario.ChildOnEntry = Done m0 ∧
    findLeastCommonAncestor 12 m0 "S1Biii" (Some "S1A") = Done (Some "S1") ∧
    properAncestor m0 "S1Biii" "S1" ∧ ancestorOrSelf m0 "S1A" "S1".
Proof.
  destruct (StateMachine_new 12 Scenario.ChildOnEntry) as [m0| |] eqn:Hnew;
    [|by vm_compute in Hnew..].
  assert (countStates (asRoot Scenario.ChildOnEntry) ≤ 12) as Hn by (vm_compute; lia).
  destruct (findLeastCommonAncestor_is_nearest 12 _ m0 m0 12 "S1Biii" "S1A" Hnew
              (sameTopology_refl m0) Hn) as (a & Ha & _ & Hin & _).
  exists m0. split; [exact eq_refl|].
  assert (a = "S1") as ->.
  { vm_compute in Hnew. injection Hnew as <-. vm_compute in Ha. by injection Ha as <-. }
  split; [exact Ha|]. apply Hin.
  - vm_compute. do 6 right. left.
  - vm_compute. do 2 right. left.
  - done.
Defined.

(** ** The exit list of a transition *)

Lemma filter_fmap_name {A} (f : A → string) (P : string → Prop)
    `{∀ x, Decision (P x)} (l : list A) :
  f <$> filter (λ a, P (f a)) l = filter P (f <$> l).
Proof.
  induction l as [|a l IH]; [done|].
  rewrite fmap_cons, !filter_cons. destruct (decide (P (f a))); [|done].
  by rewrite fmap_cons, IH.
Qed.

Lemma activePath_prepend n m a c x :
  c ∈ mChildren (deref m a) → isActiveB n m c = true →
  activePath n m c x → activePath n m a x.
Proof.
  intros Hc Ha. induction 1 as [c' Hc' Ha'|y c' _ IH Hc' Ha'].
  - apply activePath_step with c; [by apply activePath_child|done..].
  - by apply activePath_step with y.
Qed.

Lemma activePath_first n m a x :
  activePath n m a x →
  ∃ c, c ∈ mChildren (deref m a) ∧ isActiveB n m c = true ∧
       (x = c ∨ activePath n m c x).
Proof.
  induction 1 as [c Hc Ha|y c _ (c0 & Hc0 & Ha0 & IH) Hc Ha].
  - exists c. split; [done|]. split; [done|]. by left.
  - exists c0. split; [done|]. split; [done|]. right.
    destruct IH as [->|IH]; [by apply activePath_child|by apply activePath_step with y].
Qed.

Lemma fmap_rev' {A B} (f : A → B) (l : list A) : f <$> rev l = rev (f <$> l).
Proof.
  induction l as [|a l IH]; [done|]. rewrite fmap_cons. simpl.
  by rewrite fmap_app, IH.
Qed.

Lemma elem_of_rev' {A} (x : A) (l : list A) : x ∈ rev l ↔ x ∈ l.
Proof. rewrite !list_elem_of_In. symmetry. apply in_rev. Qed.

Lemma name_in_names (t : nat * option string * StateDef)
    (l : list (nat * option string * StateDef)) :
  t ∈ l → sdName t.2 ∈ (λ t : nat * option string * StateDef, sdName t.2) <$> l.
Proof. apply (list_elem_of_fmap_2 (λ t : nat * option string * StateDef, sdName t.2)). Qed.

Lemma NoDup_rev' {A} (l : list A) : NoDup l → NoDup (rev l).
Proof.
  induction 1 as [|a l Ha _ IH]; simpl; [constructor|].
  apply NoDup_app. split; [done|]. split; [|apply NoDup_singleton].
  intros x Hx Hx'. apply list_elem_of_singleton in Hx' as ->.
  by rewrite elem_of_rev' in Hx.
Qed.

Lemma flat_map_sublist {A B} (f : A → list B) (l1 l2 : list A) :
  l1 `sublist_of` l2 → flat_map f l1 `sublist_of` flat_map f l2.
Proof.
  induction 1 as [|a l1 l2 _ IH|a l1 l2 _ IH]; simpl.
  - done.
  - by apply sublist_app.
  - by apply sublist_inserts_l.
Qed.

Lemma name_in_allNames d : sdName d ∈ allNames d.
Proof. rewrite allNames_eq. left. Qed.

Lemma below_in_allNames d x :
  x ∈ flat_map allNames (sdChildren d) → x ∈ allNames d.
Proof. rewrite (allNames_eq d). by right. Qed.

Lemma child_names_below d c x :
  c ∈ sdChildren d → x ∈ allNames c → x ∈ flat_map allNames (sdChildren d).
Proof. intros Hc Hx. apply elem_of_flat_map. by exists c. Qed.

(** In a forest whose names are distinct, the name of a root is not the
    name of a state below a root. *)
Lemma root_not_below (F : list (nat * option string * StateDef)) c f :
  NoDup (flat_map (λ t, allNames t.2) F) → c ∈ F → f ∈ F →
  sdName c.2 ∉ flat_map allNames (sdChildren f.2).
Proof.
  induction F as [|g F IH]; [by intros _ ?%elem_of_nil|].
  simpl. intros Hnd Hc Hf Hin.
  apply NoDup_app in Hnd as (Hg & Hdisj & HF).
  apply elem_of_cons in Hc as [->|Hc], Hf as [->|Hf].
  - rewrite (allNames_eq g.2) in Hg. apply NoDup_cons in Hg as [Hg _]. done.
  - apply (Hdisj (sdName g.2)); [apply name_in_allNames|].
    apply elem_of_flat_map. exists f. split; [done|]. by apply below_in_allNames.
  - apply (Hdisj (sdName c.2)); [by apply below_in_allNames|].
    apply elem_of_flat_map. exists c. split; [done|]. apply name_in_allNames.
  - by apply (IH HF Hc Hf).
Qed.

Section ExitList.

Variable m : StateMachine.
Variable T : StateDef.
Variable n : nat.
Hypothesis m_tree : hasTree m T.
Hypothesis n_enough : countStates T ≤ n.

Lemma isActive_isActiveB x : isActive n m x = Done (isActiveB n m x).
Proof.
  unfold isActiveB. destruct (isActive_returns m T m_tree x n n_enough) as [b ->].
  by destruct b.
Qed.

Lemma exitChildren_spec cs lFifo lToExitList :
  exitChildren n m cs lFifo lToExitList =
  Done (lFifo ++ filter (λ c, isActiveB n m c = true) cs,
        rev (filter (λ c, isActiveB n m c = true) cs) ++ lToExitList).
Proof.
  revert lFifo lToExitList. induction cs as [|c cs IH]; intros lFifo lToExitList; simpl.
  - by rewrite app_nil_r.
  - rewrite isActive_isActiveB. cbn [mbind result_bind]. rewrite filter_cons.
    destruct (isActiveB n m c) eqn:Hc.
    + rewrite decide_True by done. rewrite IH. simpl.
      by rewrite <- !app_assoc.
    + rewrite decide_False by done. apply IH.
Qed.

(** The children of a node of the tree, as nodes *)
Lemma node_children i p d :
  (i, p, d) ∈ nodes 0 None T →
  mChildren (deref m (sdName d)) =
  (λ t : nat * option string * StateDef, sdName t.2)
    <$> ((λ c, (S i, Some (sdName d), c)) <$> sdChildren d) ∧
  Forall (λ t, t ∈ nodes 0 None T) ((λ c, (S i, Some (sdName d), c)) <$> sdChildren d).
Proof.
  intros Hn. destruct (node_fields m T i p d m_tree Hn) as (_ & _ & _ & -> & _).
  split.
  - by rewrite <- list_fmap_compose.
  - apply Forall_fmap, Forall_forall. intros c Hc. simpl. by eapply nodes_child.
Qed.

(** The breadth-first loop of [listExitStates] on a queue of nodes of the
    tree with disjoint subtrees, in order of depth.  What it pushes on the
    front of [lToExitList] depends on the queue only. *)
Lemma exitLoop_spec k :
  ∀ (F : list (nat * option string * StateDef)) L,
    Forall (λ t, t ∈ nodes 0 None T) F →
    NoDup (flat_map (λ t, allNames t.2) F) →
    length (flat_map (λ t, allNames t.2) F) ≤ k →
    (∀ i j a b, i < j → F !! i = Some a → F !! j = Some b → a.1.1 ≤ b.1.1) →
    (∀ a b, a ∈ F → b ∈ F → b.1.1 ≤ S a.1.1) →
    ∃ new : list (nat * option string * StateDef),
      exitLoop k n m ((λ t, sdName t.2) <$> F) L
        = Done (((λ t, sdName t.2) <$> new) ++ L) ∧
      Forall (λ t, t ∈ nodes 0 None T) new ∧
      (∀ x, x ∈ (λ t, sdName t.2) <$> new ↔
            ∃ f, f ∈ (λ t, sdName t.2) <$> F ∧ activePath n m f x) ∧
      (∀ t, t ∈ new →
            ∃ f, f ∈ F ∧ sdName t.2 ∈ flat_map allNames (sdChildren f.2)) ∧
      NoDup ((λ t, sdName t.2) <$> new) ∧
      (∀ t f, t ∈ new → f ∈ F → f.1.1 ≤ t.1.1) ∧
      (∀ i j a b, i < j → new !! i = Some a → new !! j = Some b → b.1.1 ≤ a.1.1).
Proof.
  induction k as [|k IH]; intros [|f rest] L HF Hnd Hk Hord Hbnd.
  - exists []. simpl. split; [done|]. split; [done|]. split.
    { intros x. split; [by intros ?%elem_of_nil|by intros (f & ?%elem_of_nil & _)]. }
    split; [by intros t ?%elem_of_nil|]. split; [constructor|].
    split; [by intros t f ?%elem_of_nil|]. by intros i j a b _ ?.
  - simpl in Hk. rewrite (allNames_eq f.2) in Hk. simpl in Hk. lia.
  - exists []. simpl. split; [done|]. split; [done|]. split.
    { intros x. split; [by intros ?%elem_of_nil|by intros (f & ?%elem_of_nil & _)]. }
    split; [by intros t ?%elem_of_nil|]. split; [constructor|].
    split; [by intros t f ?%elem_of_nil|]. by intros i j a b _ ?.
  - destruct f as [[i p] d]. apply Forall_cons in HF as [Hf Hrest].
    destruct (node_children i p d Hf) as [Hkids Hkn].
    set (kids := (λ c, (S i, Some (sdName d), c)) <$> sdChildren d) in *.
    set (cs := filter (λ t : nat * option string * StateDef,
                         isActiveB n m (sdName t.2) = true) kids).
    assert (cs `sublist_of` kids) as Hsub by apply sublist_filter.
    assert (∀ t, t ∈ cs → t.1.1 = S i ∧ t.2 ∈ sdChildren d ∧
                          isActiveB n m (sdName t.2) = true) as Hcs.
    { intros t Ht. apply list_elem_of_filter in Ht as [Ha Ht].
      apply list_elem_of_fmap in Ht as (c & -> & Hc). done. }
    cbn [fmap list_fmap exitLoop]. cbn [snd]. rewrite Hkids.
    rewrite exitChildren_spec. cbn [mbind result_bind].
    rewrite <- (filter_fmap_name (λ t : nat * option string * StateDef, sdName t.2)
                  (λ c, isActiveB n m c = true) kids).
    fold cs. rewrite <- fmap_rev', <- fmap_app.
    simpl in Hnd, Hk. rewrite (allNames_eq d) in Hnd, Hk. simpl in Hnd, Hk.
    apply NoDup_cons in Hnd as [Hroot Hnd].
    apply NoDup_app in Hnd as (Hbelow & Hdisj & Hnrest).
    assert (flat_map (λ t : nat * option string * StateDef, allNames t.2) kids
            = flat_map allNames (sdChildren d)) as Ekids.
    { unfold kids. clear. induction (sdChildren d) as [|c l IHl]; [done|].
      rewrite fmap_cons. simpl. by rewrite IHl. }
    assert (flat_map (λ t : nat * option string * StateDef, allNames t.2) cs
              `sublist_of` flat_map allNames (sdChildren d)) as Hcsub.
    { rewrite <- Ekids. by apply flat_map_sublist. }
    destruct (IH (rest ++ cs) (((λ t, sdName t.2) <$> rev cs) ++ L))
      as (new' & E & Hnew & Hmem & Hbel & Hndn & Hlow & Hsort).
    { apply Forall_app. split; [done|].
      apply Forall_forall. intros t Ht. rewrite Forall_forall in Hkn.
      apply Hkn. by eapply elem_of_sublist. }
    { rewrite flat_map_app. apply NoDup_app. split; [done|]. split.
      - intros x Hx Hx'. apply (Hdisj x); [|done]. by eapply elem_of_sublist.
      - exact (sublist_NoDup _ _ Hbelow Hcsub). }
    { rewrite flat_map_app, length_app in *.
      pose proof (sublist_length _ _ Hcsub). lia. }
    { intros i' j' a b Hij Ha Hb.
      apply lookup_app_Some in Ha as [Ha|[Hla Ha]], Hb as [Hb|[Hlb Hb]].
      - apply (Hord (S i') (S j') a b); [lia|done..].
      - apply list_elem_of_lookup_2 in Ha, Hb.
        destruct (Hcs b Hb) as (-> & _). apply (Hbnd (i, p, d) a); [left|by right].
      - apply lookup_lt_Some in Hb. lia.
      - apply list_elem_of_lookup_2 in Ha, Hb.
        destruct (Hcs a Ha) as (-> & _). destruct (Hcs b Hb) as (-> & _). lia. }
    { assert (∀ a, a ∈ rest ++ cs → i ≤ a.1.1 ∧ a.1.1 ≤ S i) as Hrange.
      { intros a [Ha|Ha]%elem_of_app.
        - split; [|apply (Hbnd (i, p, d) a); [left|by right]].
          apply list_elem_of_lookup_1 in Ha as [j Hj].
          apply (Hord 0 (S j) (i, p, d) a); [lia|done..].
        - destruct (Hcs a Ha) as (-> & _). lia. }
      intros a b Ha Hb. destruct (Hrange a Ha), (Hrange b Hb). lia. }
    exists (new' ++ rev cs). rewrite E.
    split; [by rewrite fmap_app, <- app_assoc|].
    split.
    { apply Forall_app. split; [done|]. apply Forall_forall. intros t Ht.
      rewrite elem_of_rev' in Ht. rewrite Forall_forall in Hkn.
      apply Hkn. by eapply elem_of_sublist. }
    split.
    { intros x. rewrite fmap_app, elem_of_app, Hmem. split.
      - intros [(g & Hg & Hp)|Hx].
        + rewrite fmap_app in Hg. apply elem_of_app in Hg as [Hg|Hg].
          * exists g. split; [by right|done].
          * apply list_elem_of_fmap in Hg as (t & -> & Ht).
            destruct (Hcs t Ht) as (_ & Hc & Hact).
            exists (sdName d). split; [left|].
            apply activePath_prepend with (sdName t.2); [|done..].
            destruct (node_fields m T i p d m_tree Hf) as (_ & _ & _ & -> & _).
            by apply list_elem_of_fmap_2.
        + apply list_elem_of_fmap in Hx as (t & -> & Ht). rewrite elem_of_rev' in Ht.
          destruct (Hcs t Ht) as (_ & Hc & Hact).
          exists (sdName d). split; [left|]. apply activePath_child; [|done].
          destruct (node_fields m T i p d m_tree Hf) as (_ & _ & _ & -> & _).
          by apply list_elem_of_fmap_2.
      - intros (g & Hg & Hp). apply elem_of_cons in Hg as [->|Hg].
        + apply activePath_first in Hp as (c & Hc & Hact & Hx).
          simpl in Hc. rewrite Hkids in Hc.
          apply list_elem_of_fmap in Hc as (t & -> & Ht).
          assert (t ∈ cs) as Htc by by apply list_elem_of_filter.
          destruct Hx as [->|Hx].
          * right. apply name_in_names. by rewrite elem_of_rev'.
          * left. exists (sdName t.2). split; [|done].
            rewrite fmap_app. apply elem_of_app. right. by apply name_in_names.
        + left. exists g. split; [|done]. rewrite fmap_app. apply elem_of_app. by left. }
    split.
    { intros t [Ht|Ht]%elem_of_app.
      - destruct (Hbel t Ht) as (g & Hg & Hin).
        apply elem_of_app in Hg as [Hg|Hg]; [exists g; split; [by right|done]|].
        exists (i, p, d). split; [left|]. simpl.
        destruct (Hcs g Hg) as (_ & Hc & _).
        apply (child_names_below d g.2); [done|]. by apply below_in_allNames.
      - rewrite elem_of_rev' in Ht. exists (i, p, d). split; [left|]. simpl.
        destruct (Hcs t Ht) as (_ & Hc & _).
        apply (child_names_below d t.2); [done|]. apply name_in_allNames. }
    assert (NoDup (flat_map (λ t : nat * option string * StateDef, allNames t.2)
                     (rest ++ cs))) as HndF'.
    { rewrite flat_map_app. apply NoDup_app. split; [done|]. split.
      - intros x Hx Hx'. apply (Hdisj x); [|done]. by eapply elem_of_sublist.
      - exact (sublist_NoDup _ _ Hbelow Hcsub). }
    split.
    { rewrite fmap_app. apply NoDup_app. split; [done|]. split.
      - intros x Hx Hx'. apply list_elem_of_fmap in Hx as (t & -> & Ht).
        apply list_elem_of_fmap in Hx' as (c & Ec & Hc). rewrite elem_of_rev' in Hc.
        destruct (Hbel t Ht) as (g & Hg & Hin). rewrite Ec in Hin.
        apply (root_not_below (rest ++ cs) c g HndF'); [|done..].
        apply elem_of_app. by right.
      - rewrite fmap_rev'. apply NoDup_rev'.
        assert (NoDup ((λ t : nat * option string * StateDef, sdName t.2) <$> kids)) as Hk'.
        { rewrite <- Hkids.
          destruct (node_fields m T i p d m_tree Hf) as (_ & _ & _ & -> & _).
          clear -Hbelow. induction (sdChildren d) as [|c l IHl]; [constructor|].
          simpl in Hbelow. rewrite fmap_cons. apply NoDup_app in Hbelow as (H1 & H2 & H3).
          constructor; [|by apply IHl].
          intros Hin. apply list_elem_of_fmap in Hin as (c' & E' & Hc').
          apply (H2 (sdName c)); [apply name_in_allNames|].
          apply elem_of_flat_map. exists c'. split; [done|].
          rewrite E'. apply name_in_allNames. }
        eapply sublist_NoDup; [exact Hk'|]. by apply fmap_sublist. }
    split.
    { intros t g [Ht|Ht]%elem_of_app Hg.
      - assert (i ≤ t.1.1) as Hit.
        { destruct (Hbel t Ht) as (g' & Hg' & _).
          specialize (Hlow t g' Ht Hg').
          apply elem_of_app in Hg' as [Hg'|Hg'].
          - apply list_elem_of_lookup_1 in Hg' as [j Hj].
            assert (i ≤ g'.1.1) as Hig.
            { apply (Hord 0 (S j) (i, p, d) g'); [lia|done..]. }
            lia.
          - destruct (Hcs g' Hg') as (E' & _). lia. }
        apply elem_of_cons in Hg as [->|Hg]; [done|].
        apply Hlow; [done|]. apply elem_of_app. by left.
      - rewrite elem_of_rev' in Ht. destruct (Hcs t Ht) as (-> & _).
        apply (Hbnd (i, p, d) g); [left|done]. }
    intros i' j' a b Hij Ha Hb.
    apply lookup_app_Some in Ha as [Ha|[Hla Ha]], Hb as [Hb|[Hlb Hb]].
    + by apply (Hsort i' j').
    + apply list_elem_of_lookup_2 in Ha, Hb. rewrite elem_of_rev' in Hb.
      apply Hlow; [done|]. apply elem_of_app. by right.
    + apply lookup_lt_Some in Hb. lia.
    + apply list_elem_of_lookup_2 in Ha, Hb. rewrite elem_of_rev' in Ha, Hb.
      destruct (Hcs a Ha) as (-> & _). destruct (Hcs b Hb) as (-> & _). lia.
Qed.

End ExitList.

Lemma elem_sublist_flat_map {A B} (f : A → list B) (l : list A) a :
  a ∈ l → f a `sublist_of` flat_map f l.
Proof.
  induction l as [|b l IH]; [by intros ?%elem_of_nil|].
  simpl. intros [->|Hin]%elem_of_cons.
  - by apply sublist_inserts_r.
  - apply sublist_inserts_l. by apply IH.
Qed.

Lemma node_names_sublist T :
  ∀ j q i p d, (i, p, d) ∈ nodes j q T → allNames d `sublist_of` allNames T.
Proof.
  induction T as [T IH] using StateDef_ind'. intros j q i p d.
  rewrite nodes_eq. intros [[= -> -> ->]|Hin]%elem_of_cons; [done|].
  apply elem_of_flat_map in Hin as (c & Hc & Hin).
  rewrite (allNames_eq T). apply sublist_cons.
  rewrite Forall_forall in IH. etrans; [by eapply (IH c Hc)|].
  by apply elem_sublist_flat_map.
Qed.

Lemma ancestor_named m T p a :
  hasTree m T → p ∈ allNames T → ancestorOrSelf m p a → a ∈ allNames T.
Proof.
  intros Htree Hp. induction 1 as [x|x q y Hq _ IH]; [done|].
  apply IH. apply (pointedAt_named T m q Htree). right. by exists x.
Qed.

Lemma foldl_erase_sublist lToRemove lFiltered :
  foldl eraseTransition lFiltered lToRemove `sublist_of` lFiltered.
Proof.
  revert lFiltered. induction lToRemove as [|u l IH]; intros lFiltered; simpl; [done|].
  etrans; [apply IH|]. apply sublist_filter.
Qed.

Section ExitLists.

Variable m : StateMachine.
Variable T : StateDef.
Variable n : nat.
Hypothesis m_tree : hasTree m T.
Hypothesis n_enough : countStates T ≤ n.

Lemma listExitStates_spec t tgt :
  mTarget t = Some tgt →
  ∃ a l,
    findLeastCommonAncestor n m (mSource t) (Some tgt) = Done (Some a) ∧
    listExitStates n m t = Done l ∧
    (∀ x, x ∈ l ↔ isActiveB n m a = true ∧ activePath n m a x) ∧
    NoDup l ∧ deepestFirst T l ∧ ∀ x, x ∈ l → x ∈ allNames T.
Proof.
  intros Ht.
  destruct (findLeastCommonAncestor_cases m T n (mSource t) tgt m_tree n_enough)
    as (a & Ha & Hcases).
  assert (a ∈ allNames T) as Hnamed.
  { destruct Hcases as [((p & Hp & Hup) & _)|[-> _]].
    - apply (ancestor_named m T p a m_tree); [|done].
      apply (pointedAt_named T m p m_tree). right. by exists (mSource t).
    - destruct m_tree as (_ & -> & _). apply name_in_allNames. }
  destruct (name_node T a Hnamed) as (i & p & d & Hn & Hd).
  exists a. unfold listExitStates. rewrite Ht, Ha. cbn [mbind result_bind].
  rewrite (isActive_isActiveB m T n m_tree n_enough). cbn [mbind result_bind].
  destruct (isActiveB n m a) eqn:Hact.
  - destruct (exitLoop_spec m T n m_tree n_enough n [(i, p, d)] [])
      as (new & E & Hnew & Hmem & Hbel & Hnd & _ & Hsort).
    { by apply Forall_singleton. }
    { simpl. rewrite app_nil_r.
      exact (sublist_NoDup _ _ (proj1 m_tree) (node_names_sublist T 0 None i p d Hn)). }
    { simpl. rewrite app_nil_r.
      pose proof (sublist_length _ _ (node_names_sublist T 0 None i p d Hn)).
      unfold countStates in n_enough. lia. }
    { intros i' j' x y Hij Hx Hy. apply lookup_lt_Some in Hy. simpl in Hy. lia. }
    { intros x y ->%list_elem_of_singleton ->%list_elem_of_singleton. lia. }
    simpl in E. rewrite Hd in E. rewrite app_nil_r in E.
    exists ((λ t : nat * option string * StateDef, sdName t.2) <$> new).
    split; [done|]. split; [done|]. split.
    { intros x. rewrite Hmem. simpl. rewrite Hd. split.
      - intros (f & ->%list_elem_of_singleton & Hp). done.
      - intros [_ Hp]. exists a. split; [left|done]. }
    split; [done|]. split.
    { intros i' j' x y dx dy Hij Hx Hy (px & ex & Hex & Enx) (py & ey & Hey & Eny).
      rewrite list_lookup_fmap in Hx, Hy.
      destruct (new !! i') as [tx|] eqn:Htx; [|done].
      destruct (new !! j') as [ty|] eqn:Hty; [|done].
      simpl in Hx, Hy. injection Hx as Hx. injection Hy as Hy.
      rewrite Forall_forall in Hnew.
      pose proof (Hnew tx (list_elem_of_lookup_2 _ _ _ Htx)) as Hnx.
      pose proof (Hnew ty (list_elem_of_lookup_2 _ _ _ Hty)) as Hny.
      destruct tx as [[ix qx] cx], ty as [[iy qy] cy]. simpl in *.
      assert ((ix, qx, cx) = (dx, px, ex)) as [= -> -> ->].
      { apply (nodes_name_inj T); [apply m_tree|done..|congruence]. }
      assert ((iy, qy, cy) = (dy, py, ey)) as [= -> -> ->].
      { apply (nodes_name_inj T); [apply m_tree|done..|congruence]. }
      apply (Hsort i' j' _ _ Hij Htx Hty). }
    intros x Hx. apply list_elem_of_fmap in Hx as (tx & -> & Htx).
    rewrite Forall_forall in Hnew. destruct tx as [[ix qx] cx].
    by eapply node_name_in, Hnew.
  - exists []. destruct n; simpl; (split; [done|]); (split; [done|]);
      (split; [intros x; split; [by intros ?%elem_of_nil|by intros [? _]]|]);
      (split; [constructor|]); (split; [by intros i' j' x y dx dy _ ?|]);
      by intros x ?%elem_of_nil.
Qed.

Lemma listExitStates_returns t : is_Some (mTarget t) → ∃ l, listExitStates n m t = Done l.
Proof.
  intros [tgt Ht]. destruct (listExitStates_spec t tgt Ht) as (a & l & _ & Hl & _).
  by exists l.
Qed.

Lemma checkAgainst_returns lToCheckTarget lToCheckExits lFiltered :
  ∀ lIntersect lToRemove,
    ∃ r, checkAgainst n m lToCheckTarget lToCheckExits lFiltered lIntersect lToRemove
         = Done r.
Proof.
  induction lFiltered as [|u lFiltered IH]; intros lIntersect lToRemove; simpl;
    [by eexists|].
  destruct (mTarget u) as [tu|] eqn:Hu; [|apply IH].
  destruct (listExitStates_returns u) as [l ->]; [by rewrite Hu|].
  cbn [mbind result_bind].
  match goal with |- context [if ?c then _ else _] => destruct c end; [|apply IH].
  destruct (isDescendant_returns m T m_tree lToCheckTarget (Some tu) n n_enough) as [b ->].
  cbn [mbind result_bind]. destruct b; [apply IH|by eexists].
Qed.

Lemma removeLoop_spec ts :
  ∀ lFiltered lIntersect,
    ∃ f, removeLoop n m ts lFiltered lIntersect = Done f ∧
         f `sublist_of` (lFiltered ++ ts) ∧
         (lFiltered ++ ts ≠ [] → f ≠ []).
Proof.
  induction ts as [|t ts IH]; intros lFiltered lIntersect; simpl.
  - exists lFiltered. by rewrite app_nil_r.
  - assert (∃ f, removeLoop n m ts (lFiltered ++ [t]) lIntersect = Done f ∧
                 f `sublist_of` (lFiltered ++ t :: ts) ∧
                 (lFiltered ++ t :: ts ≠ [] → f ≠ [])) as Hkeep.
    { destruct (IH (lFiltered ++ [t]) lIntersect) as (f & -> & Hs & Hne).
      exists f. split; [done|]. rewrite <- app_assoc in Hs, Hne. simpl in Hs, Hne.
      done. }
    destruct lFiltered as [|u lFiltered]; [done|].
    destruct (mTarget t) as [tt|] eqn:Htt; [|done].
    destruct (listExitStates_returns t) as [l ->]; [by rewrite Htt|].
    cbn [mbind result_bind].
    destruct (checkAgainst_returns (Some tt) l (u :: lFiltered) lIntersect [])
      as ([[pre inter'] rem] & ->).
    cbn [mbind result_bind]. destruct pre.
    + destruct (IH (u :: lFiltered) inter') as (f & -> & Hs & Hne).
      exists f. split; [done|]. split; [|by intros _; apply Hne].
      etrans; [done|]. apply sublist_app; [done|]. by apply sublist_cons.
    + destruct (IH (foldl eraseTransition (u :: lFiltered) rem ++ [t]) inter')
        as (f & -> & Hs & Hne).
      exists f. split; [done|]. split.
      * etrans; [done|]. rewrite <- app_assoc.
        apply (sublist_app _ (u :: lFiltered) ([t] ++ ts) (t :: ts));
          [apply foldl_erase_sublist|done].
      * intros _. apply Hne. by destruct (foldl _ _ _).
Qed.

End ExitLists.

(** X15: on a machine with the constructed tree, the exit list of a
    transition with a target is computed in bounded time and holds exactly
    the states below the least common ancestor of source and target that
    are reached from it through states answering true to [isActive()]
    (none when the ancestor itself is not active), each once, the deepest
    first: a state comes before every listed state nearer to the root. *)
Theorem exit_list_is_the_active_states_below_the_ancestor :
  ∀ n0 params m0 m n t tgt,
    StateMachine_new n0 params = Done m0 → sameTopology m0 m →
    countStates (asRoot params) ≤ n → mTarget t = Some tgt →
    ∃ a l,
      findLeastCommonAncestor n m (mSource t) (Some tgt) = Done (Some a) ∧
      listExitStates n m t = Done l ∧
      (∀ x, x ∈ l ↔ isActiveB n m a = true ∧ activePath n m a x) ∧
      NoDup l ∧ deepestFirst (asRoot params) l.
Proof.
  intros n0 params m0 m n t tgt Hnew Hm Hn Ht.
  destruct (StateMachine_new_hasTree _ _ _ Hnew) as (Htree0 & _).
  assert (hasTree m (asRoot params)) as Htree by by eapply hasTree_sameTopology.
  destruct (listExitStates_spec m _ n Htree Hn t tgt Ht) as (a & l & H1 & H2 & H3 & H4 & H5 & _).
  by exists a, l.
Qed.

Lemma exit_list_is_the_active_states_below_the_ancestor_witness :
  ∃ m0 m,
    StateMachine_new 12 Scenario.ParallelConflictingTransition = Done m0 ∧
    calls 12 [CallEnter] m0 = Done m ∧
    listExitStates 12 m (mkTransitionImpl 0 "SA" (Some "S2") "event" None None)
      = Done ["SB"; "SA"; "S1"] ∧
    NoDup ["SB"; "SA"; "S1"] ∧
    deepestFirst (asRoot Scenario.ParallelConflictingTransition) ["SB"; "SA"; "S1"].
Proof.
  destruct (StateMachine_new 12 Scenario.ParallelConflictingTransition) as [m0| |] eqn:Hnew;
    [|by vm_compute in Hnew..].
  destruct (calls 12 [CallEnter] m0) as [m| |] eqn:Hcs;
    [|vm_compute in Hnew; injection Hnew as <-; by vm_compute in Hcs..].
  assert (countStates (asRoot Scenario.ParallelConflictingTransition) ≤ 12) as Hn.
  { vm_compute. lia. }
  destruct (StateMachine_new_kept _ _ _ _ _ _ Hnew Hcs) as [[Hm _] _].
  destruct (exit_list_is_the_active_states_below_the_ancestor 12 _ m0 m 12
              (mkTransitionImpl 0 "SA" (Some "S2") "event" None None) "S2"
              Hnew Hm Hn eq_refl) as (a & l & _ & Hl & _ & Hnd & Hdeep).
  exists m0, m. split; [exact eq_refl|]. split; [exact Hcs|].
  assert (l = ["SB"; "SA"; "S1"]) as ->.
  { vm_compute in Hnew. injection Hnew as <-. vm_compute in Hcs. injection Hcs as <-.
    vm_compute in Hl. by injection Hl as <-. }
  split; [exact Hl|]. split; [exact Hnd|exact Hdeep].
Defined.

(** X16: on a machine with the constructed tree [removeConflicts] returns
    for every list of transitions.  What it returns is a subsequence of
    the list: transitions of the list, in the order of the list, none
    invented and none repeated; and when the list is not empty, at least
    one transition is kept. *)
Theorem removeConflicts_keeps_some_in_order :
  ∀ n0 params m0 m n ts,
    StateMachine_new n0 params = Done m0 → sameTopology m0 m →
    countStates (asRoot params) ≤ n →
    ∃ f, removeConflicts n m ts = Done f ∧ f `sublist_of` ts ∧ (ts ≠ [] → f ≠ []).
Proof.
  intros n0 params m0 m n ts Hnew Hm Hn.
  destruct (StateMachine_new_hasTree _ _ _ Hnew) as (Htree0 & _).
  assert (hasTree m (asRoot params)) as Htree by by eapply hasTree_sameTopology.
  unfold removeConflicts.
  destruct (removeLoop_spec m _ n Htree Hn ts [] []) as (f & Hf & Hs & Hne).
  by exists f.
Qed.

Lemma removeConflicts_keeps_some_in_order_witness :
  ∃ m0 m ts f,
    StateMachine_new 12 Scenario.ParallelConflictingTransition = Done m0 ∧
    calls 12 [CallEnter] m0 = Done m ∧
    selectTransitions 12 m "event" = Done ts ∧ length ts = 2 ∧
    removeConflicts 12 m ts = Done f ∧ f `sublist_of` ts ∧ f ≠ [].
Proof.
  destruct (StateMachine_new 12 Scenario.ParallelConflictingTransition) as [m0| |] eqn:Hnew;
    [|by vm_compute in Hnew..].
  destruct (calls 12 [CallEnter] m0) as [m| |] eqn:Hcs;
    [|vm_compute in Hnew; injection Hnew as <-; by vm_compute in Hcs..].
  destruct (selectTransitions 12 m "event") as [ts| |] eqn:Hs;
    [|vm_compute in Hnew; injection Hnew as <-; vm_compute in Hcs; injection Hcs as <-;
      by vm_compute in Hs..].
  assert (countStates (asRoot Scenario.ParallelConflictingTransition) ≤ 12) as Hn.
  { vm_compute. lia. }
  destruct (StateMachine_new_kept _ _ _ _ _ _ Hnew Hcs) as [[Hm _] _].
  destruct (removeConflicts_keeps_some_in_order 12 _ m0 m 12 ts Hnew Hm Hn)
    as (f & Hf & Hsub & Hne).
  assert (length ts = 2) as Hlen.
  { vm_compute in Hnew. injection Hnew as <-. vm_compute in Hcs. injection Hcs as <-.
    vm_compute in Hs. by injection Hs as <-. }
  exists m0, m, ts, f. split; [exact eq_refl|]. split; [exact Hcs|].
  split; [exact Hs|]. split; [exact Hlen|]. split; [exact Hf|]. split; [exact Hsub|].
  apply Hne. by destruct ts.
Defined.

(** ** The configuration [enter()] reaches *)

Lemma onDescent_of_name T p d :
  NoDup (allNames T) → (p, d) ∈ links None T → sdName d ∈ descent T →
  ∃ i, onDescent T i p d.
Proof.
  intros Hnd Hpd Hin.
  destruct (descent_onDescent T _ Hin) as (i & p' & d' & Hd' & E).
  apply (links_in_nodes 0) in Hpd as [j Hj].
  pose proof (nodes_name_inj T _ _ _ _ _ _ Hnd (onDescent_node _ _ _ _ Hd') Hj E)
    as [= -> -> ->].
  by exists j.
Qed.

Lemma onDescent_child_inv T j d c :
  NoDup (allNames T) → (∃ p i, onDescent T i p d) → c ∈ sdChildren d →
  onDescent T j (Some (sdName d)) c →
  sdIsParallel d = true ∨ initialChild (sdChildren d) = Some c.
Proof.
  intros Hnd (p & i & Hd) Hc H.
  inversion H as [|i0 p0 d0 c0 Hd0 Hpar Hc0 Ei Ep Ec|i0 p0 d0 c0 Hd0 Hpar Hc0 Ei Ep Ec];
    subst.
  - pose proof (nodes_name_inj T _ _ _ _ _ _ Hnd (onDescent_node _ _ _ _ Hd0)
                  (onDescent_node _ _ _ _ Hd) Ep) as [= -> -> ->]. by left.
  - pose proof (nodes_name_inj T _ _ _ _ _ _ Hnd (onDescent_node _ _ _ _ Hd0)
                  (onDescent_node _ _ _ _ Hd) Ep) as [= -> -> ->]. by right.
Qed.

(** The states of the initial descent form a configuration: with each
    state its parent; all children of a parallel state; of a state that is
    not parallel, its initial child and no other. *)
Lemma descent_configuration T :
  wellFormed T →
  ∀ p d, (p, d) ∈ links None T → sdName d ∈ descent T →
    (∀ q, p = Some q → q ∈ descent T) ∧
    (sdIsParallel d = true → ∀ c, c ∈ sdChildren d → sdName c ∈ descent T) ∧
    (sdIsParallel d = false → sdChildren d ≠ [] →
     ∃ c, c ∈ sdChildren d ∧ sdName c ∈ descent T ∧
          ∀ c', c' ∈ sdChildren d → sdName c' ∈ descent T → c' = c).
Proof.
  intros [Hnd Hok] p d Hpd Hin.
  destruct (onDescent_of_name T p d Hnd Hpd Hin) as [i Hd].
  split; [|split].
  - intros q ->. inversion Hd; subst; by eapply onDescent_descent.
  - intros Hpar c Hc. eapply onDescent_descent. by eapply onDescent_parallel.
  - intros Hpar Hne. destruct (Hok p d Hpd) as (_ & Hini & _).
    destruct (Hini Hpar Hne) as (c0 & Hc0 & Hi0).
    destruct (initialChild (sdChildren d)) as [c|] eqn:Hc.
    2:{ pose proof (proj1 (initial_filter_find _) Hc c0 Hc0) as Hf. congruence. }
    exists c. split; [by apply initialChild_in|].
    split; [eapply onDescent_descent; by eapply onDescent_initial|].
    intros c' Hc' Hin'.
    assert ((Some (sdName d), c') ∈ links None T) as Hl'.
    { eapply nodes_in_links. eapply nodes_child; [by apply onDescent_node|done]. }
    destruct (onDescent_of_name T _ c' Hnd Hl' Hin') as [j Hj].
    destruct (onDescent_child_inv T j d c' Hnd) as [E|E]; try done.
    + by exists p, i.
    + congruence.
    + congruence.
Qed.

(** X17: when the entry and exit callbacks only log, calling neither
    [pushEvent] nor [enter()] nor [leave()], [enter()] on the machine the
    constructor returned reaches a configuration as the statecharts
    demand: the root is active; with every active state its
    parent is active; every child of an active parallel state is active;
    and an active state that is not parallel and has children has exactly
    one active child. *)
Theorem enter_reaches_a_configuration :
  ∀ n0 params m0 n,
    StateMachine_new n0 params = Done m0 →
    quiet (asRoot params) → countStates (asRoot params) ≤ n →
    ∃ m1,
      enter n m0 = Done m1 ∧ inState n m1 "root" = Done true ∧
      ∀ p d, (p, d) ∈ links None (asRoot params) →
        inState n m1 (sdName d) = Done true →
        (∀ q, p = Some q → inState n m1 q = Done true) ∧
        (sdIsParallel d = true →
         ∀ c, c ∈ sdChildren d → inState n m1 (sdName c) = Done true) ∧
        (sdIsParallel d = false → sdChildren d ≠ [] →
         ∃ c, c ∈ sdChildren d ∧ inState n m1 (sdName c) = Done true ∧
              ∀ c', c' ∈ sdChildren d → inState n m1 (sdName c') = Done true →
                    c' = c).
Proof.
  intros n0 params m0 n Hnew Hq Hn.
  destruct (StateMachine_new_atRest _ _ _ Hnew) as [Hchk Hrest].
  destruct (StateMachine_new_hasTree _ _ _ Hnew) as (Htree & Hclear & Hoff & Hlog).
  pose proof (StateMachine_new_indexed _ _ _ Hnew) as Hidx.
  pose proof (StateMachine_new_cases n0 params) as Hwf. rewrite Hnew in Hwf.
  destruct (round_clean m0 (asRoot params) n Hchk Htree Hq Hn m0 Hrest Hidx Hclear Hoff)
    as (m1 & m2 & E1 & _ & _ & _ & _ & _ & A1 & _).
  assert (∀ x, inState n m1 x = Done true ↔ x ∈ descent (asRoot params)) as Hin.
  { intros x. rewrite A1. split.
    - intros [= H]. by apply bool_decide_eq_true in H.
    - intros H. by rewrite bool_decide_eq_true_2. }
  exists m1. split; [done|]. split.
  { apply Hin. apply (descent_head (asRoot params)). }
  intros p d Hpd Hd. apply Hin in Hd.
  destruct (descent_configuration _ Hwf p d Hpd Hd) as (H1 & H2 & H3).
  split; [|split].
  - intros q Hq'. apply Hin. by apply H1.
  - intros Hpar c Hc. apply Hin. by apply H2.
  - intros Hpar Hne. destruct (H3 Hpar Hne) as (c & Hc & Hcin & Huniq).
    exists c. split; [done|]. split; [by apply Hin|].
    intros c' Hc' Hc'in. apply Huniq; [done|]. by apply Hin.
Qed.

Lemma enter_reaches_a_configuration_witness :
  ∃ m0 m1,
    StateMachine_new 12 Scenario.ChildOnEntry = Done m0 ∧
    quiet (asRoot Scenario.ChildOnEntry) ∧
    countStates (asRoot Scenario.ChildOnEntry) ≤ 12 ∧
    enter 12 m0 = Done m1 ∧ inState 12 m1 "root" = Done true.
Proof.
  destruct (StateMachine_new 12 Scenario.ChildOnEntry) as [m0| |] eqn:Hnew;
    [|by vm_compute in Hnew..].
  assert (quiet (asRoot Scenario.ChildOnEntry)) as Hq.
  { apply quiet_Forall. vm_compute. repeat constructor. }
  assert (countStates (asRoot Scenario.ChildOnEntry) ≤ 12) as Hn.
  { vm_compute. lia. }
  destruct (enter_reaches_a_configuration 12 _ m0 12 Hnew Hq Hn) as (m1 & E & Hr & _).
  exists m0, m1. split; [exact eq_refl|]. split; [exact Hq|]. split; [exact Hn|].
  split; [exact E|exact Hr].
Defined.

(** ** Entry lists *)

Lemma inactiveAbove_snoc n m x anc a :
  inactiveAbove n m x (anc ++ [a]) →
  mParent (deref m x) = Some a ∧ isActiveB n m a = false ∧ inactiveAbove n m a anc.
Proof.
  intros (Hch & Hin & Htop).
  split; [|split; [|split; [|split]]].
  - apply (Hch (length anc)).
    + rewrite <- app_assoc. simpl. by apply list_lookup_middle.
    + rewrite <- app_assoc. simpl.
      change (anc ++ a :: [x]) with (anc ++ [a] ++ [x]). rewrite app_assoc.
      apply list_lookup_middle. rewrite length_app. simpl. lia.
  - apply Hin. apply elem_of_app. right. left.
  - intros i u v Hu Hv. apply (Hch i).
    + apply lookup_app_l_Some. exact Hu.
    + apply lookup_app_l_Some. exact Hv.
  - intros u Hu. apply Hin. apply elem_of_app. by left.
  - intros h q Hh Hq. apply (Htop h q); [|done].
    rewrite <- app_assoc. destruct anc; simpl in *; done.
Qed.

Lemma length_children_names (cs : list StateDef) :
  length cs ≤ length (flat_map allNames cs).
Proof.
  induction cs as [|c cs IH]; simpl; [done|].
  rewrite length_app, (allNames_eq c). simpl. lia.
Qed.

Lemma children_names_sublist (cs : list StateDef) :
  (sdName <$> cs) `sublist_of` flat_map allNames cs.
Proof.
  induction cs as [|c cs IH]; simpl; [done|].
  rewrite (allNames_eq c). simpl. apply sublist_skip.
  etrans; [exact IH|]. apply sublist_inserts_l. done.
Qed.

Section EntryList.

Variable m : StateMachine.
Variable T : StateDef.
Variable n : nat.
Hypothesis m_tree : hasTree m T.
Hypothesis n_enough : countStates T ≤ n.

(** The third loop passes over a state that is not parallel, or has no
    child. *)
Lemma parallelPass_plain k seen l :
  length l ≤ k → (∀ x, x ∈ l → mIsParallel (deref m x) = false ∨ mChildren (deref m x) = []) →
  parallelPass k m (seen, l) = Done (rev seen ++ l).
Proof.
  revert seen l. induction k as [|k IH]; intros seen [|x l] Hk Hp; simpl in *.
  - by rewrite app_nil_r.
  - lia.
  - by rewrite app_nil_r.
  - assert (parallelPass k m (advance (seen, x :: l)) = Done (rev seen ++ x :: l)) as E.
    { unfold advance; simpl. rewrite IH.
      - simpl. by rewrite <- app_assoc.
      - lia.
      - intros y Hy. apply Hp. by right. }
    destruct (Hp x) as [Hx|Hx]; [by left|..].
    + by rewrite Hx.
    + rewrite Hx. simpl. by destruct (mIsParallel (deref m x)).
Qed.

(** The first loop below a state whose initial descent meets no parallel
    state *)
Lemma completionLoop_chain d :
  ∀ i p, (i, p, d) ∈ nodes 0 None T →
  (∀ x, x ∈ descent d → mIsParallel (deref m x) = false) →
  ∀ k acc, length (descent d) ≤ k →
  completionLoop k m [sdName d] acc = Done (acc ++ tail (descent d)).
Proof.
  induction d as [d IH] using StateDef_ind'. intros i p Hn Hp k acc Hk.
  rewrite descent_eq in Hk, Hp |- *.
  destruct (node_fields m T i p d m_tree Hn) as (_ & Hpar & Hini & _).
  assert (sdIsParallel d = false) as Hd.
  { rewrite <- Hpar. apply Hp. left. }
  rewrite Hd in *. simpl in Hk. destruct k as [|k]; [lia|]. simpl.
  rewrite Hpar, Hini.
  destruct (initialChild (sdChildren d)) as [c|] eqn:Hc; simpl.
  - rewrite Forall_forall in IH.
    rewrite (IH c (initialChild_in _ _ Hc) (S i) (Some (sdName d))).
    + rewrite <- app_assoc. f_equal. f_equal. by rewrite (descent_eq c).
    + by eapply nodes_child, initialChild_in.
    + intros x Hx. apply Hp. by right.
    + lia.
  - destruct k; simpl; by rewrite app_nil_r.
Qed.

(** The first loop over states without children *)
Lemma completionLoop_atoms fifo :
  ∀ k acc, length fifo ≤ k →
  (∀ c, c ∈ fifo → mChildren (deref m c) = [] ∧ mInitial (deref m c) = None) →
  completionLoop k m fifo acc = Done acc.
Proof.
  induction fifo as [|c fifo IH]; intros k acc Hk Hat; [by destruct k|].
  destruct k as [|k]; simpl in *; [lia|].
  destruct (Hat c) as [-> ->]; [left|]. rewrite !app_nil_r.
  assert (completionLoop k m fifo acc = Done acc) as ->; [|by destruct (mIsParallel _)].
  apply IH; [lia|]. intros y Hy. apply Hat. by right.
Qed.

Lemma isActive_isActiveB' x : isActive n m x = Done (isActiveB n m x).
Proof.
  unfold isActiveB. destruct (isActive_returns m T m_tree x n n_enough) as [b ->].
  by destruct b.
Qed.

(** The second loop climbs over the inactive ancestors. *)
Lemma ancestorsLoop_chain anc :
  ∀ k x l, length anc ≤ k → inactiveAbove n m x anc →
  ancestorsLoop k n m (mParent (deref m x)) l = Done (anc ++ l).
Proof.
  induction anc as [|a anc IH] using rev_ind; intros k x l Hk Hanc.
  - destruct Hanc as (_ & _ & Htop). simpl in *.
    destruct (mParent (deref m x)) as [q|] eqn:Hq; [|by destruct k].
    assert (isActive n m q = Done true) as E.
    { rewrite isActive_isActiveB'. f_equal. by apply (Htop x q). }
    destruct k; simpl; by rewrite E.
  - apply inactiveAbove_snoc in Hanc as (Hx & Ha & Hanc).
    rewrite length_app in Hk. simpl in Hk. destruct k as [|k]; [lia|].
    rewrite Hx. simpl. rewrite isActive_isActiveB', Ha. simpl.
    rewrite (IH k a (a :: l)); [|lia|done]. by rewrite <- app_assoc.
Qed.

Lemma inactiveAbove_length anc :
  ∀ x i p d, (i, p, d) ∈ nodes 0 None T → sdName d = x →
  inactiveAbove n m x anc → length anc ≤ i.
Proof.
  induction anc as [|a anc IH] using rev_ind; intros x i p d Hn Hx Hanc; [simpl; lia|].
  apply inactiveAbove_snoc in Hanc as (Hpx & _ & Hanc).
  destruct (node_fields m T i p d m_tree Hn) as (Hp & _).
  rewrite Hx, Hpx in Hp. subst p.
  destruct (nodes_parent_node T i a d Hn) as (j & p' & d' & -> & Hn' & Hd').
  rewrite length_app. simpl.
  pose proof (IH a j p' d' Hn' Hd' Hanc). lia.
Qed.

Lemma listEntryStates_plain i p d anc :
  (i, p, d) ∈ nodes 0 None T →
  inactiveAbove n m (sdName d) anc →
  (∀ x, x ∈ anc ++ descent d → mIsParallel (deref m x) = false) →
  listEntryStates n m (Some (sdName d)) = Done (anc ++ descent d).
Proof.
  intros Hn Hanc Hp. unfold listEntryStates.
  pose proof (length_descent d) as Hld.
  pose proof (node_names_sublist T 0 None i p d Hn) as Hsub.
  apply sublist_length in Hsub. fold (countStates d) in Hsub. fold (countStates T) in Hsub.
  rewrite (completionLoop_chain d i p Hn); [|intros x Hx; apply Hp, elem_of_app; by right|lia].
  assert ([sdName d] ++ tail (descent d) = descent d) as -> by by rewrite (descent_eq d).
  simpl.
  pose proof (inactiveAbove_length anc _ i p d Hn eq_refl Hanc) as Hla.
  pose proof (nodes_depth T i p d Hn) as Hi.
  rewrite (ancestorsLoop_chain anc n _ (descent d)); [|lia|done]. simpl.
  rewrite parallelPass_plain; [done|done|].
  intros x Hx. left. by apply Hp.
Qed.

Lemma insertChildren_others c1 cs :
  ∀ seen x after, (∀ c, c ∈ cs → c ≠ c1) →
  advance (insertChildren cs (Some c1) (seen, x :: after)) = (rev (x :: cs) ++ seen, after).
Proof.
  induction cs as [|c cs IH]; intros seen x after Hne; [done|].
  simpl. rewrite bool_decide_eq_false_2.
  2:{ intros [= E]. by apply (Hne c); [left|]. }
  rewrite IH; [|intros y Hy; apply Hne; by right].
  simpl. by rewrite <- !app_assoc.
Qed.

Lemma completionLoop_parallel_atoms k x acc :
  mIsParallel (deref m x) = true → length (mChildren (deref m x)) < k →
  (∀ c, c ∈ mChildren (deref m x) →
        mChildren (deref m c) = [] ∧ mInitial (deref m c) = None) →
  completionLoop k m [x] acc = Done (acc ++ mChildren (deref m x)).
Proof.
  intros Hpar Hk Hat. destruct k as [|k]; [lia|]. simpl. rewrite Hpar.
  apply completionLoop_atoms; [lia|done].
Qed.

Lemma inactiveAbove_nil x :
  (∀ q, mParent (deref m x) = Some q → isActiveB n m q = true) →
  inactiveAbove n m x [].
Proof.
  intros Htop. split; [|split].
  - intros i a b _ Hb. by destruct i.
  - by intros a ?%elem_of_nil.
  - intros h q [= <-]. apply Htop.
Qed.

Lemma listEntryStates_parallel_atoms i p d :
  (i, p, d) ∈ nodes 0 None T → sdIsParallel d = true →
  (∀ c, c ∈ sdChildren d → sdChildren c = []) →
  (∀ q, p = Some q → isActiveB n m q = true) →
  listEntryStates n m (Some (sdName d)) =
  Done (sdName d :: (sdName <$> sdChildren d) ++ tail (sdName <$> sdChildren d)).
Proof.
  intros Hn Hpar Hat Htop. unfold listEntryStates.
  destruct (node_fields m T i p d m_tree Hn) as (Hp & Hpar' & _ & Hcs & _).
  pose proof (node_names_sublist T 0 None i p d Hn) as Hsub.
  assert (NoDup (allNames d)) as Hnd
    by exact (sublist_NoDup _ _ (proj1 m_tree) Hsub).
  apply sublist_length in Hsub. rewrite (allNames_eq d) in Hsub, Hnd. simpl in Hsub.
  apply NoDup_cons in Hnd as [_ Hnd].
  pose proof (sublist_NoDup _ _ Hnd (children_names_sublist (sdChildren d))) as Hndc.
  pose proof (length_children_names (sdChildren d)) as Hlen.
  fold (countStates T) in Hsub.
  assert (∀ c, c ∈ sdName <$> sdChildren d →
               mChildren (deref m c) = [] ∧ mInitial (deref m c) = None) as Hatoms.
  { intros c (c' & -> & Hc')%list_elem_of_fmap.
    destruct (node_fields m T (S i) (Some (sdName d)) c' m_tree) as (_ & _ & -> & -> & _).
    - by eapply nodes_child.
    - by rewrite (Hat c' Hc'). }
  rewrite Hpar in Hpar'.
  rewrite completionLoop_parallel_atoms;
    [|done|rewrite Hcs, length_fmap; lia|by rewrite Hcs].
  simpl. rewrite Hcs.
  rewrite (ancestorsLoop_chain [] n (sdName d));
    [|simpl; lia|apply inactiveAbove_nil; intros q Hq; apply Htop; congruence].
  simpl. rewrite Hpar', Hcs.
  destruct (sdName <$> sdChildren d) as [|c1 cs] eqn:Ecs; [done|]. simpl.
  rewrite bool_decide_eq_true_2 by done.
  apply NoDup_cons in Hndc as [Hc1 _].
  change (advance ([], sdName d :: c1 :: cs)) with ([sdName d], c1 :: cs).
  rewrite insertChildren_others; [|by intros c Hc ->].
  change (parallelPass (S (length cs)) m (rev (c1 :: cs) ++ [sdName d], cs)
          = Done (sdName d :: c1 :: cs ++ cs)).
  rewrite parallelPass_plain.
  - simpl. rewrite rev_app_distr. simpl. rewrite rev_app_distr, rev_involutive. done.
  - simpl. lia.
  - intros x Hx. right. apply Hatoms. by right.
Qed.

End EntryList.

(** X18: the entry list of a target whose initial descent and inactive
    ancestors hold no parallel state is made of the inactive ancestors of
    the target, from the outermost one, which is the child of the nearest
    active ancestor, down to the parent of the target, then the target and
    its initial descent: the initial child, its initial child, and so on. *)
Theorem entry_list_of_a_plain_target :
  ∀ n0 params m0 m n p d anc,
    StateMachine_new n0 params = Done m0 → sameTopology m0 m →
    countStates (asRoot params) ≤ n →
    (p, d) ∈ links None (asRoot params) →
    inactiveAbove n m (sdName d) anc →
    (∀ x, x ∈ anc ++ descent d → mIsParallel (deref m x) = false) →
    listEntryStates n m (Some (sdName d)) = Done (anc ++ descent d).
Proof.
  intros n0 params m0 m n p d anc Hnew Hm Hn Hpd Hanc Hplain.
  destruct (StateMachine_new_hasTree _ _ _ Hnew) as (Htree0 & _).
  assert (hasTree m (asRoot params)) as Htree by by eapply hasTree_sameTopology.
  apply (links_in_nodes 0) in Hpd as [i Hi].
  by apply (listEntryStates_plain m (asRoot params) n Htree Hn i p d anc).
Qed.

Lemma entry_list_of_a_plain_target_witness :
  ∃ m0 m,
    StateMachine_new 12 Scenario.ChildOnEntry = Done m0 ∧
    calls 12 [CallEnter; CallLeave] m0 = Done m ∧
    inactiveAbove 12 m "S1B" ["root"; "S1"] ∧
    listEntryStates 12 m (Some "S1B") = Done ["root"; "S1"; "S1B"; "S1Biii"].
Proof.
  destruct (StateMachine_new 12 Scenario.ChildOnEntry) as [m0| |] eqn:Hnew;
    [|vm_compute in Hnew; discriminate Hnew..].
  destruct (calls 12 [CallEnter; CallLeave] m0) as [m| |] eqn:Hcs;
    [|vm_compute in Hnew; injection Hnew as <-; vm_compute in Hcs; discriminate Hcs..].
  assert (countStates (asRoot Scenario.ChildOnEntry) ≤ 12) as Hn.
  { vm_compute. lia. }
  destruct (StateMachine_new_kept _ _ _ _ _ _ Hnew Hcs) as [[Hm _] _].
  pose (d := mkStateDef "S1B" true false
               [ Scenario.atom "S1Bi" false [] (Scenario.entry "S1Bi") [];
                 Scenario.atom "S1Bii" false [] (Scenario.entry "S1Bii") [];
                 Scenario.atom "S1Biii" true [] (Scenario.entry "S1Biii") [] ]
               [] (Scenario.entry "S1B") []).
  assert (inactiveAbove 12 m "S1B" ["root"; "S1"] ∧
          ∀ x, x ∈ ["root"; "S1"] ++ descent d → mIsParallel (deref m x) = false)
    as [Hanc Hplain].
  { clear Hm Hn.
    vm_compute in Hnew. injection Hnew as <-. vm_compute in Hcs. injection Hcs as <-.
    split; [split; [|split]|].
    - intros [|[|[|i]]] a b Ha Hb;
        [| |discriminate Hb|discriminate Ha];
        injection Ha as <-; injection Hb as <-; exact eq_refl.
    - intros a Ha. repeat (apply elem_of_cons in Ha as [->|Ha]; [exact eq_refl|]).
      apply elem_of_nil in Ha. destruct Ha.
    - intros h q [= <-]. vm_compute. intros Hq. discriminate Hq.
    - intros x Hx. vm_compute in Hx.
      repeat (apply elem_of_cons in Hx as [->|Hx]; [exact eq_refl|]).
      apply elem_of_nil in Hx. destruct Hx. }
  exists m0, m. split; [exact eq_refl|]. split; [exact Hcs|]. split; [exact Hanc|].
  refine (entry_list_of_a_plain_target 12 _ m0 m 12 (Some "S1") d ["root"; "S1"]
            Hnew Hm Hn _ Hanc Hplain).
  vm_compute. do 3 right. left.
Defined.

(** X19: the entry list of a target that is a parallel state whose
    children have no children, and whose parent is active, holds the
    target, then its children in declaration order, then once more every
    child but the first. *)
Theorem entry_list_of_a_parallel_target_repeats_children :
  ∀ n0 params m0 m n p d,
    StateMachine_new n0 params = Done m0 → sameTopology m0 m →
    countStates (asRoot params) ≤ n →
    (p, d) ∈ links None (asRoot params) →
    sdIsParallel d = true → (∀ c, c ∈ sdChildren d → sdChildren c = []) →
    (∀ q, p = Some q → isActiveB n m q = true) →
    listEntryStates n m (Some (sdName d)) =
    Done (sdName d :: (sdName <$> sdChildren d) ++ tail (sdName <$> sdChildren d)).
Proof.
  intros n0 params m0 m n p d Hnew Hm Hn Hpd Hpar Hat Htop.
  destruct (StateMachine_new_hasTree _ _ _ Hnew) as (Htree0 & _).
  assert (hasTree m (asRoot params)) as Htree by by eapply hasTree_sameTopology.
  apply (links_in_nodes 0) in Hpd as [i Hi].
  by apply (listEntryStates_parallel_atoms m (asRoot params) n Htree Hn i p d).
Qed.

Lemma entry_list_of_a_parallel_target_repeats_children_witness :
  ∃ m0 m,
    StateMachine_new 12 Scenario.ParallelConflictingTransition = Done m0 ∧
    calls 12 [CallEnter; CallPushEvent "event"] m0 = Done m ∧
    inState 12 m "S1" = Done false ∧
    listEntryStates 12 m (Some "S1") = Done ["S1"; "SA"; "SB"; "SB"].
Proof.
  destruct (StateMachine_new 12 Scenario.ParallelConflictingTransition) as [m0| |] eqn:Hnew;
    [|vm_compute in Hnew; discriminate Hnew..].
  destruct (calls 12 [CallEnter; CallPushEvent "event"] m0) as [m| |] eqn:Hcs;
    [|vm_compute in Hnew; injection Hnew as <-; vm_compute in Hcs; discriminate Hcs..].
  assert (countStates (asRoot Scenario.ParallelConflictingTransition) ≤ 12) as Hn.
  { vm_compute. lia. }
  destruct (StateMachine_new_kept _ _ _ _ _ _ Hnew Hcs) as [[Hm _] _].
  assert (inState 12 m "S1" = Done false ∧
          ∀ q, Some "root" = Some q → isActiveB 12 m q = true) as [Hout Htop].
  { clear Hm Hn.
    vm_compute in Hnew. injection Hnew as <-. vm_compute in Hcs. injection Hcs as <-.
    split; [exact eq_refl|]. intros q [= <-]. exact eq_refl. }
  exists m0, m. split; [exact eq_refl|]. split; [exact Hcs|]. split; [exact Hout|].
  refine (entry_list_of_a_parallel_target_repeats_children 12 _ m0 m 12 (Some "root")
            (mkStateDef "S1" true true
               [ Scenario.atom "SA" false [Scenario.go "event" "S2" [Say "event from SA"]]
                   (Scenario.entry "SA entry") (Scenario.entry "SA exit");
                 Scenario.atom "SB" false [Scenario.go "event" "S3" [Say "event from SB"]]
                   (Scenario.entry "SB entry") (Scenario.entry "SB exit") ]
               [] (Scenario.entry "S1 entry") (Scenario.entry "S1 exit"))
            Hnew Hm Hn _ eq_refl _ Htop).
  - vm_compute. right. left.
  - intros c Hc. repeat (apply elem_of_cons in Hc as [->|Hc]; [exact eq_refl|]).
    apply elem_of_nil in Hc. destruct Hc.
Defined.

(** ** Two transitions out of a parallel region *)



Lemma initialChild_unique cs c :
  length (filter (λ c, sdIsInitial c = true) cs) ≤ 1 →
  c ∈ cs → sdIsInitial c = true → initialChild cs = Some c.
Proof.
  unfold initialChild. induction cs as [|a cs IH]; intros Hlen Hc Hi.
  - by apply elem_of_nil in Hc.
  - rewrite filter_cons in Hlen. simpl.
    destruct (sdIsInitial a) eqn:Ha.
    + destruct (decide (sdIsInitial a = true)) as [_|Hn]; [|done].
      apply elem_of_cons in Hc as [->|Hc]; [done|]. exfalso.
      assert (c ∈ filter (λ c, sdIsInitial c = true) cs) as Hin
        by by apply list_elem_of_filter.
      destruct (filter (λ c, sdIsInitial c = true) cs); [by apply elem_of_nil in Hin|].
      simpl in Hlen. lia.
    + destruct (decide (sdIsInitial a = true)) as [Hn|_]; [congruence|].
      apply elem_of_cons in Hc as [->|Hc]; [congruence|]. by apply IH.
Qed.



Lemma atom_descent d : sdChildren d = [] → descent d = [sdName d].
Proof. intros H. rewrite descent_eq, H. by destruct (sdIsParallel d). Qed.

(** ** The entry list of a target whose parent is active *)

Lemma nodes_sub T i p d j q d' :
  (i, p, d) ∈ nodes 0 None T → (j, q, d') ∈ nodes i p d → (j, q, d') ∈ nodes 0 None T.
Proof.
  intros Hn. revert j q d'. apply nodes_ind_down; [done|].
  intros j q d' c Hd' Hc. by eapply nodes_child.
Qed.


Lemma advance_elements z y :
  y ∈ (advance z).1 ∨ y ∈ (advance z).2 ↔ y ∈ z.1 ∨ y ∈ z.2.
Proof.
  destruct z as [seen [|x after]]; [done|]. unfold advance. simpl.
  rewrite !elem_of_cons. tauto.
Qed.

Lemma advance_length z : length (advance z).2 = pred (length z.2).
Proof. by destruct z as [seen [|x after]]. Qed.

Section EntryOfActiveParent.

Variable m : StateMachine.
Variable T : StateDef.
Variable n : nat.
Hypothesis m_tree : hasTree m T.
Hypothesis n_enough : countStates T ≤ n.
Variable i0 : nat.
Variable p0 : option string.
Variable d0 : StateDef.
Hypothesis d0_node : (i0, p0, d0) ∈ nodes 0 None T.

Lemma sub_named i p d : (i, p, d) ∈ nodes i0 p0 d0 → sdName d ∈ allNames d0.
Proof.
  intros H. rewrite <- (nodes_names i0 p0).
  apply list_elem_of_fmap. by exists (i, p, d).
Qed.

Lemma named_sub x :
  x ∈ allNames d0 → ∃ i p d, (i, p, d) ∈ nodes i0 p0 d0 ∧ sdName d = x.
Proof.
  rewrite <- (nodes_names i0 p0). intros H.
  apply list_elem_of_fmap in H as ([[i p] d] & -> & H). by exists i, p, d.
Qed.

Lemma sub_children x y :
  x ∈ allNames d0 → y ∈ mChildren (deref m x) → y ∈ allNames d0.
Proof.
  intros (i & p & d & Hn & <-)%named_sub Hy.
  destruct (node_fields m T i p d m_tree (nodes_sub _ _ _ _ _ _ _ d0_node Hn))
    as (_ & _ & _ & Hc & _).
  rewrite Hc in Hy. apply list_elem_of_fmap in Hy as (c & -> & Hc').
  eapply sub_named. by eapply nodes_child.
Qed.


Lemma completionLoop_subtree k :
  ∀ F acc,
    Forall (λ d, ∃ i p, (i, p, d) ∈ nodes i0 p0 d0) F →
    length (flat_map allNames F) ≤ k →
    ∃ l, completionLoop k m (sdName <$> F) acc = Done (acc ++ l) ∧
         ∀ y, y ∈ l → y ∈ allNames d0.
Proof.
  induction k as [|k IH]; intros [|d F] acc HF Hk.
  - exists []. rewrite app_nil_r. by split; [|intros y ?%elem_of_nil].
  - rewrite weight_children in Hk. lia.
  - exists []. rewrite app_nil_r. by split; [|intros y ?%elem_of_nil].
  - apply Forall_cons in HF as [(i & p & Hn) HF].
    destruct (node_fields m T i p d m_tree (nodes_sub _ _ _ _ _ _ _ d0_node Hn))
      as (_ & Hpar & Hini & Hcs & _).
    rewrite weight_children, flat_map_app, length_app in Hk.
    cbn [completionLoop fmap list_fmap]. rewrite Hpar, Hini, Hcs.
    destruct (sdIsParallel d).
    + rewrite <- fmap_app.
      destruct (IH (F ++ sdChildren d) (acc ++ (sdName <$> sdChildren d))) as (l & -> & Hl).
      * apply Forall_app. split; [done|]. apply Forall_forall. intros c Hc.
        eexists _, _. by eapply nodes_child.
      * rewrite flat_map_app, length_app. lia.
      * exists ((sdName <$> sdChildren d) ++ l). split; [by rewrite app_assoc|].
        intros y [Hy|Hy]%elem_of_app; [|by apply Hl].
        apply list_elem_of_fmap in Hy as (c & -> & Hc).
        eapply sub_named. by eapply nodes_child.
    + destruct (initialChild (sdChildren d)) as [c|] eqn:Hc; simpl.
      * pose proof (initialChild_in _ _ Hc) as Hin.
        change [sdName c] with (sdName <$> [c]). rewrite <- fmap_app.
        destruct (IH (F ++ [c]) (acc ++ (sdName <$> [c]))) as (l & -> & Hl).
        -- apply Forall_app. split; [done|]. apply Forall_cons. split; [|done].
           eexists _, _. by eapply nodes_child.
        -- rewrite flat_map_app, length_app. simpl. rewrite app_nil_r.
           pose proof (length_flat_map_elem allNames _ _ Hin). lia.
        -- exists ([sdName c] ++ l). split; [by rewrite app_assoc|].
           intros y [Hy|Hy]%elem_of_app; [|by apply Hl].
           apply list_elem_of_singleton in Hy as ->.
           eapply sub_named. by eapply nodes_child.
      * destruct (IH F acc) as (l & -> & Hl); [done|lia|]. by exists l.
Qed.

Lemma insertChildren_subtree cs la :
  ∀ z,
    (∀ y, y ∈ cs → y ∈ allNames d0) →
    (∀ y, y ∈ z.1 ∨ y ∈ z.2 → y ∈ allNames d0) →
    (∀ y, y ∈ (insertChildren cs la z).1 ∨ y ∈ (insertChildren cs la z).2 →
          y ∈ allNames d0) ∧
    (∀ y, y ∈ z.1 ∨ y ∈ z.2 →
          y ∈ (insertChildren cs la z).1 ∨ y ∈ (insertChildren cs la z).2) ∧
    length (insertChildren cs la z).2 ≤ max 1 (length z.2).
Proof.
  induction cs as [|c cs IH]; intros z Hcs Hz; [simpl; split; [done|split; [done|lia]]|].
  assert (∀ y, y ∈ cs → y ∈ allNames d0) as Hcs' by (intros y Hy; apply Hcs; by right).
  assert (c ∈ allNames d0) as Hc by (apply Hcs; left).
  cbn [insertChildren]. destruct (bool_decide (Some c = la)).
  - destruct (IH (advance z) Hcs') as (H1 & H2 & H3).
    { intros y Hy. by apply Hz, advance_elements. }
    split; [done|]. split.
    + intros y Hy. by apply H2, advance_elements.
    + rewrite advance_length in H3. lia.
  - destruct z as [seen [|x after]]; cbn [fst snd] in *.
    + destruct (IH (seen, [c]) Hcs') as (H1 & H2 & H3).
      { cbn [fst snd]. intros y [Hy|Hy]; [apply Hz; by left|].
        by apply list_elem_of_singleton in Hy as ->. }
      split; [done|]. split; [|simpl in H3; lia].
      intros y [Hy|Hy]; [apply H2; by left|by apply elem_of_nil in Hy].
    + destruct (IH (x :: seen, c :: after) Hcs') as (H1 & H2 & H3).
      { cbn [fst snd]. intros y Hy. rewrite !elem_of_cons in Hy.
        destruct Hy as [[->|Hy]|[->|Hy]]; [| |done|]; apply Hz; rewrite elem_of_cons; tauto. }
      split; [done|]. split; [|simpl in *; lia].
      intros y Hy. apply H2. cbn [fst snd]. rewrite !elem_of_cons in *. tauto.
Qed.

Lemma parallelPass_subtree k :
  ∀ z,
    length z.2 ≤ k → (∀ y, y ∈ z.1 ∨ y ∈ z.2 → y ∈ allNames d0) →
    ∃ l, parallelPass k m z = Done l ∧
         (∀ y, y ∈ z.1 ∨ y ∈ z.2 → y ∈ l) ∧ (∀ y, y ∈ l → y ∈ allNames d0).
Proof.
  assert (∀ z, z.2 = [] → (∀ y, y ∈ z.1 ∨ y ∈ z.2 → y ∈ allNames d0) →
            (∀ y, y ∈ z.1 ∨ y ∈ z.2 → y ∈ rev z.1) ∧
            (∀ y, y ∈ rev z.1 → y ∈ allNames d0)) as Hend.
  { intros z E Hz. split.
    - intros y [Hy|Hy]; [by apply elem_of_rev'|]. rewrite E in Hy. by apply elem_of_nil in Hy.
    - intros y Hy. apply Hz. left. by apply elem_of_rev'. }
  induction k as [|k IH]; intros [seen [|x after]] Hk Hz.
  - exists (rev seen). split; [done|]. by apply (Hend (seen, [])).
  - simpl in Hk. lia.
  - exists (rev seen). split; [done|]. by apply (Hend (seen, [])).
  - cbn [parallelPass snd]. cbn [fst snd] in *. simpl in Hk.
    assert (∃ z', (if mIsParallel (deref m x)
                   then parallelPass k m
                          (advance (insertChildren (mChildren (deref m x)) (head after)
                                      (seen, x :: after)))
                   else parallelPass k m (advance (seen, x :: after)))
                  = parallelPass k m z' ∧
                  length z'.2 ≤ k ∧
                  (∀ y, y ∈ z'.1 ∨ y ∈ z'.2 → y ∈ allNames d0) ∧
                  (∀ y, y ∈ seen ∨ y ∈ x :: after → y ∈ z'.1 ∨ y ∈ z'.2))
      as (z' & -> & Hk' & Hz' & Hkeep).
    { destruct (mIsParallel (deref m x)).
      - destruct (insertChildren_subtree (mChildren (deref m x)) (head after)
                    (seen, x :: after)) as (H1 & H2 & H3).
        + intros y Hy. apply (sub_children x); [|done]. apply Hz. right. left.
        + done.
        + eexists. split; [done|]. split; [|split].
          * rewrite advance_length. cbn [snd] in H3. simpl in H3. lia.
          * intros y Hy. apply H1. exact (proj1 (advance_elements _ _) Hy).
          * intros y Hy. apply (proj2 (advance_elements _ _)). by apply H2.
      - eexists. split; [done|]. split; [|split].
        + rewrite advance_length. simpl. lia.
        + intros y Hy. apply Hz. exact (proj1 (advance_elements (seen, x :: after) y) Hy).
        + intros y Hy. exact (proj2 (advance_elements (seen, x :: after) y) Hy). }
    destruct (IH z' Hk' Hz') as (l & -> & Hl1 & Hl2).
    exists l. split; [done|]. split; [|done].
    intros y Hy. by apply Hl1, Hkeep.
Qed.

(** The entry list is computed, holds the target, and holds nothing but
    states of the subtree of the target. *)
Lemma listEntryStates_below :
  (∀ q, p0 = Some q → isActiveB n m q = true) →
  ∃ le, listEntryStates n m (Some (sdName d0)) = Done le ∧
        sdName d0 ∈ le ∧ ∀ y, y ∈ le → y ∈ allNames d0.
Proof.
  intros Htop. unfold listEntryStates.
  pose proof (sublist_length _ _ (node_names_sublist T 0 None _ _ _ d0_node)) as Hw.
  fold (countStates T) in Hw.
  destruct (completionLoop_subtree n [d0] [sdName d0]) as (l & Hl & Hin).
  { apply Forall_cons. split; [|done]. eexists _, _. apply nodes_root. }
  { simpl. rewrite app_nil_r. lia. }
  change [sdName d0] with (sdName <$> [d0]) at 1. rewrite Hl. cbn [mbind result_bind].
  destruct (node_fields m T _ _ _ m_tree d0_node) as (Hp & _).
  rewrite (ancestorsLoop_chain m T n m_tree n_enough [] n (sdName d0));
    [|simpl; lia|].
  2:{ apply (inactiveAbove_nil m n). intros q Hq. apply Htop. congruence. }
  cbn [mbind result_bind app].
  destruct (parallelPass_subtree (length (sdName d0 :: l)) ([], sdName d0 :: l))
    as (le & -> & H1 & H2).
  { done. }
  { cbn [fst snd]. intros y [Hy|Hy]; [by apply elem_of_nil in Hy|].
    apply elem_of_cons in Hy as [->|Hy]; [apply name_in_allNames|by apply Hin]. }
  exists le. split; [done|]. split; [|done]. apply H1. right. left.
Qed.

End EntryOfActiveParent.

(** ** Entering the states of one subtree *)





Section EnterSubtree.

Variable T : StateDef.
Hypothesis T_names : NoDup (allNames T).
Variable i0 : nat.
Variable q0 : string.
Variable d0 : StateDef.
Hypothesis d0_node : (i0, Some q0, d0) ∈ nodes 0 None T.
Hypothesis q0_above : q0 ∉ allNames d0.


End EnterSubtree.

Section ConflictTree.

Variables T dP dA dB d2 : StateDef.
Hypothesis T_names : NoDup (allNames T).
Hypothesis T_plain : sdIsParallel T = false.
Hypothesis T_one : length (filter (λ c, sdIsInitial c = true) (sdChildren T)) ≤ 1.
Hypothesis P_child : dP ∈ sdChildren T.
Hypothesis P_initial : sdIsInitial dP = true.
Hypothesis P_parallel : sdIsParallel dP = true.
Hypothesis P_children : sdChildren dP = [dA; dB].
Hypothesis A_atomic : sdChildren dA = [].
Hypothesis B_atomic : sdChildren dB = [].
Hypothesis S2_child : d2 ∈ sdChildren T.
Hypothesis S2_outside : sdName d2 ≠ sdName dP.






Lemma descent_T : descent T = [sdName T; sdName dP; sdName dA; sdName dB].
Proof.
  rewrite descent_eq, T_plain, (initialChild_unique _ dP) by done.
  rewrite (descent_eq dP), P_parallel, P_children. simpl.
  by rewrite (atom_descent dA), (atom_descent dB).
Qed.






Lemma S2_node_named i p d :
  (i, p, d) ∈ nodes 1 (Some (sdName T)) d2 → sdName d ∈ allNames d2.
Proof.
  intros H. rewrite <- (nodes_names 1 (Some (sdName T))).
  apply list_elem_of_fmap. by exists (i, p, d).
Qed.


(** The parent of a state of the subtree other than S2 is in the subtree. *)
Lemma S2_parent i p d :
  (i, p, d) ∈ nodes 1 (Some (sdName T)) d2 →
  d = d2 ∧ p = Some (sdName T) ∨ ∃ q, p = Some q ∧ q ∈ allNames d2.
Proof.
  intros H.
  assert ((i, p, d) ∈ nodes 1 (Some (sdName T)) d2 ∧
          (d = d2 ∧ p = Some (sdName T) ∨ ∃ q, p = Some q ∧ q ∈ allNames d2))
    as [_ ?]; [|done].
  revert i p d H. apply nodes_ind_down.
  - split; [apply nodes_root|by left].
  - intros j q d' c [Hd' _] Hc. split; [by eapply nodes_child|].
    right. exists (sdName d'). split; [done|]. by eapply S2_node_named.
Qed.


(** *** The machine after [enter()] *)

Variable m : StateMachine.
Variable n : nat.
Hypothesis m_entered : entering T (descent T) m.
Hypothesis m_active : mIsActive m = true.
Hypothesis n_enough : countStates T ≤ n.


Lemma four_states : 4 ≤ countStates T.
Proof. pose proof (length_descent T) as H. rewrite descent_T in H. simpl in H. lia. Qed.








Lemma onDescent_P : onDescent T 1 (Some (sdName T)) dP.
Proof.
  apply (onDescent_initial T 0 None T dP); [constructor|done|].
  by apply initialChild_unique.
Qed.


Lemma active_P : isActiveB n m (sdName dP) = true.
Proof.
  unfold isActiveB. rewrite (active_onDescent T m m_entered m_active _ _ _ onDescent_P); [done|].
  pose proof four_states. lia.
Qed.









(** *** Selection and conflict *)

Variable e : string.
Variables tA tB : TransitionDef.
Hypothesis A_trans : filter (λ t, tdEvent t = e) (sdTransitions dA) = [tA].
Hypothesis B_trans : filter (λ t, tdEvent t = e) (sdTransitions dB) = [tB].
Hypothesis A_holds : ∀ g log, tdCondition tA = Some g → g log true = true.
Hypothesis B_holds : ∀ g log, tdCondition tB = Some g → g log true = true.
Hypothesis A_target : tdTarget tA = sdName d2.
Hypothesis S2_name : sdName d2 ≠ "".
Hypothesis B_target : tdTarget tB ≠ "".
Hypothesis S3_outside : tdTarget tB ∉ allNames d2.


















(** *** The configuration after the step *)


(** *** The microstep *)

Hypothesis T_quiet : quiet T.
Hypothesis A_quiet : pushes (default [] (tdAction tA)) = [].



End ConflictTree.




(** X23: on a machine with the constructed tree, the entry list of a target
    whose parent answers true to [isActive()], or which has no parent, is
    computed within the fuel of one unit per state, whatever the active-child
    pointers are.  It holds the target, and nothing but the target and
    states below it. *)
Theorem entry_list_stays_below_the_target :
  ∀ n0 params m0 m n p d,
    StateMachine_new n0 params = Done m0 → sameTopology m0 m →
    countStates (asRoot params) ≤ n →
    (p, d) ∈ links None (asRoot params) →
    (∀ q, p = Some q → isActiveB n m q = true) →
    ∃ le, listEntryStates n m (Some (sdName d)) = Done le ∧
          sdName d ∈ le ∧ ∀ y, y ∈ le → y ∈ allNames d.
Proof.
  intros n0 params m0 m n p d Hnew Hm Hn Hpd Htop.
  destruct (StateMachine_new_hasTree _ _ _ Hnew) as (Htree0 & _).
  assert (hasTree m (asRoot params)) as Htree by by eapply hasTree_sameTopology.
  apply (links_in_nodes 0) in Hpd as [i Hi].
  exact (listEntryStates_below m (asRoot params) n Htree Hn i p d Hi Htop).
Qed.

Lemma entry_list_stays_below_the_target_witness :
  ∃ m0 m,
    StateMachine_new 12 Scenario.ChildOnEntry = Done m0 ∧
    calls 12 [CallEnter] m0 = Done m ∧
    isActiveB 12 m "S1" = true ∧
    listEntryStates 12 m (Some "S1B") = Done ["S1B"; "S1Biii"].
Proof.
  destruct (StateMachine_new 12 Scenario.ChildOnEntry) as [m0| |] eqn:Hnew;
    [|vm_compute in Hnew; discriminate Hnew..].
  destruct (calls 12 [CallEnter] m0) as [m| |] eqn:Hcs;
    [|vm_compute in Hnew; injection Hnew as <-; vm_compute in Hcs; discriminate Hcs..].
  assert (countStates (asRoot Scenario.ChildOnEntry) ≤ 12) as Hn.
  { vm_compute. lia. }
  destruct (StateMachine_new_kept _ _ _ _ _ _ Hnew Hcs) as [[Hm _] _].
  pose (d := mkStateDef "S1B" true false
               [ Scenario.atom "S1Bi" false [] (Scenario.entry "S1Bi") [];
                 Scenario.atom "S1Bii" false [] (Scenario.entry "S1Bii") [];
                 Scenario.atom "S1Biii" true [] (Scenario.entry "S1Biii") [] ]
               [] (Scenario.entry "S1B") []).
  assert (isActiveB 12 m "S1" = true) as Hact.
  { clear Hm Hn.
    vm_compute in Hnew. injection Hnew as <-. vm_compute in Hcs. injection Hcs as <-.
    exact eq_refl. }
  destruct (entry_list_stays_below_the_target 12 _ m0 m 12 (Some "S1") d Hnew Hm Hn)
    as (le & Hle & _ & _).
  - vm_compute. do 3 right. left.
  - intros q Hq. injection Hq as <-. exact Hact.
  - exists m0, m. split; [exact eq_refl|]. split; [exact Hcs|]. split; [exact Hact|].
    assert (le = ["S1B"; "S1Biii"]) as <-; [|exact Hle].
    clear Hm Hn Hact.
    vm_compute in Hnew. injection Hnew as <-. vm_compute in Hcs. injection Hcs as <-.
    vm_compute in Hle. injection Hle as <-. exact eq_refl.
Defined.
